(** * Presence reconciliation engine of the Twitch presence tracker

    A shallow embedding of the reconciliation tick (src/index.js), the
    enrichment queue (src/enrich.js), the SQLite session store (store.js),
    the credential file (authStore.js) and the Helix client (twitch.js), and
    the proofs of the properties stated about them.

    Conventions of the embedding.
    - JavaScript numbers that hold millisecond timestamps, second counts and
      follower totals are integers far below 2^53; they are modelled by [Z],
      and [Math.floor (x / 1000)] by floor division, which agrees with the
      IEEE quotient on that range.
    - JavaScript strings are modelled by [string]; [toLowerCase] and [trim]
      act on the ASCII range (Twitch logins are ASCII), other bytes are left
      as they are.
    - A JavaScript [Set] of strings is the list of its elements in insertion
      order, which is the order its iterator yields them in.
    - [null] and [undefined] are [None].
    - An [async] function is a tree of reads and writes of the memory and of
      calls to the collaborators: the clock, the provider, the database and
      the credential file. What a call returns is fixed by an oracle, call
      by call: the provider replies or fails, a write to the database or to
      the credential file takes effect or throws, and a write of several
      steps that throws leaves what the steps before the failing one did:
      the store runs no transaction and [writeFileSync] empties the file
      before it writes. Every call is logged.
    - The event loop runs one task at a time. While a call to the provider
      is awaited other tasks may run; of what they do the model keeps the
      names they hand to [enqueue]. *)

From Stdlib Require Import ZArith List Bool Ascii String Lia.
From stdpp Require Import base tactics option list strings pretty gmap.
From stdpp Require Import sorting.

Set Default Proof Using "Type".

(** ** JavaScript values and strings *)

Definition is_upper (c : ascii) : bool :=
  let n := N_of_ascii c in ((65 <=? n) && (n <=? 90))%N.

Definition lower_ascii (c : ascii) : ascii :=
  if is_upper c then ascii_of_N (N_of_ascii c + 32) else c.

(** [String.prototype.toLowerCase] *)
Fixpoint toLowerCase (s : string) : string :=
  match s with
  | EmptyString => EmptyString
  | String c r => String (lower_ascii c) (toLowerCase r)
  end.

(** White space in the sense of [String.prototype.trim]: TAB, LF, VT, FF, CR
    and SPACE. *)
Definition is_space (c : ascii) : bool :=
  match N_of_ascii c with
  | 9 | 10 | 11 | 12 | 13 | 32 => true
  | _ => false
  end%N.

Fixpoint trimStart (s : string) : string :=
  match s with
  | EmptyString => EmptyString
  | String c r => if is_space c then trimStart r else s
  end.

Fixpoint trimEnd (s : string) : string :=
  match s with
  | EmptyString => EmptyString
  | String c r =>
      match trimEnd r with
      | EmptyString => if is_space c then EmptyString else String c EmptyString
      | r' => String c r'
      end
  end.

(** [String.prototype.trim] *)
Definition trim (s : string) : string := trimEnd (trimStart s).

(** The values an array handed to [enqueue] may hold. *)
Inductive jsval :=
| JUndefined
| JNull
| JBool (b : bool)
| JNum (z : Z)
| JStr (s : string).

(** Truthiness, as tested by [if (u)], [!x] and [x || y]. *)
Definition truthy (v : jsval) : bool :=
  match v with
  | JUndefined | JNull => false
  | JBool b => b
  | JNum z => negb (z =? 0)%Z
  | JStr s => negb (String.eqb s "")
  end.

(** [String(u)] *)
Definition js_String (v : jsval) : string :=
  match v with
  | JUndefined => "undefined"
  | JNull => "null"
  | JBool true => "true"
  | JBool false => "false"
  | JNum z => pretty z
  | JStr s => s
  end.

(** Truthiness of a nullable string and of a nullable number. *)
Definition truthy_str (x : option string) : bool :=
  match x with
  | Some s => negb (String.eqb s "")
  | None => false
  end.

Definition truthy_num (x : option Z) : bool :=
  match x with
  | Some z => negb (z =? 0)%Z
  | None => false
  end.

(** [x || null] on a nullable string. *)
Definition or_null (x : option string) : option string :=
  if truthy_str x then x else None.

(** [x || ''] on a nullable string. *)
Definition or_empty (x : option string) : string :=
  match x with
  | Some s => s
  | None => ""
  end.

(** ** JavaScript [Set] of strings, in insertion order *)

Module JSSet.

Definition has (x : string) (s : list string) : bool := bool_decide (x ∈ s).

Definition add (s : list string) (x : string) : list string :=
  if has x s then s else s ++ [x].

Definition delete (s : list string) (x : string) : list string :=
  filter (λ y, y ≠ x) s.

(** [new Set(iterable)] *)
Definition of_list (l : list string) : list string := foldl add [] l.

End JSSet.

(** ** The SQLite store (store.js) *)

Module Store.

Inductive event_type := join | leave.

Record event := Event {
  ev_username : string;
  ev_type : event_type;
  ev_ts : Z;
  ev_channel_login : option string
}.

Record session := Session {
  ss_username : string;
  ss_joined_at : Z;
  ss_left_at : option Z;
  ss_duration_sec : option Z;
  ss_channel_login : option string
}.

Record profile := Profile {
  username : string;
  user_id : option string;
  display_name : option string;
  broadcaster_type : option string;
  follower_count : option Z;
  profile_image_url : option string;
  updated_at : Z
}.

(** The three tables; a row's id is its position ([AUTOINCREMENT], and no
    row is ever deleted). [users] has [username] as primary key. *)
Record t := Make {
  events : list event;
  sessions : list session;
  users : gmap string profile
}.

Definition empty : t := Make [] [] ∅.

(** [INSERT INTO events (username, event_type, ts, channel_login)] *)
Definition insertEvent (u : string) (ty : event_type) (ts : Z)
    (ch : option string) (st : t) : t :=
  Make (events st ++ [Event u ty ts ch]) (sessions st) (users st).

(** [INSERT INTO sessions (username, joined_at, channel_login)] *)
Definition insertSession (u : string) (ts : Z) (ch : option string)
    (st : t) : t :=
  Make (events st) (sessions st ++ [Session u ts None None ch]) (users st).

(** SQL [x = ?] on a nullable text column: never true when either side is
    [NULL]. *)
Definition sql_eq (x y : option string) : bool :=
  match x, y with
  | Some a, Some b => bool_decide (a = b)
  | _, _ => false
  end.

(** [WHERE username = ? AND left_at IS NULL AND channel_login = ?] *)
Definition is_open_for (u : string) (ch : option string) (r : session)
    : bool :=
  bool_decide (ss_username r = u)
  && bool_decide (ss_left_at r = None)
  && sql_eq (ss_channel_login r) ch.

(** The greatest [joined_at] of a list of rows. *)
Definition max_joined (rows : list session) : option Z :=
  foldr (λ r acc, Some (match acc with
                        | None => ss_joined_at r
                        | Some m => Z.max (ss_joined_at r) m
                        end)) None rows.

(** [SELECT joined_at FROM sessions WHERE ... ORDER BY joined_at DESC
    LIMIT 1], read with [.get]: the row, or [undefined]. *)
Definition selectLatestOpen (u : string) (ch : option string) (st : t)
    : option Z :=
  max_joined (filter (λ r, is_open_for u ch r = true) (sessions st)).

Fixpoint update_first (P : session → bool) (f : session → session)
    (rows : list session) : list session :=
  match rows with
  | [] => []
  | r :: rs => if P r then f r :: rs else r :: update_first P f rs
  end.

Definition close (ts dur : Z) (r : session) : session :=
  Session (ss_username r) (ss_joined_at r) (Some ts) (Some dur)
    (ss_channel_login r).

(** [UPDATE sessions SET left_at = ?, duration_sec = ? WHERE username = ?
    AND left_at IS NULL AND channel_login = ? ORDER BY joined_at DESC
    LIMIT 1]. Among rows that tie on the greatest [joined_at] SQL leaves
    the choice open; the model takes the one with the least id. *)
Definition closeSession (ts dur : Z) (u : string) (ch : option string)
    (st : t) : t :=
  match selectLatestOpen u ch st with
  | None => st
  | Some m =>
      Make (events st)
        (update_first
           (λ r, is_open_for u ch r && (ss_joined_at r =? m)%Z)
           (close ts dur) (sessions st))
        (users st)
  end.

Definition eventJoin (u : string) (ts : Z) (ch : option string) (st : t)
    : t :=
  insertSession u ts ch (insertEvent u join ts ch st).

Definition eventLeave (u : string) (ts : Z) (ch : option string) (st : t)
    : t :=
  let st1 := insertEvent u leave ts ch st in
  match selectLatestOpen u ch st1 with
  | Some joined_at =>
      let dur := Z.max 0 ((ts - joined_at) / 1000) in
      closeSession ts dur u ch st1
  | None => st1
  end.

(** The order of an index on [username]: that of the bytes. *)
Definition by_username (a b : session) : Prop :=
  String.leb (ss_username a) (ss_username b) = true.

#[global] Instance by_username_dec a b : Decision (by_username a b).
Proof. unfold by_username. apply _. Defined.

(** [SELECT username FROM sessions WHERE left_at IS NULL AND
    channel_login = ?], lowercased into a [Set]. The statement has no
    [ORDER BY]; SQLite answers it through the index on
    [(channel_login, username)], idx_sessions_channel_user, so the rows come
    by user name. *)
Definition getOpenSet (ch : option string) (st : t) : list string :=
  JSSet.of_list
    (map (λ r, toLowerCase (ss_username r))
       (merge_sort by_username
          (filter (λ r, (bool_decide (ss_left_at r = None)
                         && sql_eq (ss_channel_login r) ch) = true)
             (sessions st)))).

(** [INSERT INTO users ... ON CONFLICT(username) DO UPDATE SET ...]: every
    column of the row is replaced. *)
Definition saveUserProfile (p : profile) (st : t) : t :=
  Make (events st) (sessions st) (<[username p := p]> (users st)).

(** The number of open session rows of a user in a channel. *)
Definition open_count (u : string) (ch : option string) (st : t) : nat :=
  length (filter (λ r, is_open_for u ch r = true) (sessions st)).

End Store.

(** ** Errors and the replies of the collaborators *)

(** A thrown value, as far as the tick looks at it: [err.response.status],
    [err.response.data], [err.message] and [String(err)]. *)
Record jserror := JsError {
  err_status : option Z;
  err_data : option string;
  err_message : option string;
  err_string : string
}.

Inductive outcome (A : Type) : Type :=
| Ok (a : A)
| Err (e : jserror).
Arguments Ok {A} a.
Arguments Err {A} e.

(** Body of the token endpoint's reply. *)
Record tokenResponse := TokenResponse {
  access_token : option string;
  refresh_token : option string;
  scope : option (list string);
  expires_in : option Z
}.

(** Body of [GET /chat/chatters]: [data] (a row carries [user_login]) and
    [pagination.cursor]. *)
Record chattersBody := ChattersBody {
  chatters_data : option (list (option string));
  pagination_cursor : option string
}.

Record helixUser := HelixUser {
  hu_id : option string;
  hu_login : option string;
  hu_display_name : option string;
  hu_broadcaster_type : option string;
  hu_profile_image_url : option string
}.

(** ** The state held in memory (index.js, enrich.js) *)

Record staticCfg := StaticCfg {
  clientId : option string;
  clientSecret : option string
}.

Record auth := Auth {
  token : option string;
  refreshToken : option string;
  tokenExpiresAt : option Z;
  moderatorId : option string;
  meLogin : option string;
  tokenScopes : list string;
  broadcasterId : option string;
  broadcasterLogin : option string;
  current : list string;
  lastPollAt : option Z;
  lastError : option string
}.

Definition newSessionAuth : auth :=
  Auth None None None None None [] None None [] None None.

#[global] Instance auth_inhabited : Inhabited auth := populate newSessionAuth.

(** What [persistAuth] writes for a tenant. *)
Record savedAuth := SavedAuth {
  sv_token : option string;
  sv_refreshToken : option string;
  sv_tokenExpiresAt : option Z;
  sv_moderatorId : option string;
  sv_meLogin : option string;
  sv_tokenScopes : list string;
  sv_broadcasterId : option string;
  sv_broadcasterLogin : option string
}.

Definition credentials (a : auth) : savedAuth :=
  SavedAuth (token a) (refreshToken a) (tokenExpiresAt a) (moderatorId a)
    (meLogin a) (tokenScopes a) (broadcasterId a) (broadcasterLogin a).

(** [sessions] is the tenant map of index.js; [enrichToken] is
    [cfgForEnrich.userAccessToken]; [queue] and [running] are the enricher's
    closure variables. *)
Record heap := Heap {
  cfg : staticCfg;
  sessions : gmap string auth;
  enrichToken : option string;
  queue : list string;
  running : bool
}.

(** The tenant object registered under [sid]; where none is registered, a
    tenant as [newSessionAuth] makes it, on which [ensureFreshToken] and
    [tickOne] do nothing. *)
Definition tenant (h : heap) (sid : string) : auth := sessions h !!! sid.

Definition set_tenant (sid : string) (a : auth) (h : heap) : heap :=
  Heap (cfg h) (<[sid := a]> (sessions h)) (enrichToken h) (queue h)
    (running h).

Definition set_enrichToken (t : option string) (h : heap) : heap :=
  Heap (cfg h) (sessions h) t (queue h) (running h).

Definition set_queue (q : list string) (h : heap) : heap :=
  Heap (cfg h) (sessions h) (enrichToken h) q (running h).

Definition set_running (b : bool) (h : heap) : heap :=
  Heap (cfg h) (sessions h) (enrichToken h) (queue h) b.

Definition set_lastPollAt (x : option Z) (a : auth) : auth :=
  Auth (token a) (refreshToken a) (tokenExpiresAt a) (moderatorId a)
    (meLogin a) (tokenScopes a) (broadcasterId a) (broadcasterLogin a)
    (current a) x (lastError a).

Definition set_lastError (x : option string) (a : auth) : auth :=
  Auth (token a) (refreshToken a) (tokenExpiresAt a) (moderatorId a)
    (meLogin a) (tokenScopes a) (broadcasterId a) (broadcasterLogin a)
    (current a) (lastPollAt a) x.

Definition set_current (x : list string) (a : auth) : auth :=
  Auth (token a) (refreshToken a) (tokenExpiresAt a) (moderatorId a)
    (meLogin a) (tokenScopes a) (broadcasterId a) (broadcasterLogin a)
    x (lastPollAt a) (lastError a).

(** ** Calls to the collaborators *)

Inductive call :=
| DateNow
| PostToken (client_id client_secret refresh_token : option string)
| GetChatters (client_id tok broadcaster_id moderator_id : option string)
    (first : Z) (after : option string)
| GetUsers (client_id tok : option string) (logins : list string)
| GetFollowers (client_id tok broadcaster_id : option string) (first : Z)
| StoreEventJoin (u : string) (ts : Z) (ch : option string)
| StoreEventLeave (u : string) (ts : Z) (ch : option string)
| StoreSaveUserProfile (p : Store.profile)
| AuthStoreSave (out : gmap string savedAuth).

Definition reply (c : call) : Type :=
  match c with
  | DateNow => Z
  | PostToken _ _ _ => tokenResponse
  | GetChatters _ _ _ _ _ _ => chattersBody
  | GetUsers _ _ _ => option (list helixUser)
  | GetFollowers _ _ _ _ => option Z
  | StoreEventJoin _ _ _ | StoreEventLeave _ _ _ | StoreSaveUserProfile _
  | AuthStoreSave _ => unit
  end.

(** The calls that are awaited: while one is pending, other tasks of the
    event loop run. *)
Definition awaited (c : call) : bool :=
  match c with
  | PostToken _ _ _ | GetChatters _ _ _ _ _ _ | GetUsers _ _ _
  | GetFollowers _ _ _ _ => true
  | _ => false
  end.

(** ** Programs *)

(** An [async] function is a tree: it returns, throws, reads or writes the
    memory, or calls a collaborator and goes on with the call's outcome. *)
Inductive prog (A : Type) : Type :=
| Ret (a : A)
| Throw (e : jserror)
| Get (k : heap → prog A)
| Put (h : heap) (k : prog A)
| Call (c : call) (k : outcome (reply c) → prog A).
Arguments Ret {A} a.
Arguments Throw {A} e.
Arguments Get {A} k.
Arguments Put {A} h k.
Arguments Call {A} c k.

Fixpoint bind {A B : Type} (p : prog A) (f : A → prog B) : prog B :=
  match p with
  | Ret a => f a
  | Throw e => Throw e
  | Get k => Get (λ h, bind (k h) f)
  | Put h k => Put h (bind k f)
  | Call c k => Call c (λ r, bind (k r) f)
  end.

#[global] Instance prog_ret : MRet prog := @Ret.
#[global] Instance prog_bind : MBind prog := λ A B f p, bind p f.

(** [try { p } catch (e) { handler e }] *)
Fixpoint try_catch {A : Type} (p : prog A) (handler : jserror → prog A)
    : prog A :=
  match p with
  | Ret a => Ret a
  | Throw e => handler e
  | Get k => Get (λ h, try_catch (k h) handler)
  | Put h k => Put h (try_catch k handler)
  | Call c k => Call c (λ r, try_catch (k r) handler)
  end.

(** [try { p } finally { f }] *)
Fixpoint try_finally {A : Type} (p : prog A) (f : prog unit) : prog A :=
  match p with
  | Ret a => bind f (λ _, Ret a)
  | Throw e => bind f (λ _, Throw e)
  | Get k => Get (λ h, try_finally (k h) f)
  | Put h k => Put h (try_finally k f)
  | Call c k => Call c (λ r, try_finally (k r) f)
  end.

(** A call whose failure is thrown. *)
Definition call_ (c : call) : prog (reply c) :=
  Call c (λ r, match r with Ok x => Ret x | Err e => Throw e end).

Definition gets {A : Type} (f : heap → A) : prog A := Get (λ h, Ret (f h)).

Definition modify (f : heap → heap) : prog unit :=
  Get (λ h, Put (f h) (Ret tt)).

(** [for (const x of l) body x] *)
Fixpoint for_each {A : Type} (l : list A) (body : A → prog unit) : prog unit :=
  match l with
  | [] => Ret tt
  | x :: l' => bind (body x) (λ _, for_each l' body)
  end.

(** ** The collaborators: store, credential file, provider, clock *)

(** One call and how it ended. *)
Record entry := Entry {
  en_call : call;
  en_result : outcome (reply en_call)
}.

(** [store] is the SQLite database, [authFile] the content of the credential
    file once written, [log] the calls made so far, oldest first. *)
Record env := Env {
  store : Store.t;
  authFile : option (gmap string savedAuth);
  log : list entry
}.

Definition set_store (st : Store.t) (e : env) : env :=
  Env st (authFile e) (log e).

Definition set_authFile (f : gmap string savedAuth) (e : env) : env :=
  Env (store e) (Some f) (log e).

Definition add_log (en : entry) (e : env) : env :=
  Env (store e) (authFile e) (log e ++ [en]).

(** What the outside world does: the reading of the clock, the provider's
    reply, or the failure of disk I/O, at the [n]-th call of the run. A
    write that fails may have got somewhere before it failed: [io_stage]
    tells how far, [0] being nowhere. *)
Record oracle := Oracle {
  clock : nat → Z;
  token_reply : nat → outcome tokenResponse;
  chatters_reply : nat → outcome chattersBody;
  users_reply : nat → outcome (option (list helixUser));
  followers_reply : nat → outcome (option Z);
  io_fail : nat → option jserror;
  io_stage : nat → nat
}.

(** A write of one statement, [upsertUser.run]: it throws when the I/O
    fails, changing nothing, and takes effect otherwise. *)
Definition io (o : oracle) (n : nat) (e e' : env) : outcome unit * env :=
  match io_fail o n with
  | Some x => (Err x, e)
  | None => (Ok tt, e')
  end.

(** [eventJoin] and [eventLeave] are several statements outside any
    transaction, the first of them [insertEvent.run]: when a later one
    throws, the event is recorded and nothing else is. *)
Definition cut_event (o : oracle) (n : nat) (u : string)
    (ty : Store.event_type) (ts : Z) (ch : option string) (e : env) : env :=
  match io_stage o n with
  | O => e
  | S _ => set_store (Store.insertEvent u ty ts ch (store e)) e
  end.

Definition io_event (o : oracle) (n : nat) (u : string)
    (ty : Store.event_type) (ts : Z) (ch : option string) (e e' : env)
    : outcome unit * env :=
  match io_fail o n with
  | Some x => (Err x, cut_event o n u ty ts ch e)
  | None => (Ok tt, e')
  end.

(** [fs.writeFileSync]: it opens the file, which empties it, writes and
    closes. It may throw at the opening, the file being as it was; while
    it writes, leaving a text that [load] cannot read; or at the closing,
    all being written. *)
Definition cut_file (o : oracle) (n : nat) (out : gmap string savedAuth)
    (e : env) : env :=
  match io_stage o n with
  | O => e
  | S O => Env (store e) None (log e)
  | S (S _) => set_authFile out e
  end.

Definition io_file (o : oracle) (n : nat) (out : gmap string savedAuth)
    (e : env) : outcome unit * env :=
  match io_fail o n with
  | Some x => (Err x, cut_file o n out e)
  | None => (Ok tt, set_authFile out e)
  end.

Definition answer (o : oracle) (n : nat) (c : call) (e : env)
    : outcome (reply c) * env :=
  match c return outcome (reply c) * env with
  | DateNow => (Ok (clock o n), e)
  | PostToken _ _ _ => (token_reply o n, e)
  | GetChatters _ _ _ _ _ _ => (chatters_reply o n, e)
  | GetUsers _ _ _ => (users_reply o n, e)
  | GetFollowers _ _ _ _ => (followers_reply o n, e)
  | StoreEventJoin u ts ch =>
      io_event o n u Store.join ts ch e
        (set_store (Store.eventJoin u ts ch (store e)) e)
  | StoreEventLeave u ts ch =>
      io_event o n u Store.leave ts ch e
        (set_store (Store.eventLeave u ts ch (store e)) e)
  | StoreSaveUserProfile p =>
      io o n e (set_store (Store.saveUserProfile p (store e)) e)
  | AuthStoreSave out => io_file o n out e
  end.

(** [enqueue] of enrich.js, on the pending set. *)
Definition enqueue_into (q : list string) (usernames : list jsval)
    : list string :=
  foldl (λ q u, if truthy u then JSSet.add q (toLowerCase (js_String u))
                else q) q usernames.

(** Running a program. [arr n] is the array some other task hands to
    [enqueue] while the [n]-th call of the run is awaited. *)
Fixpoint run {A : Type} (arr : nat → list jsval) (o : oracle) (p : prog A)
    (h : heap) (e : env) : outcome A * heap * env :=
  match p with
  | Ret a => (Ok a, h, e)
  | Throw x => (Err x, h, e)
  | Get k => run arr o (k h) h e
  | Put h' k => run arr o k h' e
  | Call c k =>
      let n := length (log e) in
      let '(r, e1) := answer o n c e in
      let h1 := if awaited c
                then set_queue (enqueue_into (queue h) (arr n)) h
                else h in
      run arr o (k r) h1 (add_log (Entry c r) e1)
  end.

(** No other task enqueues anything. *)
Definition quiet : nat → list jsval := λ _, [].

(** The synchronous prefix of a program: what runs before its first call to
    a collaborator. *)
Fixpoint advance {A : Type} (p : prog A) (h : heap) : heap * prog A :=
  match p with
  | Get k => advance (k h) h
  | Put h' k => advance k h'
  | _ => (h, p)
  end.

(** ** The Helix client (twitch.js) *)

Definition refreshAccessToken (cid secret rt : option string)
    : prog tokenResponse :=
  call_ (PostToken cid secret rt).

(** The body of the page loop: [users.add(login)] for each row with a
    non-empty login. *)
Definition add_logins (users : list string) (data : list (option string))
    : list string :=
  foldl (λ users row,
           let login := trim (toLowerCase (or_empty row)) in
           if negb (String.eqb login "") then JSSet.add users login
           else users) users data.

(** [for (let i = 0; i < 20; i++)] with [n = 20 - i] rounds to go. *)
Fixpoint fetchChatters_loop (n : nat) (cid tok bid mid : option string)
    (users : list string) (after : option string) : prog (list string) :=
  match n with
  | O => Ret users
  | S n' =>
      res ← call_ (GetChatters cid tok bid mid 1000 (or_null after));
      let users' := add_logins users (default [] (chatters_data res)) in
      let after' := pagination_cursor res in
      if truthy_str after'
      then fetchChatters_loop n' cid tok bid mid users' after'
      else Ret users'
  end.

Definition fetchChatters (cid tok bid mid : option string)
    : prog (list string) :=
  fetchChatters_loop 20 cid tok bid mid [] None.

(** [for (let i = 0; i < logins.length; i += 100)
      chunks.push(logins.slice(i, i + 100))] *)
Fixpoint chunks_from (fuel i : nat) (logins : list string)
    : list (list string) :=
  match fuel with
  | O => []
  | S fuel' =>
      if (i <? length logins)%nat
      then take 100 (drop i logins) :: chunks_from fuel' (i + 100) logins
      else []
  end.

Fixpoint fetch_chunks (cid tok : option string) (chunks : list (list string))
    (out : list helixUser) : prog (list helixUser) :=
  match chunks with
  | [] => Ret out
  | chunk :: rest =>
      res ← call_ (GetUsers cid tok chunk);
      fetch_chunks cid tok rest (out ++ default [] res)
  end.

Definition fetchUsersByLogins (cid tok : option string) (logins : list string)
    : prog (list helixUser) :=
  if (length logins =? 0)%nat then Ret []
  else fetch_chunks cid tok (chunks_from (length logins) 0 logins) [].

Definition fetchFollowerCount (cid tok bid : option string)
    : prog (option Z) :=
  call_ (GetFollowers cid tok bid 1).

(** ** The enrichment queue (enrich.js) *)

Definition enqueue (usernames : list jsval) : prog unit :=
  modify (λ h, set_queue (enqueue_into (queue h) usernames) h).

Definition profile_of (u : helixUser) (followerCount : option Z) (now : Z)
    : Store.profile :=
  Store.Profile (toLowerCase (or_empty (hu_login u))) (or_null (hu_id u))
    (or_null (hu_display_name u)) (or_null (hu_broadcaster_type u))
    followerCount (or_null (hu_profile_image_url u)) now.

(** The body of [for (const u of users)]. *)
Definition enrich_user (u : helixUser) : prog unit :=
  followerCount ←
    try_catch
      (h ← gets id;
       fetchFollowerCount (clientId (cfg h)) (enrichToken h) (hu_id u))
      (λ _, Ret None);
  now ← call_ DateNow;
  call_ (StoreSaveUserProfile (profile_of u followerCount now)).

Definition drain : prog unit :=
  h ← gets id;
  if running h || (length (queue h) =? 0)%nat then Ret tt
  else
    modify (set_running true);;
    try_finally
      (batch ← gets (λ h, take 50 (queue h));
       modify (λ h, set_queue (foldl JSSet.delete (queue h) batch) h);;
       h ← gets id;
       users ← fetchUsersByLogins (clientId (cfg h)) (enrichToken h) batch;
       for_each users enrich_user)
      (modify (set_running false)).

(** ** Token refresh and the reconciliation tick (index.js) *)

(** What [persistAuth] hands to [authStore.save]: it fills a plain object
    with [out[sid] = ...], and for the key [__proto__] that assignment
    sets the prototype of [out] and adds no property, so that a tenant of
    that key is not written. *)
Definition persisted (ss : gmap string auth) : gmap string savedAuth :=
  credentials <$> delete "__proto__" ss.

Definition persistAuth : prog unit :=
  h ← gets id;
  call_ (AuthStoreSave (persisted (sessions h))).

(** Lines 120 to 123 of index.js, [now] being the reading of the clock. *)
Definition apply_refresh (refreshed : tokenResponse) (now : Z) (a : auth)
    : auth :=
  Auth (access_token refreshed)
    (if truthy_str (refresh_token refreshed) then refresh_token refreshed
     else refreshToken a)
    (Some (now + default 0 (expires_in refreshed) * 1000)%Z)
    (moderatorId a) (meLogin a)
    (match scope refreshed with Some s => s | None => tokenScopes a end)
    (broadcasterId a) (broadcasterLogin a) (current a) (lastPollAt a)
    (lastError a).

Definition refresh_now (sid : string) : prog unit :=
  h ← gets id;
  refreshed ← refreshAccessToken (clientId (cfg h)) (clientSecret (cfg h))
                (refreshToken (tenant h sid));
  now ← call_ DateNow;
  modify (λ h, set_tenant sid (apply_refresh refreshed now (tenant h sid)) h);;
  persistAuth.

Definition ensureFreshToken (sid : string) : prog unit :=
  a ← gets (λ h, tenant h sid);
  if negb (truthy_str (refreshToken a)) || negb (truthy_num (tokenExpiresAt a))
  then Ret tt
  else
    now ← call_ DateNow;
    if (now <? default 0 (tokenExpiresAt a) - 60000)%Z then Ret tt
    else refresh_now sid.

(** [err?.response?.data || err?.message || String(err)] *)
Definition error_text (err : jserror) : string :=
  if truthy_str (err_data err) then or_empty (err_data err)
  else if truthy_str (err_message err) then or_empty (err_message err)
  else err_string err.

(** Lines 148 to 160 of index.js: the diff against the presence set, the
    writes, the enqueueing and the new presence set. *)
Definition reconcile (sid : string) (ts : Z) (next : list string) : prog unit :=
  a ← gets (λ h, tenant h sid);
  let joined := filter (λ u, JSSet.has u (current a) = false) next in
  let left := filter (λ u, JSSet.has u next = false) (current a) in
  for_each joined (λ u, call_ (StoreEventJoin u ts (broadcasterLogin a)));;
  for_each left (λ u, call_ (StoreEventLeave u ts (broadcasterLogin a)));;
  (if negb (length joined =? 0)%nat || negb (length left =? 0)%nat
   then modify (set_enrichToken (token a));; enqueue (JStr <$> joined)
   else Ret tt);;
  modify (λ h, set_tenant sid
                 (set_lastError None (set_current next (tenant h sid))) h).

(** The [try] block of [tickOne]. *)
Definition tickTry (sid : string) (ts : Z) : prog unit :=
  ensureFreshToken sid;;
  h ← gets id;
  let a := tenant h sid in
  next ← fetchChatters (clientId (cfg h)) (token a) (broadcasterId a)
           (moderatorId a);
  reconcile sid ts next.

(** The [catch] block of [tickOne]. *)
Definition tickCatch (sid : string) (err : jserror) : prog unit :=
  a ← gets (λ h, tenant h sid);
  if bool_decide (err_status err = Some 401%Z) && truthy_str (refreshToken a)
  then
    try_catch (refresh_now sid)
      (λ e2, modify (λ h, set_tenant sid
                            (set_lastError (Some (error_text e2))
                               (tenant h sid)) h))
  else
    modify (λ h, set_tenant sid
                   (set_lastError (Some (error_text err)) (tenant h sid)) h).

Definition tickOne (sid : string) : prog unit :=
  h ← gets id;
  let a := tenant h sid in
  if negb (truthy_str (clientId (cfg h))) || negb (truthy_str (token a))
     || negb (truthy_str (broadcasterId a))
     || negb (truthy_str (moderatorId a))
     || negb (truthy_str (broadcasterLogin a))
  then Ret tt
  else
    ts ← call_ DateNow;
    modify (λ h, set_tenant sid (set_lastPollAt (Some ts) (tenant h sid)) h);;
    try_catch (tickTry sid ts) (tickCatch sid).

(** Programs are unfolded by name, not by [simpl]. *)
Arguments refresh_now : simpl never.
Arguments ensureFreshToken : simpl never.
Arguments fetchChatters : simpl never.
Arguments fetchUsersByLogins : simpl never.
Arguments enrich_user : simpl never.
Arguments drain : simpl never.
Arguments reconcile : simpl never.
Arguments tickTry : simpl never.
Arguments tickCatch : simpl never.
Arguments tickOne : simpl never.
Arguments tenant : simpl never.
Arguments set_tenant : simpl never.

(** ** The read paths of the store and its history of writes (store.js) *)

Module Query.

(** [LIMIT ? OFFSET ?]: a negative offset counts as 0, a negative limit as
    no limit. *)
Definition limit_offset {A : Type} (limit offset : Z) (rows : list A)
    : list A :=
  let rest := drop (Z.to_nat offset) rows in
  if (limit <? 0)%Z then rest else take (Z.to_nat limit) rest.

(** [ORDER BY ts DESC] and [ORDER BY joined_at DESC]. Among rows that tie SQL
    leaves the order open; the model takes the one of a merge sort. *)
Definition later_event (a b : Store.event) : Prop :=
  (Store.ev_ts b ≤ Store.ev_ts a)%Z.

Definition later_session (a b : Store.session) : Prop :=
  (Store.ss_joined_at b ≤ Store.ss_joined_at a)%Z.

#[global] Instance later_event_dec a b : Decision (later_event a b) :=
  Z_le_dec _ _.

#[global] Instance later_session_dec a b : Decision (later_session a b) :=
  Z_le_dec _ _.


Definition sessions_of (ch : option string) (st : Store.t)
    : list Store.session :=
  filter (λ r, Store.sql_eq (Store.ss_channel_login r) ch = true)
    (Store.sessions st).




(** [WHERE s.username = u.username AND s.channel_login = ?] *)
Definition visits (u : string) (ch : option string) (st : Store.t)
    : list Store.session :=
  filter (λ r, Store.ss_username r = u) (sessions_of ch st).

(** The [CASE] of the watch time of one session: its recorded duration, or
    for an open session the whole seconds since it was joined, never less
    than 0, or 0 for a session closed without a duration. The division is a
    division of reals and the cast truncates. *)
Definition watch_sec (nowMs : Z) (r : Store.session) : Z :=
  match Store.ss_duration_sec r, Store.ss_left_at r with
  | Some d, _ => d
  | None, None => Z.max 0 ((nowMs - Store.ss_joined_at r) ÷ 1000)
  | None, Some _ => 0
  end.

(** [COALESCE((SELECT SUM(...)), 0) AS total_watch_sec] *)
Definition total_watch_sec (nowMs : Z) (u : string) (ch : option string)
    (st : Store.t) : Z :=
  foldr (λ r acc, (watch_sec nowMs r + acc)%Z) 0%Z (visits u ch st).

(** A row of [getUsersByFollowers.all]: the profile and the three computed
    columns. *)
Record visitor := Visitor {
  v_profile : Store.profile;
  v_total_watch_sec : Z;
  v_visit_count : nat;
  v_last_seen : option Z
}.

Definition visitor_of (nowMs : Z) (ch : option string) (st : Store.t)
    (p : Store.profile) : visitor :=
  Visitor p (total_watch_sec nowMs (Store.username p) ch st)
    (length (visits (Store.username p) ch st))
    (Store.max_joined (visits (Store.username p) ch st)).

(** [ORDER BY COALESCE(u.follower_count, 0) DESC, total_watch_sec DESC] *)
Definition more_popular (a b : visitor) : Prop :=
  let fa := default 0%Z (Store.follower_count (v_profile a)) in
  let fb := default 0%Z (Store.follower_count (v_profile b)) in
  (fb < fa)%Z ∨ (fa = fb ∧ (v_total_watch_sec b ≤ v_total_watch_sec a)%Z).

#[global] Instance more_popular_dec a b : Decision (more_popular a b).
Proof. unfold more_popular. cbv zeta. apply _. Defined.

(** [getPopularVisitors]: the users with a session in the channel, the most
    followed first. *)
Definition getPopularVisitors (nowMs : Z) (ch : option string)
    (limit offset : Z) (st : Store.t) : list visitor :=
  limit_offset limit offset
    (merge_sort more_popular
       (visitor_of nowMs ch st
          <$> filter (λ p, visits (Store.username p) ch st ≠ [])
                (map_to_list (Store.users st)).*2)).

(** [SELECT COUNT(DISTINCT username) as c FROM sessions WHERE
    channel_login = ?] *)
Definition countVisitors (ch : option string) (st : Store.t) : nat :=
  length (remove_dups (Store.ss_username <$> sessions_of ch st)).

End Query.

(** The writes the store offers, and [WCut]: a call to [eventJoin] or to
    [eventLeave] that threw after its first statement, so that the event is
    recorded and nothing else is done. *)
Inductive write :=
| WJoin (u : string) (ts : Z) (ch : option string)
| WLeave (u : string) (ts : Z) (ch : option string)
| WSave (p : Store.profile)
| WCut (u : string) (ty : Store.event_type) (ts : Z) (ch : option string).

Definition apply_write (st : Store.t) (w : write) : Store.t :=
  match w with
  | WJoin u ts ch => Store.eventJoin u ts ch st
  | WLeave u ts ch => Store.eventLeave u ts ch st
  | WSave p => Store.saveUserProfile p st
  | WCut u ty ts ch => Store.insertEvent u ty ts ch st
  end.

(** A store after a history of writes. *)
Definition apply_writes (st : Store.t) (ws : list write) : Store.t :=
  foldl apply_write st ws.

(** A session row is in keeping: open with no duration, or closed with the
    whole seconds between its two timestamps, never less than 0. *)
Definition in_keeping (r : Store.session) : Prop :=
  (Store.ss_left_at r = None ∧ Store.ss_duration_sec r = None)
  ∨ ∃ l, Store.ss_left_at r = Some l
         ∧ Store.ss_duration_sec r
           = Some (Z.max 0 ((l - Store.ss_joined_at r) / 1000)).

(** A session row of [u] in the channel [ch], and such a row closed. *)
Definition row_of (u : string) (ch : option string) (r : Store.session)
    : bool :=
  bool_decide (Store.ss_username r = u)
  && bool_decide (Store.ss_channel_login r = ch).

Definition closed_row_of (u : string) (ch : option string)
    (r : Store.session) : bool :=
  row_of u ch r && bool_decide (Store.ss_left_at r ≠ None).

(** A join event, or a leave event, of [u] in the channel [ch]. *)
Definition join_of (u : string) (ch : option string) (ev : Store.event)
    : bool :=
  match Store.ev_type ev with
  | Store.join => bool_decide (Store.ev_username ev = u)
                  && bool_decide (Store.ev_channel_login ev = ch)
  | Store.leave => false
  end.

Definition leave_of (u : string) (ch : option string) (ev : Store.event)
    : bool :=
  match Store.ev_type ev with
  | Store.leave => bool_decide (Store.ev_username ev = u)
                   && bool_decide (Store.ev_channel_login ev = ch)
  | Store.join => false
  end.

Definition count {A : Type} (P : A → bool) (l : list A) : nat :=
  length (filter (λ x, P x = true) l).

(** A call to [eventJoin] for [u] in the channel [ch] that was cut. *)
Definition cut_join_of (u : string) (ch : option string) (w : write) : bool :=
  match w with
  | WCut v Store.join _ c => bool_decide (v = u) && bool_decide (c = ch)
  | _ => false
  end.

(** The users table holds a profile under its own user name, as a table
    with [username TEXT PRIMARY KEY] does. *)
Definition keyed (st : Store.t) : Prop :=
  ∀ k p, Store.users st !! k = Some p → Store.username p = k.

(** ** Scripted worlds *)

(** What the world does at one call of a run. *)
Inductive happening :=
| Time (z : Z)
| TokenReply (r : outcome tokenResponse)
| ChattersReply (r : outcome chattersBody)
| UsersReply (r : outcome (option (list helixUser)))
| FollowersReply (r : outcome (option Z))
| IoDone
| IoFails (x : jserror)
| IoFailsAfter (stage : nat) (x : jserror).

Definition network_down : jserror :=
  JsError None None (Some "network down") "Error: network down".

(** The world that follows a script, call by call; off the script the clock
    reads [0], the provider is unreachable and disk I/O works. *)
Definition scripted (l : list happening) : oracle :=
  Oracle
    (λ n, match l !! n with Some (Time z) => z | _ => 0%Z end)
    (λ n, match l !! n with Some (TokenReply r) => r | _ => Err network_down end)
    (λ n, match l !! n with Some (ChattersReply r) => r | _ => Err network_down end)
    (λ n, match l !! n with Some (UsersReply r) => r | _ => Err network_down end)
    (λ n, match l !! n with Some (FollowersReply r) => r | _ => Err network_down end)
    (λ n, match l !! n with
          | Some (IoFails x) | Some (IoFailsAfter _ x) => Some x
          | _ => None
          end)
    (λ n, match l !! n with Some (IoFailsAfter k _) => k | _ => 0%nat end).

(** One page of chatters, without a cursor. *)
Definition page (logins : list string) : happening :=
  ChattersReply (Ok (ChattersBody (Some (Some <$> logins)) None)).

(** A tenant that authorised with a static token and watches [ch]. *)
Definition watching (ch : string) (cur : list string) : auth :=
  Auth (Some "tok") None None (Some "mod1") (Some "mod") [] (Some "b1")
    (Some ch) cur None None.

Definition heap0 (ss : gmap string auth) : heap :=
  Heap (StaticCfg (Some "cid") (Some "secret")) ss None [] false.

Definition env0 : env := Env Store.empty None [].

(** ** Reading the log of calls *)

(** The calls made between two states of the world. *)
Definition segment (e e' : env) : list entry :=
  drop (length (log e)) (log e').

Definition failed (en : entry) : bool :=
  match en_result en with
  | Ok _ => false
  | Err _ => true
  end.

(** The body a call to [GET /chat/chatters] returned. *)
Definition entry_page (en : entry) : option chattersBody :=
  match en with
  | Entry c r =>
      match c return outcome (reply c) → option chattersBody with
      | GetChatters _ _ _ _ _ _ =>
          λ r, match r with Ok b => Some b | Err _ => None end
      | _ => λ _, None
      end r
  end.

(** The rows of the pages of chatters returned during a run. *)
Definition pages_of (seg : list entry) : list (list (option string)) :=
  omap (λ en, (λ b, default [] (chatters_data b)) <$> entry_page en) seg.

(** The presence snapshot the provider reported during a run: the logins on
    the pages it returned, lowercased, trimmed, the empty ones dropped. *)
Definition snapshot_of (seg : list entry) : list string :=
  foldl add_logins [] (pages_of seg).

(** The cursor a call to [GET /chat/chatters] returned, if any. *)
Definition entry_cursor (en : entry) : option string :=
  or_null (entry_page en ≫= pagination_cursor).

(** The logins a call to [GET /users] asked for. *)
Definition entry_logins (en : entry) : list string :=
  match en_call en with
  | GetUsers _ _ logins => logins
  | _ => []
  end.

(** How many times a run looked the profile of [u] up. *)
Definition lookups_for (u : string) (seg : list entry) : nat :=
  sum_list_with (λ en, length (filter (λ x, x = u) (entry_logins en))) seg.

(** The profile a successful call to [saveUserProfile] wrote. *)
Definition entry_saved (en : entry) : option Store.profile :=
  match en with
  | Entry c r =>
      match c return outcome (reply c) → option Store.profile with
      | StoreSaveUserProfile p =>
          λ r, match r with Ok _ => Some p | Err _ => None end
      | _ => λ _, None
      end r
  end.

Definition saved (seg : list entry) : list Store.profile :=
  omap entry_saved seg.

(** What other tasks enqueued during a run whose first call is the [n]-th:
    one array per awaited call. *)
Fixpoint arrivals (arr : nat → list jsval) (n : nat) (seg : list entry)
    : list (list jsval) :=
  match seg with
  | [] => []
  | en :: rest =>
      (if awaited (en_call en) then [arr n] else [])
      ++ arrivals arr (S n) rest
  end.

(** The requests of a page loop follow the cursor: each passes the cursor
    the page before it returned, the first one passes [after]. *)
Fixpoint follows_cursor (cid tok bid mid after : option string)
    (seg : list entry) : Prop :=
  match seg with
  | [] => True
  | en :: rest =>
      en_call en = GetChatters cid tok bid mid 1000 after
      ∧ follows_cursor cid tok bid mid (entry_cursor en) rest
  end.

(** A token exchange. *)
Definition is_exchange (en : entry) : bool :=
  match en_call en with
  | PostToken _ _ _ => true
  | _ => false
  end.

(** The number of token exchanges in a run. *)
Definition exchanges (seg : list entry) : nat :=
  length (filter (λ en, is_exchange en = true) seg).

(** What a token refresh leaves alone in a tenant: all but the token, the
    refresh token, the expiry and the scopes. *)
Definition keeps_presence (a a' : auth) : Prop :=
  current a' = current a ∧ lastError a' = lastError a
  ∧ lastPollAt a' = lastPollAt a ∧ broadcasterLogin a' = broadcasterLogin a
  ∧ broadcasterId a' = broadcasterId a ∧ moderatorId a' = moderatorId a
  ∧ meLogin a' = meLogin a.

(** The memory outside the tenant map. *)
Definition same_enricher (h h' : heap) : Prop :=
  cfg h' = cfg h ∧ queue h' = queue h ∧ running h' = running h
  ∧ enrichToken h' = enrichToken h.

(** The tick's precondition to act. *)
Definition ready (h : heap) (sid : string) : bool :=
  truthy_str (clientId (cfg h)) && truthy_str (token (tenant h sid))
  && truthy_str (broadcasterId (tenant h sid))
  && truthy_str (moderatorId (tenant h sid))
  && truthy_str (broadcasterLogin (tenant h sid)).

(** The task scheduled every 4 seconds:
    [enricher.tick().catch((e) => console.error(...))]. *)
Definition enricher_tick : prog unit := try_catch drain (λ _, Ret tt).

(** [n] such tasks, one after the other. *)
Definition enricher_ticks (n : nat) : prog unit :=
  for_each (replicate n tt) (λ _, enricher_tick).

(** ** Boot and logout (index.js) *)

(** [x || null] on a nullable number. *)
Definition or_null_num (x : option Z) : option Z :=
  if truthy_num x then x else None.

(** The tenant [bootAuthFromDisk] makes of a saved entry: its credentials,
    each [|| null], and the presence set rebuilt from the store for
    [broadcasterLogin || '__none__']. *)
Definition restore (st : Store.t) (a : savedAuth) : auth :=
  let login := or_null (sv_broadcasterLogin a) in
  Auth (or_null (sv_token a)) (or_null (sv_refreshToken a))
    (or_null_num (sv_tokenExpiresAt a)) (or_null (sv_moderatorId a))
    (or_null (sv_meLogin a)) (sv_tokenScopes a)
    (or_null (sv_broadcasterId a)) login
    (Store.getOpenSet (Some (default "__none__" login)) st) None None.

(** [bootAuthFromDisk]: [saved] is what [authStore.load()] returns, [None]
    for a file that is missing or cannot be read; the result is the tenant
    map. *)
Definition bootAuthFromDisk (saved : option (gmap string savedAuth))
    (st : Store.t) : gmap string auth :=
  restore st <$> default ∅ saved.

(** The memory of a process started on the credential file and the store
    of [e], with the client configuration [c]. *)
Definition booted (c : staticCfg) (e : env) : heap :=
  Heap c (bootAuthFromDisk (authFile e) (store e)) None [] false.

(** The handler of [POST /auth/logout], for the tenant of the request. *)
Definition logout (sid : string) : prog unit :=
  modify (set_tenant sid newSessionAuth);;
  persistAuth.

(** ** The footprint of a run *)

(** The write to the store that a call made, if it was one: the call's
    own if it went through, the cut one if it failed having got to stage
    [stage]. *)
Definition entry_write (stage : nat) (en : entry) : option write :=
  match en with
  | Entry c r =>
      match r with
      | Ok _ =>
          match c with
          | StoreEventJoin u ts ch => Some (WJoin u ts ch)
          | StoreEventLeave u ts ch => Some (WLeave u ts ch)
          | StoreSaveUserProfile p => Some (WSave p)
          | _ => None
          end
      | Err _ =>
          match c with
          | StoreEventJoin u ts ch =>
              match stage with
              | O => None
              | S _ => Some (WCut u Store.join ts ch)
              end
          | StoreEventLeave u ts ch =>
              match stage with
              | O => None
              | S _ => Some (WCut u Store.leave ts ch)
              end
          | _ => None
          end
      end
  end.

(** The writes of a stretch of the log whose first call is the [n]-th. *)
Fixpoint writes_of (o : oracle) (n : nat) (seg : list entry) : list write :=
  match seg with
  | [] => []
  | en :: rest =>
      option_list (entry_write (io_stage o n) en) ++ writes_of o (S n) rest
  end.

(** The credential file after a call, [f] being the file before it. *)
Definition entry_file (stage : nat) (en : entry)
    (f : option (gmap string savedAuth)) : option (gmap string savedAuth) :=
  match en with
  | Entry c r =>
      match c with
      | AuthStoreSave out =>
          match r with
          | Ok _ => Some out
          | Err _ => match stage with
                     | O => f
                     | S O => None
                     | S (S _) => Some out
                     end
          end
      | _ => f
      end
  end.

Fixpoint file_after (o : oracle) (n : nat)
    (f : option (gmap string savedAuth)) (seg : list entry)
    : option (gmap string savedAuth) :=
  match seg with
  | [] => f
  | en :: rest => file_after o (S n) (entry_file (io_stage o n) en f) rest
  end.

(** The users a call to [GET /users] returned: [res.data?.data || []]. *)
Definition entry_users (en : entry) : list helixUser :=
  match en with
  | Entry c r =>
      match c return outcome (reply c) → list helixUser with
      | GetUsers _ _ _ =>
          λ r, match r with Ok users => default [] users | Err _ => [] end
      | _ => λ _, []
      end r
  end.

(** [within C R p]: whatever the world does, and whatever other tasks
    enqueue meanwhile, a run of [p] makes only calls that satisfy [C] and
    takes the memory to one that [R] relates to the memory it started in. *)
Definition within {A : Type} (C : call → Prop) (R : heap → heap → Prop)
    (p : prog A) : Prop :=
  ∀ arr o h e, ∃ seg,
    let '(r, h', e') := run arr o p h e in
    log e' = log e ++ seg
    ∧ Forall (λ en, C (en_call en)) seg
    ∧ R h h'.

(** [unfailing p]: no run of [p] throws. *)
Definition unfailing {A : Type} (p : prog A) : Prop :=
  ∀ arr o h e, ∃ a, (run arr o p h e).1.1 = Ok a.

(** The calls of a tick: the clock, the token endpoint, pages of 1000
    chatters, joins and leaves, and the credential file. *)
Definition tick_call (c : call) : Prop :=
  match c with
  | DateNow | PostToken _ _ _ | StoreEventJoin _ _ _ | StoreEventLeave _ _ _
  | AuthStoreSave _ => True
  | GetChatters _ _ _ _ first _ => first = 1000%Z
  | GetUsers _ _ _ | GetFollowers _ _ _ _ | StoreSaveUserProfile _ => False
  end.

(** Who a tenant is and what it watches. *)
Definition same_identity (a a' : auth) : Prop :=
  moderatorId a' = moderatorId a ∧ meLogin a' = meLogin a
  ∧ broadcasterId a' = broadcasterId a
  ∧ broadcasterLogin a' = broadcasterLogin a.

(** What a tick of the tenant [sid] leaves of the memory. *)
Definition tick_frame (sid : string) (h h' : heap) : Prop :=
  cfg h' = cfg h ∧ running h' = running h
  ∧ (∀ x, x ∈ queue h → x ∈ queue h')
  ∧ (∀ sid', sid' ≠ sid → sessions h' !! sid' = sessions h !! sid')
  ∧ same_identity (tenant h sid) (tenant h' sid).

(** What the [try] and [catch] blocks of a tick leave of it: that, and the
    time of the poll. *)
Definition try_frame (sid : string) (h h' : heap) : Prop :=
  tick_frame sid h h'
  ∧ lastPollAt (tenant h' sid) = lastPollAt (tenant h sid).

(** The calls of a drain: batches of 1 to 50 logins, the follower count
    with [first: 1], the clock, and profiles saved under a lowercase name. *)
Definition drain_call (c : call) : Prop :=
  match c with
  | DateNow => True
  | GetUsers _ _ logins => (0 < length logins ≤ 50)%nat
  | GetFollowers _ _ _ first => first = 1%Z
  | StoreSaveUserProfile p =>
      toLowerCase (Store.username p) = Store.username p
  | _ => False
  end.

(** What a drain leaves of the memory. *)
Definition drain_frame (h h' : heap) : Prop :=
  cfg h' = cfg h ∧ sessions h' = sessions h ∧ enrichToken h' = enrichToken h.

(** [tickAll]: the tenants of the map are ticked one after the other, each
    awaited. [sids] are the keys of the map in the order of their
    insertion, which is the order [sessions.values()] yields. *)
Definition tickAll (sids : list string) : prog unit := for_each sids tickOne.

(** What [tickAll] leaves of the memory. *)
Definition tickAll_frame (sids : list string) (h h' : heap) : Prop :=
  cfg h' = cfg h ∧ running h' = running h
  ∧ (∀ x, x ∈ queue h → x ∈ queue h')
  ∧ (∀ sid, sid ∉ sids → sessions h' !! sid = sessions h !! sid)
  ∧ (∀ sid, same_identity (tenant h sid) (tenant h' sid)).

(** [keeps I C p]: started in a memory where [I] holds, a run of [p] makes
    only calls that satisfy [C], whatever the world does and whatever other
    tasks enqueue meanwhile, and it ends in a memory where [I] holds. *)
Definition keeps {A : Type} (I : heap → Prop) (C : call → Prop)
    (p : prog A) : Prop :=
  ∀ arr o h e, I h → ∃ seg,
    let '(r, h', e') := run arr o p h e in
    log e' = log e ++ seg
    ∧ Forall (λ en, C (en_call en)) seg
    ∧ I h'.

(** The tenant [sid] does not watch the channel [ch]. *)
Definition elsewhere (sid ch : string) (h : heap) : Prop :=
  broadcasterLogin (tenant h sid) ≠ Some ch.

(** A call, and a write, that are not a join or a leave in the channel
    [ch]. *)
Definition apart_call (ch : string) (c : call) : Prop :=
  match c with
  | StoreEventJoin _ _ c' | StoreEventLeave _ _ c' => c' ≠ Some ch
  | _ => True
  end.

Definition apart_write (ch : string) (w : write) : Prop :=
  match w with
  | WJoin _ _ c' | WLeave _ _ c' => c' ≠ Some ch
  | WSave _ | WCut _ _ _ _ => True
  end.

(** The snapshots applied, oldest first, by the ticks of the tenant [sid]
    that acted ([ready]) and saw none of their calls fail, among the other
    scheduled tasks: the ticks of other tenants, none of which watches the
    channel [ch], and the drains, whatever comes of either and whatever is
    enqueued meanwhile. *)
Inductive ticks_applied (o : oracle) (sid ch : string)
    : heap * env → list (list string) → heap * env → Prop :=
| ticks_none s : ticks_applied o sid ch s [] s
| ticks_more s Ss h1 e1 r h2 e2 :
    ticks_applied o sid ch s Ss (h1, e1) →
    ready h1 sid = true →
    run quiet o (tickOne sid) h1 e1 = (r, h2, e2) →
    (∀ en, en ∈ segment e1 e2 → failed en = false) →
    ticks_applied o sid ch s (Ss ++ [snapshot_of (segment e1 e2)]) (h2, e2)
| ticks_other s Ss h1 e1 arr sid' r h2 e2 :
    ticks_applied o sid ch s Ss (h1, e1) →
    sid' ≠ sid →
    elsewhere sid' ch h1 →
    run arr o (tickOne sid') h1 e1 = (r, h2, e2) →
    ticks_applied o sid ch s Ss (h2, e2)
| ticks_drain s Ss h1 e1 arr r h2 e2 :
    ticks_applied o sid ch s Ss (h1, e1) →
    run arr o enricher_tick h1 e1 = (r, h2, e2) →
    ticks_applied o sid ch s Ss (h2, e2).

(** ** Worked inputs *)

(** The state after one tick of the tenant [sid]. *)
Definition after (o : oracle) (sid : string) (s : heap * env) : heap * env :=
  let '(_, h', e') := run quiet o (tickOne sid) s.1 s.2 in (h', e').

(** The state after one round of [tickAll] over the tenants [sids]. *)
Definition after_round (o : oracle) (sids : list string) (s : heap * env)
    : heap * env :=
  let '(_, h', e') := run quiet o (tickAll sids) s.1 s.2 in (h', e').

(** The state after one scheduled drain. *)
Definition after_drain (o : oracle) (s : heap * env) : heap * env :=
  let '(_, h', e') := run quiet o enricher_tick s.1 s.2 in (h', e').

(** A store with two open sessions of alice, the later one joined at 5000,
    and a store whose only session of alice is closed. *)
Definition two_open : Store.t :=
  Store.Make []
    [Store.Session "alice" 1000 None None (Some "chan");
     Store.Session "alice" 5000 None None (Some "chan")] ∅.

Definition none_open : Store.t :=
  Store.Make []
    [Store.Session "alice" 1000 (Some 2000%Z) (Some 1%Z) (Some "chan");
     Store.Session "bob" 1000 None None (Some "chan")] ∅.

(** A tenant whose token has expired and whose scopes are known. *)
Definition expired : auth :=
  Auth (Some "t0") (Some "r0") (Some 5000%Z) (Some "mod1") (Some "mod")
    ["moderator:read:chatters"] (Some "b1") (Some "chan") [] None None.

(** The token endpoint returns a new access token and a lifetime, and
    neither a refresh token nor scopes. *)
Definition bare_reply : tokenResponse :=
  TokenResponse (Some "t1") None None (Some 3600%Z).

Definition refresh_world : oracle :=
  scripted [Time 10000; TokenReply (Ok bare_reply); Time 10001; IoDone].

(** A tenant with a static token that can be refreshed on a 401. *)
Definition refreshable : auth :=
  Auth (Some "t0") (Some "r0") None (Some "mod1") (Some "mod") []
    (Some "b1") (Some "chan") ["alice"] None None.

Definition unauthorized : jserror :=
  JsError (Some 401%Z) (Some "invalid token") (Some "Request failed")
    "Error: Request failed".

Definition read_only_disk : jserror :=
  JsError None None (Some "EROFS: read-only file system")
    "Error: EROFS: read-only file system".

(** The chatters request is refused with a 401, the exchange that follows
    succeeds, and the credential file cannot be written. *)
Definition unwritable_world : oracle :=
  scripted [Time 1000; ChattersReply (Err unauthorized);
            TokenReply (Ok bare_reply); Time 1001; IoFails read_only_disk].

(** Two tenants watch the same channel: carol joins and the first tenant
    opens her session; the second tenant then authorises, its presence set
    rebuilt from the store; carol leaves and the first tenant closes her
    session. *)
Definition shared_world : oracle :=
  scripted [Time 1000; page ["carol"]; IoDone;
            Time 2000; page []; IoDone;
            Time 3000; page []; IoDone].

Definition shared_channel : heap * env :=
  let s1 := after shared_world "s1"
              (heap0 {[ "s1" := watching "chan" [] ]}, env0) in
  let h1 := set_tenant "s2"
              (watching "chan" (Store.getOpenSet (Some "chan") (store s1.2)))
              s1.1 in
  after shared_world "s1" (h1, s1.2).

(** Two tenants watch the same channel and both see carol. *)
Definition one_channel : heap :=
  heap0 {[ "s1" := watching "chan" []; "s2" := watching "chan" [] ]}.

Definition carol_world : oracle :=
  scripted [Time 1000; page ["carol"]; IoDone;
            Time 2000; page ["carol"]; IoDone].

(** A tenant alone, watching a channel. *)
Definition lone_tenant : heap * env :=
  (heap0 {[ "s" := watching "chan" [] ]}, env0).

(** Two tenants watch a channel each. In a first round alice and bob arrive
    in the first channel and alice is seen in the second, where the write
    of her join is cut after the event; a drain finds the provider
    unreachable; in a second round bob leaves the first channel and the
    provider does not answer for the second. *)
Definition neighbours : heap * env :=
  (heap0 {[ "s" := watching "chan" []; "t" := watching "other" [] ]}, env0).

Definition neighbours_world : oracle :=
  scripted [Time 1000; page ["Alice"; " bob "]; IoDone; IoDone;
            Time 2000; page ["alice"]; IoFailsAfter 1 read_only_disk;
            UsersReply (Err network_down);
            Time 3000; page ["alice"]; IoDone].

(** Three profiles are resolved; the follower lookup of the second throws. *)
Definition three_users : list helixUser :=
  [HelixUser (Some "1") (Some "Ann") (Some "Ann") (Some "partner") None;
   HelixUser (Some "2") (Some "ben") (Some "Ben") None None;
   HelixUser (Some "3") (Some "cy") (Some "Cy") (Some "") None].

Definition enrich_world : oracle :=
  Oracle (λ n, Z.of_nat n)
    (λ _, Err network_down) (λ _, Err network_down)
    (λ _, Ok (Some three_users))
    (λ n, if (n =? 4)%nat then Err network_down else Ok (Some (Z.of_nat n)))
    (λ _, None) (λ _, 0%nat).

Definition pending (q : list string) (busy : bool) : heap :=
  Heap (StaticCfg (Some "cid") (Some "secret")) ∅ (Some "tok") q busy.

(** While the batched lookup is awaited another task enqueues a name. *)
Definition late_arrival : nat → list jsval :=
  λ n, if (n =? 0)%nat then [JStr "Zed"] else [].

(** The numbers 1 to 51 handed to [enqueue]. *)
Definition fifty_one : list jsval := JNum <$> seqZ 1 51.

(** Bob is present, then alice is and bob is not. *)
Definition swap_world : oracle :=
  scripted [Time 1000; page ["bob"]; IoDone;
            Time 2000; page ["alice"]; IoDone; IoDone].

(** Two tenants watch a channel each; the provider is unreachable when the
    first is ticked and answers when the second is. *)
Definition two_tenants : heap :=
  heap0 {[ "s1" := watching "chan1" []; "s2" := watching "chan2" [] ]}.

Definition outage_world : oracle :=
  scripted [Time 1000; ChattersReply (Err network_down);
            Time 2000; page ["dora"]; IoDone].

(** Closes goals of propositional shape from the hypotheses. *)
Ltac solve_logic :=
  solve [intuition (subst; eauto; try congruence; try done)].

(** * Properties *)

(** ** The store *)

Module StoreFacts.
Import Store.

Lemma max_joined_None (rows : list session) :
  max_joined rows = None ↔ rows = [].
Proof. destruct rows; simpl; split; congruence. Qed.

Lemma max_joined_spec (rows : list session) (m : Z) :
  max_joined rows = Some m →
  (∃ r, r ∈ rows ∧ ss_joined_at r = m)
  ∧ ∀ r, r ∈ rows → (ss_joined_at r ≤ m)%Z.
Proof.
  revert m. induction rows as [|r rows IH]; intros m; simpl; [done|].
  destruct (max_joined rows) as [m'|] eqn:Hm; intros [= <-].
  - destruct (IH m' eq_refl) as [(r' & Hin & Hr') Hle]. split.
    + destruct (Z.max_spec (ss_joined_at r) m') as [[_ ->]|[_ ->]].
      * exists r'. split; [by right | done].
      * exists r. split; [by left | done].
    + intros r0 [->|Hin0]%elem_of_cons; [lia|].
      specialize (Hle r0 Hin0). lia.
  - apply max_joined_None in Hm as ->. split.
    + exists r. split; [by left | done].
    + intros r0 [->|Hin0]%elem_of_cons; [lia | by apply elem_of_nil in Hin0].
Qed.

Lemma update_first_insert (P : session → bool) (f : session → session)
    (rows : list session) (r0 : session) :
  r0 ∈ rows → P r0 = true →
  ∃ i r, rows !! i = Some r ∧ P r = true
         ∧ update_first P f rows = <[i := f r]> rows.
Proof.
  induction rows as [|r rows IH]; intros Hin HP.
  - by apply elem_of_nil in Hin.
  - simpl. destruct (P r) eqn:HPr.
    + by exists 0%nat, r.
    + apply elem_of_cons in Hin as [->|Hin]; [congruence|].
      destruct (IH Hin HP) as (i & r' & Hi & HP' & ->).
      by exists (S i), r'.
Qed.

Lemma selectLatestOpen_insertEvent u ch u' ty ts ch' st :
  selectLatestOpen u ch (insertEvent u' ty ts ch' st) = selectLatestOpen u ch st.
Proof. reflexivity. Qed.

(** Whether a user has an open row decides what the [SELECT] returns. *)
Lemma selectLatestOpen_None u ch st :
  selectLatestOpen u ch st = None ↔ open_count u ch st = 0%nat.
Proof.
  unfold selectLatestOpen, open_count. rewrite max_joined_None.
  split; [by intros -> | apply length_zero_iff_nil].
Qed.

(** What [eventLeave] does when the user has an open row. *)
Lemma eventLeave_open u ts ch st :
  open_count u ch st ≠ 0%nat →
  ∃ i r,
    sessions st !! i = Some r
    ∧ is_open_for u ch r = true
    ∧ (∀ r', r' ∈ sessions st → is_open_for u ch r' = true →
             (ss_joined_at r' ≤ ss_joined_at r)%Z)
    ∧ eventLeave u ts ch st =
        Make (events st ++ [Event u leave ts ch])
          (<[i := close ts (Z.max 0 ((ts - ss_joined_at r) / 1000)) r]>
             (sessions st))
          (users st).
Proof.
  intros Hopen. unfold eventLeave. cbv zeta.
  rewrite selectLatestOpen_insertEvent.
  destruct (selectLatestOpen u ch st) as [m|] eqn:Hsel;
    [|by apply selectLatestOpen_None in Hsel].
  unfold closeSession. rewrite selectLatestOpen_insertEvent, Hsel.
  apply max_joined_spec in Hsel as [(r0 & Hin0 & Hm) Hmax].
  apply list_elem_of_filter in Hin0 as [Hopen0 Hin0].
  destruct (update_first_insert
              (λ r, is_open_for u ch r && (ss_joined_at r =? m)%Z)
              (close ts (Z.max 0 ((ts - m) / 1000)))
              (sessions st) r0 Hin0) as (i & r & Hi & HP & Hupd).
  { rewrite Hopen0. simpl. by apply Z.eqb_eq. }
  apply andb_true_iff in HP as [Hr Hrm]. apply Z.eqb_eq in Hrm.
  exists i, r. split; [done|]. split; [done|]. split.
  - intros r' Hin' Hopen'. rewrite Hrm. apply Hmax.
    by apply list_elem_of_filter.
  - simpl. rewrite Hupd, Hrm. reflexivity.
Qed.

(** What [eventLeave] does when the user has no open row. *)
Lemma eventLeave_closed u ts ch st :
  open_count u ch st = 0%nat →
  eventLeave u ts ch st =
    Make (events st ++ [Event u leave ts ch]) (sessions st) (users st).
Proof.
  intros Hnone. unfold eventLeave. cbv zeta.
  rewrite selectLatestOpen_insertEvent.
  by apply selectLatestOpen_None in Hnone as ->.
Qed.

End StoreFacts.

Lemma open_count_0 u ch st :
  Store.open_count u ch st = 0%nat ↔
  ∀ r, r ∈ Store.sessions st → Store.is_open_for u ch r = false.
Proof.
  unfold Store.open_count. rewrite length_zero_iff_nil. split.
  - intros Hnil r Hin. destruct (Store.is_open_for u ch r) eqn:Hr; [|done].
    assert (r ∈ filter (λ r, Store.is_open_for u ch r = true)
                  (Store.sessions st)) as Hf by by apply list_elem_of_filter.
    rewrite Hnil in Hf. by apply elem_of_nil in Hf.
  - intros Hall. induction (Store.sessions st) as [|r rows IH]; [done|].
    rewrite filter_cons. rewrite decide_False.
    + apply IH. intros r' ?. apply Hall. by right.
    + rewrite (Hall r) by by left. done.
Qed.

(** ** Running programs *)

Section RunFacts.
Context (arr : nat → list jsval) (o : oracle).

Lemma run_bind_raw {A B : Type} (p : prog A) (f : A → prog B) h e :
  run arr o (bind p f) h e =
  let '(r, h', e') := run arr o p h e in
  match r with
  | Ok a => run arr o (f a) h' e'
  | Err x => (Err x, h', e')
  end.
Proof.
  revert h e.
  induction p as [a|x|k IH|h' k IH|c k IH]; intros h e; simpl; try done.
  destruct (answer o (length (log e)) c e) as [r e1]. apply IH.
Qed.

Lemma run_bind {A B : Type} (p : prog A) (f : A → prog B) h e :
  run arr o (p ≫= f) h e =
  let '(r, h', e') := run arr o p h e in
  match r with
  | Ok a => run arr o (f a) h' e'
  | Err x => (Err x, h', e')
  end.
Proof. apply run_bind_raw. Qed.

Lemma run_gets_bind {A B : Type} (f : heap → A) (k : A → prog B) h e :
  run arr o (gets f ≫= k) h e = run arr o (k (f h)) h e.
Proof. reflexivity. Qed.

Lemma run_for_each_cons {A : Type} (x : A) (l : list A) (body : A → prog unit)
    h e :
  run arr o (for_each (x :: l) body) h e =
  let '(r, h', e') := run arr o (body x) h e in
  match r with
  | Ok _ => run arr o (for_each l body) h' e'
  | Err x => (Err x, h', e')
  end.
Proof. apply run_bind_raw. Qed.

Lemma run_try_catch {A : Type} (p : prog A) (handler : jserror → prog A) h e :
  run arr o (try_catch p handler) h e =
  let '(r, h', e') := run arr o p h e in
  match r with
  | Ok a => (Ok a, h', e')
  | Err x => run arr o (handler x) h' e'
  end.
Proof.
  revert h e.
  induction p as [a|x|k IH|h' k IH|c k IH]; intros h e; simpl; try done.
  destruct (answer o (length (log e)) c e) as [r e1]. apply IH.
Qed.

Lemma run_try_finally {A : Type} (p : prog A) (f : prog unit) h e :
  run arr o (try_finally p f) h e =
  let '(r, h', e') := run arr o p h e in
  let '(r2, h2, e2) := run arr o f h' e' in
  match r2 with
  | Ok _ => (r, h2, e2)
  | Err x => (Err x, h2, e2)
  end.
Proof.
  revert h e.
  induction p as [a|x|k IH|h' k IH|c k IH]; intros h e; simpl; try done.
  - pose proof (run_bind (B:=A) f (λ _, Ret a) h e) as Hb.
    unfold mbind, prog_bind in Hb. rewrite Hb.
    destruct (run arr o f h e) as [[[[]|?] ?] ?]; done.
  - pose proof (run_bind (B:=A) f (λ _, Throw x) h e) as Hb.
    unfold mbind, prog_bind in Hb. rewrite Hb.
    destruct (run arr o f h e) as [[[[]|?] ?] ?]; done.
  - destruct (answer o (length (log e)) c e) as [r e1]. apply IH.
Qed.

Lemma run_advance {A : Type} (p : prog A) h e :
  run arr o p h e = run arr o (advance p h).2 (advance p h).1 e.
Proof.
  revert h. induction p as [a|x|k IH|h' k IH|c k IH]; intros h; simpl; try done.
Qed.

End RunFacts.

(** ** C10 and C5: closing a session *)

(** C10. When no open session exists for (channel, username), [eventLeave]
    still appends the leave event, leaves every session row as it was and
    creates none; the call, as the tick issues it, returns normally. *)
Theorem C10_eventLeave_without_open_session
    (u ch : string) (ts : Z) (st : Store.t) :
  (∀ r, r ∈ Store.sessions st → Store.is_open_for u (Some ch) r = false) →
  Store.eventLeave u ts (Some ch) st =
    Store.Make
      (Store.events st ++ [Store.Event u Store.leave ts (Some ch)])
      (Store.sessions st) (Store.users st)
  ∧ ∀ arr o h e,
      store e = st → io_fail o (length (log e)) = None →
      ∃ e', run arr o (call_ (StoreEventLeave u ts (Some ch))) h e
              = (Ok tt, h, e')
            ∧ store e' = Store.eventLeave u ts (Some ch) st.
Proof.
  intros Hnone. apply open_count_0 in Hnone. split.
  - by apply StoreFacts.eventLeave_closed.
  - intros arr o h e <- Hio. simpl. unfold io_event. rewrite Hio. simpl.
    eexists. split; reflexivity.
Qed.

(** C5. When an open session exists for (channel, username), [eventLeave]
    closes one open row of the pair whose [joined_at] is the greatest among
    its open rows: that row gets [left_at = ts] and
    [duration_sec = max 0 (floor ((ts - joined_at) / 1000))], which is never
    negative; every other row stays as it was. *)
Theorem C5_eventLeave_closes_latest_open
    (u ch : string) (ts : Z) (st : Store.t) :
  (∃ r, r ∈ Store.sessions st ∧ Store.is_open_for u (Some ch) r = true) →
  ∃ (i : nat) (r : Store.session),
    Store.sessions st !! i = Some r
    ∧ Store.ss_username r = u
    ∧ Store.ss_channel_login r = Some ch
    ∧ Store.ss_left_at r = None
    ∧ (∀ r', r' ∈ Store.sessions st →
             Store.is_open_for u (Some ch) r' = true →
             (Store.ss_joined_at r' ≤ Store.ss_joined_at r)%Z)
    ∧ let dur := Z.max 0 ((ts - Store.ss_joined_at r) / 1000) in
      Store.sessions (Store.eventLeave u ts (Some ch) st) =
        <[i := Store.Session u (Store.ss_joined_at r) (Some ts) (Some dur)
                 (Some ch)]> (Store.sessions st)
      ∧ (0 ≤ dur)%Z.
Proof.
  intros (r0 & Hin0 & Hopen0).
  destruct (StoreFacts.eventLeave_open u ts (Some ch) st)
    as (i & r & Hi & Hopen & Hmax & Heq).
  { rewrite open_count_0. intros Hall. specialize (Hall r0 Hin0). congruence. }
  exists i, r. pose proof Hopen as Hopen'. unfold Store.is_open_for in Hopen'.
  apply andb_true_iff in Hopen' as [[Hu Hl]%andb_true_iff Hc].
  apply bool_decide_eq_true in Hu, Hl.
  assert (Store.ss_channel_login r = Some ch) as Hch.
  { destruct (Store.ss_channel_login r) as [c|]; simpl in Hc; [|done].
    apply bool_decide_eq_true in Hc. by subst. }
  repeat split; try done; [|lia].
  rewrite Heq. simpl. unfold Store.close. by rewrite Hu, Hch.
Qed.

(** ** Strings and sets *)

Lemma lower_ascii_idemp (c : ascii) : lower_ascii (lower_ascii c) = lower_ascii c.
Proof. destruct c as [[] [] [] [] [] [] [] []]; reflexivity. Qed.

Lemma toLowerCase_idemp (s : string) : toLowerCase (toLowerCase s) = toLowerCase s.
Proof. induction s as [|c s IH]; simpl; [done|]. by rewrite lower_ascii_idemp, IH. Qed.

Lemma toLowerCase_trimStart (s : string) :
  toLowerCase s = s → toLowerCase (trimStart s) = trimStart s.
Proof.
  induction s as [|c s IH]; simpl; [done|]. intros [= Hc Hs].
  destruct (is_space c); [by apply IH|]. simpl. by rewrite Hc, Hs.
Qed.

Lemma toLowerCase_trimEnd (s : string) :
  toLowerCase s = s → toLowerCase (trimEnd s) = trimEnd s.
Proof.
  induction s as [|c s IH]; simpl; [done|]. intros [= Hc Hs].
  specialize (IH Hs). destruct (trimEnd s) as [|c' s'].
  - destruct (is_space c); simpl; [done | by rewrite Hc].
  - change (toLowerCase (String c (String c' s')))
      with (String (lower_ascii c) (toLowerCase (String c' s'))).
    by rewrite Hc, IH.
Qed.

(** A login as the page loop stores it is in lower case already. *)
Lemma toLowerCase_login (s : string) :
  toLowerCase (trim (toLowerCase s)) = trim (toLowerCase s).
Proof.
  unfold trim. apply toLowerCase_trimEnd, toLowerCase_trimStart,
    toLowerCase_idemp.
Qed.

Lemma eqb_empty_false (s : string) : negb (String.eqb s "") = true ↔ s ≠ "".
Proof.
  rewrite negb_true_iff. split.
  - intros H ->. by rewrite String.eqb_refl in H.
  - intros H. by apply String.eqb_neq.
Qed.

Module JSSetFacts.

Lemma has_true x s : JSSet.has x s = true ↔ x ∈ s.
Proof. unfold JSSet.has. apply bool_decide_eq_true. Qed.

Lemma has_false x s : JSSet.has x s = false ↔ x ∉ s.
Proof. unfold JSSet.has. apply bool_decide_eq_false. Qed.

Lemma elem_of_add s x y : y ∈ JSSet.add s x ↔ y ∈ s ∨ y = x.
Proof.
  unfold JSSet.add. destruct (JSSet.has x s) eqn:H.
  - apply has_true in H. split; [by left | by intros [?| ->]].
  - rewrite elem_of_app, list_elem_of_singleton. done.
Qed.

Lemma NoDup_add s x : NoDup s → NoDup (JSSet.add s x).
Proof.
  intros Hs. unfold JSSet.add. destruct (JSSet.has x s) eqn:H; [done|].
  apply has_false in H. apply NoDup_app. split; [done|]. split.
  - intros y Hy ->%list_elem_of_singleton. done.
  - apply NoDup_singleton.
Qed.

Lemma add_present s x : x ∈ s → JSSet.add s x = s.
Proof. intros H. unfold JSSet.add. by apply has_true in H as ->. Qed.

Lemma add_prefix s x : ∃ t, JSSet.add s x = s ++ t.
Proof.
  unfold JSSet.add. destruct (JSSet.has x s).
  - exists []. by rewrite app_nil_r.
  - by exists [x].
Qed.

Lemma delete_absent s x : x ∉ s → JSSet.delete s x = s.
Proof.
  intros H. unfold JSSet.delete. induction s as [|y s IH]; [done|].
  apply not_elem_of_cons in H as [Hne Hs].
  rewrite filter_cons, decide_True by done. f_equal. by apply IH.
Qed.

(** Deleting the batch taken from the front of a set leaves the rest. *)
Lemma foldl_delete_prefix (l s : list string) :
  NoDup (l ++ s) → foldl JSSet.delete (l ++ s) l = s.
Proof.
  revert s. induction l as [|x l IH]; intros s Hnd; simpl; [done|].
  apply NoDup_cons in Hnd as [Hx Hnd].
  unfold JSSet.delete at 2. rewrite filter_cons, decide_False by solve_logic.
  fold (JSSet.delete (l ++ s) x). rewrite delete_absent by done. by apply IH.
Qed.

Lemma foldl_delete_take (k : nat) (s : list string) :
  NoDup s → foldl JSSet.delete s (take k s) = drop k s.
Proof.
  intros Hnd.
  transitivity (foldl JSSet.delete (take k s ++ drop k s) (take k s));
    [by rewrite take_drop|].
  apply foldl_delete_prefix. by rewrite take_drop.
Qed.

End JSSetFacts.

(** ** [enqueue] on the pending set *)

Lemma enqueue_into_snoc q us u :
  enqueue_into q (us ++ [u]) =
  if truthy u then JSSet.add (enqueue_into q us) (toLowerCase (js_String u))
  else enqueue_into q us.
Proof. unfold enqueue_into. by rewrite foldl_app. Qed.

Lemma elem_of_enqueue_into q us x :
  x ∈ enqueue_into q us ↔
  x ∈ q ∨ ∃ u, u ∈ us ∧ truthy u = true ∧ x = toLowerCase (js_String u).
Proof.
  induction us as [|u us IH] using rev_ind.
  - simpl. split; [by left|]. intros [?|(u & Hu & _)]; [done|].
    by apply elem_of_nil in Hu.
  - rewrite enqueue_into_snoc. destruct (truthy u) eqn:Hu.
    + rewrite JSSetFacts.elem_of_add, IH. split.
      * intros [[?|(v & Hv & ? & ?)]| ->]; [by left| |].
        -- right. exists v. rewrite elem_of_app. solve_logic.
        -- right. exists u. rewrite elem_of_app, list_elem_of_singleton.
           solve_logic.
      * intros [?|(v & [Hv| ->%list_elem_of_singleton]%elem_of_app & ? & ?)];
          solve_logic.
    + rewrite IH. split.
      * intros [?|(v & Hv & ? & ?)]; [by left|].
        right. exists v. rewrite elem_of_app. solve_logic.
      * intros [?|(v & [Hv| ->%list_elem_of_singleton]%elem_of_app & ? & ?)];
          [by left | solve_logic | congruence].
Qed.

Lemma NoDup_enqueue_into q us : NoDup q → NoDup (enqueue_into q us).
Proof.
  intros Hq. induction us as [|u us IH] using rev_ind; [done|].
  rewrite enqueue_into_snoc. destruct (truthy u); [|done].
  by apply JSSetFacts.NoDup_add.
Qed.

(** Enqueueing names that are all pending already changes nothing. *)
Lemma enqueue_into_present q us :
  (∀ u, u ∈ us → truthy u = true → toLowerCase (js_String u) ∈ q) →
  enqueue_into q us = q.
Proof.
  induction us as [|u us IH] using rev_ind; intros H; [done|].
  rewrite enqueue_into_snoc, IH.
  - destruct (truthy u) eqn:Hu; [|done]. apply JSSetFacts.add_present.
    apply H; [|done]. rewrite elem_of_app, list_elem_of_singleton. by right.
  - intros v Hv. apply H. rewrite elem_of_app. by left.
Qed.

Lemma enqueue_into_nil q : enqueue_into q [] = q.
Proof. reflexivity. Qed.

(** ** Logs *)

Lemma segment_app (e e' : env) (seg : list entry) :
  log e' = log e ++ seg → segment e e' = seg.
Proof. unfold segment. intros ->. by rewrite drop_app_length. Qed.

Lemma segment_refl (e : env) : segment e e = [].
Proof. unfold segment. by rewrite drop_all. Qed.

Lemma lookups_for_app x s1 s2 :
  lookups_for x (s1 ++ s2) = (lookups_for x s1 + lookups_for x s2)%nat.
Proof. unfold lookups_for. apply sum_list_with_app. Qed.

Lemma pages_of_app s1 s2 : pages_of (s1 ++ s2) = pages_of s1 ++ pages_of s2.
Proof. unfold pages_of. apply omap_app. Qed.

Lemma set_queue_same h : set_queue (queue h) h = h.
Proof. by destruct h. Qed.

(** What a write that failed may have left. *)
Lemma log_cut_file o n out e : log (cut_file o n out e) = log e.
Proof. unfold cut_file. by destruct (io_stage o n) as [|[|?]]. Qed.

Lemma store_cut_file o n out e : store (cut_file o n out e) = store e.
Proof. unfold cut_file. by destruct (io_stage o n) as [|[|?]]. Qed.

Lemma log_cut_event o n u ty ts ch e :
  log (cut_event o n u ty ts ch e) = log e.
Proof. unfold cut_event. by destruct (io_stage o n). Qed.

(** Every run extends the log. *)
Lemma run_log {A : Type} arr o (p : prog A) h e :
  ∃ seg, log (run arr o p h e).2 = log e ++ seg.
Proof.
  revert h e. induction p as [a|x|k IH|h' k IH|c k IH]; intros h e; simpl;
    try (by exists []; rewrite app_nil_r); try done.
  destruct (answer o (length (log e)) c e) as [r e1] eqn:Ha.
  assert (log e1 = log e) as Hlog.
  { destruct c; simpl in Ha; unfold io, io_event, io_file in Ha;
      try destruct (io_fail o (length (log e)));
      inversion Ha; subst; rewrite ?log_cut_event, ?log_cut_file; done. }
  edestruct (IH r) as [seg Hseg]. rewrite Hseg. simpl. rewrite Hlog.
  eexists. by rewrite <- app_assoc.
Qed.

(** ** The Helix client *)

Section ClientFacts.
Context (arr : nat → list jsval) (o : oracle).

Lemma chunks_from_beyond fuel i (l : list string) :
  (length l ≤ i)%nat → chunks_from fuel i l = [].
Proof.
  intros H. destruct fuel; simpl; [done|].
  by rewrite (proj2 (Nat.ltb_ge _ _)).
Qed.

Lemma chunks_from_small (l : list string) :
  l ≠ [] → (length l ≤ 100)%nat → chunks_from (length l) 0 l = [l].
Proof.
  intros Hne Hle. destruct l as [|x l]; [done|].
  change (chunks_from (length (x :: l)) 0 (x :: l))
    with (if (0 <? length (x :: l))%nat
          then take 100 (drop 0 (x :: l))
               :: chunks_from (length l) (0 + 100) (x :: l)
          else []).
  destruct (Nat.ltb_spec 0 (length (x :: l))) as [_|H0]; [|simpl in H0; lia].
  rewrite drop_0, firstn_all2 by lia.
  by rewrite chunks_from_beyond by lia.
Qed.

(** A batch of at most 100 logins is looked up in one request. *)
Lemma run_fetchUsersByLogins cid tok (l : list string) h e :
  l ≠ [] → (length l ≤ 100)%nat →
  run arr o (fetchUsersByLogins cid tok l) h e =
  let n := length (log e) in
  let r := users_reply o n in
  (match r with Ok us => Ok (default [] us) | Err x => Err x end,
   set_queue (enqueue_into (queue h) (arr n)) h,
   add_log (Entry (GetUsers cid tok l) r) e).
Proof.
  intros Hne Hle. unfold fetchUsersByLogins.
  destruct l as [|x l]; [done|]. simpl (length (x :: l) =? 0)%nat. cbv iota.
  rewrite chunks_from_small by done. simpl.
  destruct (users_reply o (length (log e))); reflexivity.
Qed.

(** One round of the enrichment loop. *)
Lemma run_enrich_user (u : helixUser) h e :
  run arr o (enrich_user u) h e =
  let n := length (log e) in
  let fr := followers_reply o n in
  let followerCount := match fr with Ok v => v | Err _ => None end in
  let now := clock o (S n) in
  let p := profile_of u followerCount now in
  let h1 := set_queue (enqueue_into (queue h) (arr n)) h in
  let e1 := add_log (Entry DateNow (Ok now))
              (add_log (Entry (GetFollowers (clientId (cfg h)) (enrichToken h)
                                 (hu_id u) 1) fr) e) in
  match io_fail o (S (S n)) with
  | None =>
      (Ok tt, h1,
       add_log (Entry (StoreSaveUserProfile p) (Ok tt))
         (set_store (Store.saveUserProfile p (store e)) e1))
  | Some x => (Err x, h1, add_log (Entry (StoreSaveUserProfile p) (Err x)) e1)
  end.
Proof.
  unfold enrich_user. simpl.
  destruct (followers_reply o (length (log e))) as [v|x]; simpl;
    rewrite ?length_app; simpl; rewrite ?Nat.add_1_r; unfold io; simpl;
    rewrite ?length_app; simpl; rewrite ?Nat.add_1_r;
    destruct (io_fail o (S (S (length (log e))))); reflexivity.
Qed.

End ClientFacts.

(** ** The enrichment queue *)

Section DrainFacts.
Context (arr : nat → list jsval) (o : oracle).

(** The enrichment loop never touches the pending set or the flag, and asks
    for no profile. *)
Lemma run_enrich_loop (users : list helixUser) h e :
  ∃ seg,
    let '(r, h', e') := run arr o (for_each users enrich_user) h e in
    log e' = log e ++ seg
    ∧ (∀ x, lookups_for x seg = 0%nat)
    ∧ h' = set_queue
             (foldl enqueue_into (queue h) (arrivals arr (length (log e)) seg))
             h.
Proof.
  revert h e. induction users as [|u users IH]; intros h e.
  - exists []. simpl. rewrite app_nil_r. by rewrite set_queue_same.
  - rewrite run_for_each_cons, run_enrich_user. cbv zeta.
    set (n := length (log e)).
    set (h1 := set_queue (enqueue_into (queue h) (arr n)) h).
    destruct (io_fail o (S (S n))) as [x|].
    + eexists [_; _; _]. simpl. rewrite <- !app_assoc. simpl.
      split; [reflexivity|]. split; [done|]. reflexivity.
    + match goal with |- context [run arr o _ h1 ?e1] =>
        destruct (IH h1 e1) as [seg Hseg];
        destruct (run arr o (for_each users enrich_user) h1 e1)
          as [[r h'] e'] eqn:Hrun
      end.
      destruct Hseg as (Hlog & Hlook & Hh).
      eexists (_ :: _ :: _ :: seg). split; [|split].
      * rewrite Hlog. simpl. rewrite <- !app_assoc. reflexivity.
      * intros x. change (lookups_for x (?a :: ?b :: ?c :: seg))
          with (lookups_for x ([a; b; c] ++ seg)).
        rewrite lookups_for_app, Hlook. reflexivity.
      * rewrite Hh. simpl. rewrite !length_app. simpl.
        replace (length (log e) + 1 + 1 + 1)%nat with (S (S (S n))) by lia.
        reflexivity.
Qed.

Lemma run_drain_idle h e :
  running h = true ∨ queue h = [] → run arr o drain h e = (Ok tt, h, e).
Proof.
  intros H. unfold drain. simpl.
  destruct H as [-> | ->]; [done|]. simpl. by rewrite orb_true_r.
Qed.

(** A drain that starts: the batch leaves the pending set, the lookup and
    the loop run, and the flag is lowered whatever came of them. *)
Lemma run_drain_busy h e :
  running h = false → queue h ≠ [] → NoDup (queue h) →
  run arr o drain h e =
  let h1 := set_queue (drop 50 (queue h)) (set_running true h) in
  let '(r, h2, e2) :=
    run arr o
      (fetchUsersByLogins (clientId (cfg h)) (enrichToken h)
         (take 50 (queue h)) ≫= λ users, for_each users enrich_user) h1 e in
  (r, set_running false h2, e2).
Proof.
  intros Hrun Hq Hnd. unfold drain. simpl. rewrite Hrun.
  assert ((length (queue h) =? 0)%nat = false) as ->
    by by destruct (queue h).
  simpl. rewrite run_try_finally. simpl.
  rewrite JSSetFacts.foldl_delete_take by done.
  match goal with |- context [run arr o ?p ?h1 e] =>
    destruct (run arr o p h1 e) as [[r h2] e2] end.
  reflexivity.
Qed.

End DrainFacts.

Section DrainRun.
Context (arr : nat → list jsval) (o : oracle).

Lemma run_drain_started h e :
  running h = false → queue h ≠ [] → NoDup (queue h) →
  run arr o drain h e =
  let n := length (log e) in
  let h1 := set_queue (enqueue_into (drop 50 (queue h)) (arr n))
              (set_running true h) in
  let e1 := add_log (Entry (GetUsers (clientId (cfg h)) (enrichToken h)
                              (take 50 (queue h))) (users_reply o n)) e in
  match users_reply o n with
  | Ok us =>
      let '(r, h2, e2) :=
        run arr o (for_each (default [] us) enrich_user) h1 e1 in
      (r, set_running false h2, e2)
  | Err x => (Err x, set_running false h1, e1)
  end.
Proof.
  intros Hrun Hq Hnd. rewrite run_drain_busy by done. cbv zeta.
  rewrite run_bind, run_fetchUsersByLogins.
  - cbv zeta. destruct (users_reply o (length (log e))); reflexivity.
  - by destruct (queue h).
  - rewrite length_take. lia.
Qed.

(** The log and the memory after a drain that started. *)
Lemma run_drain_effects h e :
  running h = false → queue h ≠ [] → NoDup (queue h) →
  ∃ seg,
    let n := length (log e) in
    let '(r, h', e') := run arr o drain h e in
    log e' = log e ++ Entry (GetUsers (clientId (cfg h)) (enrichToken h)
                               (take 50 (queue h))) (users_reply o n) :: seg
    ∧ (∀ x, lookups_for x seg = 0%nat)
    ∧ h' = set_queue
             (foldl enqueue_into (drop 50 (queue h))
                (arr n :: arrivals arr (S n) seg)) h.
Proof.
  intros Hrun Hq Hnd. rewrite run_drain_started by done. cbv zeta.
  set (n := length (log e)).
  destruct (users_reply o n) as [us|x].
  - match goal with |- context [run arr o _ ?h1 ?e1] =>
      destruct (run_enrich_loop arr o (default [] us) h1 e1) as [seg Hseg];
      destruct (run arr o (for_each (default [] us) enrich_user) h1 e1)
        as [[r h2] e2]
    end.
    destruct Hseg as (Hlog & Hlook & ->). exists seg. split; [|split].
    + rewrite Hlog. simpl. by rewrite <- app_assoc.
    + done.
    + simpl. rewrite length_app. simpl.
      replace (length (log e) + 1)%nat with (S n) by lia.
      destruct h. simpl in *. by rewrite Hrun.
  - exists []. split; [done|]. split; [done|].
    simpl. destruct h. simpl in *. by rewrite Hrun.
Qed.

Lemma run_enrich_loop_ok (users : list helixUser) h e :
  (∀ n, io_fail o n = None) →
  ∃ seg,
    let n := length (log e) in
    let '(r, h', e') := run arr o (for_each users enrich_user) h e in
    r = Ok tt
    ∧ log e' = log e ++ seg
    ∧ length (saved seg) = length users
    ∧ (∀ i u, users !! i = Some u →
         saved seg !! i =
           Some (profile_of u
                   (match followers_reply o (n + 3 * i) with
                    | Ok v => v
                    | Err _ => None
                    end)
                   (clock o (n + 1 + 3 * i))))
    ∧ Store.users (store e') =
        foldl (λ m p, <[Store.username p := p]> m) (Store.users (store e))
          (saved seg).
Proof.
  intros Hio. revert h e. induction users as [|u users IH]; intros h e.
  - exists []. simpl. rewrite app_nil_r. done.
  - rewrite run_for_each_cons, run_enrich_user. cbv zeta. rewrite Hio.
    set (n := length (log e)).
    match goal with |- context [run arr o _ ?h1 ?e1] =>
      destruct (IH h1 e1) as [seg Hseg];
      destruct (run arr o (for_each users enrich_user) h1 e1)
        as [[r h'] e'] eqn:Hrun
    end.
    cbv zeta in Hseg. destruct Hseg as (-> & Hlog & Hlen & Hnth & Husers).
    eexists (_ :: _ :: _ :: seg). split; [done|]. split; [|split; [|split]].
    + rewrite Hlog. simpl. rewrite <- !app_assoc. reflexivity.
    + simpl. by rewrite Hlen.
    + intros [|i] v Hv.
      * simpl in Hv. injection Hv as <-. simpl.
        by rewrite !Nat.add_0_r, Nat.add_1_r.
      * simpl in Hv. simpl saved. simpl lookup.
        change (saved seg !! i = Some (profile_of v
          (match followers_reply o (n + 3 * S i) with Ok v0 => v0 | Err _ => None end)
          (clock o (n + 1 + 3 * S i)))).
        rewrite (Hnth i v Hv). simpl length. rewrite !length_app. simpl length.
        replace (length (log e) + 1 + 1 + 1 + 3 * i)%nat
          with (n + 3 * S i)%nat by (unfold n; lia).
        by replace (length (log e) + 1 + 1 + 1 + 1 + 3 * i)%nat
          with (n + 1 + 3 * S i)%nat by (unfold n; lia).
    + rewrite Husers. reflexivity.
Qed.

End DrainRun.

Lemma elem_of_arrivals arr n (seg : list entry) i en :
  seg !! i = Some en → awaited (en_call en) = true →
  arr (n + i)%nat ∈ arrivals arr n seg.
Proof.
  revert n i. induction seg as [|en0 seg IH]; intros n i Hi Haw; [done|].
  destruct i as [|i]; simpl in *.
  - injection Hi as ->. rewrite Haw, Nat.add_0_r. by left.
  - apply elem_of_app. right.
    replace (n + S i)%nat with (S n + i)%nat by lia. by apply IH.
Qed.

Lemma foldl_enqueue_keeps q (ls : list (list jsval)) x :
  x ∈ q → x ∈ foldl enqueue_into q ls.
Proof.
  revert q. induction ls as [|us ls IH]; intros q Hx; simpl; [done|].
  apply IH, elem_of_enqueue_into. by left.
Qed.

Lemma foldl_enqueue_adds q (ls : list (list jsval)) us u :
  us ∈ ls → u ∈ us → truthy u = true →
  toLowerCase (js_String u) ∈ foldl enqueue_into q ls.
Proof.
  revert q. induction ls as [|us0 ls IH]; intros q Hus Hu Ht.
  - by apply elem_of_nil in Hus.
  - simpl. apply elem_of_cons in Hus as [<-|Hus].
    + apply foldl_enqueue_keeps, elem_of_enqueue_into. right. by exists u.
    + by apply IH.
Qed.

Lemma NoDup_take_of (k : nat) (l : list string) : NoDup l → NoDup (take k l).
Proof.
  intros H. rewrite <- (take_drop k l) in H. by apply NoDup_app in H as [? _].
Qed.

Lemma filter_eq_absent (x : string) (l : list string) :
  x ∉ l → filter (λ y, y = x) l = [].
Proof.
  induction l as [|y l IH]; intros Hx; [done|].
  apply not_elem_of_cons in Hx as [Hne Hx].
  rewrite filter_cons, decide_False by done. by apply IH.
Qed.

Lemma filter_eq_NoDup (x : string) (l : list string) :
  NoDup l → x ∈ l → length (filter (λ y, y = x) l) = 1%nat.
Proof.
  induction 1 as [|y l Hy Hnd IH]; intros Hx; [by apply elem_of_nil in Hx|].
  rewrite filter_cons. destruct (decide (y = x)) as [->|Hne].
  - simpl. by rewrite filter_eq_absent.
  - apply IH. by apply elem_of_cons in Hx as [->|?].
Qed.

(** ** C6, C7, C8: the enrichment queue *)

(** C6 (amended). [enqueue] is an idempotent set insertion: falsy entries
    are ignored, every kept name is put in lower case, and however often a
    name is enqueued it is pending at most once. A drain that starts while
    the name is among the first 50 pending names looks its profile up
    exactly once. *)
Theorem C6_enqueue_is_set_insertion
    (arr : nat → list jsval) (o : oracle) (h : heap) (e : env)
    (us : list jsval) :
  NoDup (queue h) →
  let q' := enqueue_into (queue h) us in
  run arr o (enqueue us) h e = (Ok tt, set_queue q' h, e)
  ∧ (∀ x, x ∈ q' ↔
          x ∈ queue h
          ∨ ∃ u, u ∈ us ∧ truthy u = true ∧ x = toLowerCase (js_String u))
  ∧ NoDup q'
  ∧ run arr o (enqueue us) (set_queue q' h) e = (Ok tt, set_queue q' h, e)
  ∧ (∀ x, running h = false → x ∈ take 50 q' →
          let '(_, _, e') := run arr o drain (set_queue q' h) e in
          lookups_for x (segment e e') = 1%nat).
Proof.
  intros Hnd q'. assert (NoDup q') as Hnd' by by apply NoDup_enqueue_into.
  split; [reflexivity|]. split; [apply elem_of_enqueue_into|].
  split; [done|]. split.
  - simpl. rewrite enqueue_into_present; [reflexivity|].
    intros u Hu Ht. apply elem_of_enqueue_into. right. by exists u.
  - intros x Hrun Hx.
    destruct (run_drain_effects arr o (set_queue q' h) e) as [seg Hseg];
      [done| |done|].
    { simpl. intros Hq. rewrite Hq in Hx. rewrite take_nil in Hx.
      by apply elem_of_nil in Hx. }
    cbv zeta in Hseg.
    destruct (run arr o drain (set_queue q' h) e) as [[r h'] e'].
    destruct Hseg as (Hlog & Hlook & _).
    rewrite (segment_app _ _ _ Hlog).
    change (lookups_for x (?en :: seg)) with (lookups_for x ([en] ++ seg)).
    rewrite lookups_for_app, Hlook. simpl.
    rewrite filter_eq_NoDup; [done| |done].
    by apply NoDup_take_of.
Qed.

(** C7. [drain] returns at once, changing nothing and calling nothing, when
    a drain is running or nothing is pending. Otherwise it raises the flag,
    takes the first 50 pending names at most and removes them from the
    pending set before its first call; what other tasks enqueue while the
    drain awaits stays pending; and the flag is down when the drain ends,
    however it ends. *)
Theorem C7_drain_is_guarded_and_releases
    (arr : nat → list jsval) (o : oracle) (h : heap) (e : env) :
  let '(r, h', e') := run arr o drain h e in
  (running h = true ∨ queue h = [] → r = Ok tt ∧ h' = h ∧ e' = e)
  ∧ (running h = false → queue h ≠ [] → NoDup (queue h) →
     (∃ h1 k, advance drain h =
                (h1, Call (GetUsers (clientId (cfg h)) (enrichToken h)
                             (take 50 (queue h))) k)
              ∧ running h1 = true
              ∧ queue h1 = drop 50 (queue h)
              ∧ cfg h1 = cfg h ∧ sessions h1 = sessions h
              ∧ enrichToken h1 = enrichToken h)
     ∧ (length (take 50 (queue h)) ≤ 50)%nat
     ∧ running h' = false
     ∧ queue h' =
         foldl enqueue_into (drop 50 (queue h))
           (arrivals arr (length (log e)) (segment e e'))
     ∧ (∀ x, x ∈ drop 50 (queue h) → x ∈ queue h')
     ∧ (∀ i en u,
          segment e e' !! i = Some en → awaited (en_call en) = true →
          u ∈ arr (length (log e) + i)%nat → truthy u = true →
          toLowerCase (js_String u) ∈ queue h')).
Proof.
  destruct (run arr o drain h e) as [[r h'] e'] eqn:Hrun. split.
  - intros Hidle. rewrite run_drain_idle in Hrun by done. by inversion Hrun.
  - intros Hflag Hq Hnd.
    destruct (run_drain_effects arr o h e Hflag Hq Hnd) as [seg Hseg].
    cbv zeta in Hseg. rewrite Hrun in Hseg. destruct Hseg as (Hlog & _ & Hh).
    rewrite (segment_app _ _ _ Hlog).
    assert (queue h' = foldl enqueue_into (drop 50 (queue h))
                         (arrivals arr (length (log e))
                            (Entry (GetUsers (clientId (cfg h)) (enrichToken h)
                                      (take 50 (queue h)))
                               (users_reply o (length (log e))) :: seg)))
      as Hqueue by by rewrite Hh.
    split; [|split; [|split; [|split; [|split]]]].
    + unfold drain. simpl. rewrite Hflag.
      assert ((length (queue h) =? 0)%nat = false) as ->
        by by destruct (queue h).
      simpl. rewrite JSSetFacts.foldl_delete_take by done.
      unfold fetchUsersByLogins.
      assert ((length (take 50 (queue h)) =? 0)%nat = false) as ->
        by by destruct (queue h).
      rewrite chunks_from_small;
        [|by destruct (queue h)|rewrite length_take; lia].
      simpl. eexists _, _. split; [reflexivity|]. done.
    + rewrite length_take. lia.
    + rewrite Hh. simpl. done.
    + done.
    + intros x Hx. rewrite Hqueue. by apply foldl_enqueue_keeps.
    + intros i en u Hi Haw Hu Ht. rewrite Hqueue.
      eapply foldl_enqueue_adds; [|done..].
      by eapply elem_of_arrivals.
Qed.

(** C8. In a drain whose batched lookup resolved [users] and whose writes
    the database accepts, every resolved user gets its profile row, in
    order, whether or not its follower lookup threw: a lookup that threw
    leaves [follower_count] null in that user's row and nothing else is
    affected; the drain returns normally. *)
Theorem C8_follower_failure_is_isolated
    (arr : nat → list jsval) (o : oracle) (h : heap) (e : env)
    (us : option (list helixUser)) :
  running h = false → queue h ≠ [] → NoDup (queue h) →
  users_reply o (length (log e)) = Ok us →
  (∀ n, io_fail o n = None) →
  let users := default [] us in
  let n0 := length (log e) in
  let '(r, h', e') := run arr o drain h e in
  r = Ok tt
  ∧ length (saved (segment e e')) = length users
  ∧ (∀ i u, users !! i = Some u →
       saved (segment e e') !! i =
         Some (profile_of u
                 (match followers_reply o (n0 + 1 + 3 * i) with
                  | Ok v => v
                  | Err _ => None
                  end)
                 (clock o (n0 + 2 + 3 * i))))
  ∧ Store.users (store e') =
      foldl (λ m p, <[Store.username p := p]> m) (Store.users (store e))
        (saved (segment e e')).
Proof.
  intros Hflag Hq Hnd Hus Hio users n0.
  rewrite run_drain_started by done. cbv zeta. rewrite Hus.
  match goal with |- context [run arr o _ ?h1 ?e1] =>
    destruct (run_enrich_loop_ok arr o users h1 e1 Hio) as [seg Hseg];
    fold users;
    destruct (run arr o (for_each users enrich_user) h1 e1) as [[r h2] e2]
  end.
  cbv zeta in Hseg. destruct Hseg as (-> & Hlog & Hlen & Hnth & Husers).
  simpl in Hlog. rewrite <- app_assoc in Hlog.
  rewrite (segment_app _ _ _ Hlog). simpl.
  change (saved (?en :: seg)) with (saved seg).
  split; [done|]. split; [done|]. split; [|done].
  intros i u Hu. rewrite (Hnth i u Hu). simpl. rewrite length_app. simpl.
  fold n0.
  by replace (n0 + 1 + 1 + (i + (i + (i + 0))))%nat
    with (n0 + 2 + (i + (i + (i + 0))))%nat by lia.
Qed.

(** ** C9: fetching the chatters *)

Lemma or_null_truthy (x : option string) : truthy_str x = true → or_null x = x.
Proof. unfold or_null. by intros ->. Qed.

Lemma or_null_None (x : option string) : or_null x = None ↔ truthy_str x = false.
Proof.
  unfold or_null. destruct (truthy_str x) eqn:H; [|done].
  split; [|done]. intros ->. done.
Qed.

Lemma foldl_enqueue_quiet q n (seg : list entry) :
  foldl enqueue_into q (arrivals quiet n seg) = q.
Proof.
  revert n. induction seg as [|en seg IH]; intros n; simpl; [done|].
  destruct (awaited (en_call en)); simpl; apply IH.
Qed.

Section FetchChatters.
Context (arr : nat → list jsval) (o : oracle).
Context (cid tok bid mid : option string).

Lemma run_fetchChatters_loop (n : nat) users after h e :
  ∃ seg,
    let '(r, h', e') :=
      run arr o (fetchChatters_loop n cid tok bid mid users after) h e in
    log e' = log e ++ seg
    ∧ store e' = store e
    ∧ authFile e' = authFile e
    ∧ h' = set_queue
             (foldl enqueue_into (queue h) (arrivals arr (length (log e)) seg))
             h
    ∧ (length seg ≤ n)%nat
    ∧ (n ≠ 0%nat → seg ≠ [])
    ∧ follows_cursor cid tok bid mid (or_null after) seg
    ∧ (∀ i en, seg !! i = Some en → (S i < length seg)%nat →
               failed en = false ∧ entry_cursor en ≠ None)
    ∧ match r with
      | Ok us =>
          us = foldl add_logins users (pages_of seg)
          ∧ (∀ en, en ∈ seg → failed en = false)
          ∧ (length seg = n ∨ ∃ en, last seg = Some en ∧ entry_cursor en = None)
      | Err x => ∃ en, last seg = Some en ∧ failed en = true
      end.
Proof.
  revert users after h e. induction n as [|n IH]; intros users after h e.
  { exists []. simpl. rewrite app_nil_r, set_queue_same.
    repeat split; try done. intros en Hen. by apply elem_of_nil in Hen. by left. }
  cbn [fetchChatters_loop]. rewrite run_bind. simpl.
  set (n0 := length (log e)).
  set (c := GetChatters cid tok bid mid 1000 (or_null after)).
  set (h1 := set_queue (enqueue_into (queue h) (arr n0)) h).
  destruct (chatters_reply o n0) as [b|x] eqn:Hreply.
  - simpl. destruct (truthy_str (pagination_cursor b)) eqn:Hcur.
    + match goal with |- context [run arr o _ h1 ?e1] =>
        destruct (IH (add_logins users (default [] (chatters_data b)))
                    (pagination_cursor b) h1 e1) as [seg Hseg];
        destruct (run arr o
                    (fetchChatters_loop n cid tok bid mid
                       (add_logins users (default [] (chatters_data b)))
                       (pagination_cursor b)) h1 e1) as [[r h'] e']
      end.
      destruct Hseg as (Hlog & Hst & Hauth & Hh & Hlen & Hne & Hfol & Hmid & Hr).
      exists (Entry c (Ok b) :: seg).
      split; [rewrite Hlog; simpl; by rewrite <- app_assoc|].
      split; [done|]. split; [done|]. split.
      { rewrite Hh. simpl. rewrite length_app. simpl.
        by replace (length (log e) + 1)%nat with (S n0) by lia. }
      split; [simpl; lia|]. split; [done|]. split.
      { simpl. split; [done|]. unfold entry_cursor. simpl.
        by rewrite or_null_truthy, <- (or_null_truthy _ Hcur). }
      split.
      { intros [|i] en Hi Hlt; simpl in Hi.
        - injection Hi as <-. split; [done|]. unfold entry_cursor. simpl.
          rewrite or_null_truthy by done. by destruct (pagination_cursor b).
        - apply (Hmid i en Hi). simpl in Hlt. lia. }
      destruct r as [us|x].
      * destruct Hr as (-> & Hok & Hend). split; [done|]. split.
        { intros en [->|Hen]%elem_of_cons; [done | by apply Hok]. }
        destruct Hend as [<-|(en & Hlast & Hc)]; [by left|].
        right. exists en. split; [|done].
        destruct seg; [done|]. done.
      * destruct Hr as (en & Hlast & Hf). exists en. split; [|done].
        destruct seg; [done|]. done.
    + exists [Entry c (Ok b)]. simpl.
      split; [done|]. split; [done|]. split; [done|]. split; [done|].
      split; [lia|]. split; [done|]. split; [done|]. split.
      { intros [|i] en Hi Hlt; simpl in *; [lia|done]. }
      split; [done|]. split.
      { by intros en ->%list_elem_of_singleton. }
      right. eexists. split; [done|]. unfold entry_cursor. simpl.
      by apply or_null_None.
  - exists [Entry c (Err x)]. simpl.
    split; [done|]. split; [done|]. split; [done|]. split; [done|].
    split; [lia|]. split; [done|]. split; [done|]. split.
    { intros [|i] en Hi Hlt; simpl in *; [lia|done]. }
    eexists. done.
Qed.

End FetchChatters.

Lemma add_logins_snoc users data row :
  add_logins users (data ++ [row]) =
  let login := trim (toLowerCase (or_empty row)) in
  if negb (String.eqb login "") then JSSet.add (add_logins users data) login
  else add_logins users data.
Proof. unfold add_logins. by rewrite foldl_app. Qed.

Lemma elem_of_add_logins users data x :
  x ∈ add_logins users data ↔
  x ∈ users
  ∨ ∃ row, row ∈ data ∧ x = trim (toLowerCase (or_empty row)) ∧ x ≠ "".
Proof.
  induction data as [|row data IH] using rev_ind.
  - simpl. split; [by left|]. intros [?|(row & Hrow & _)]; [done|].
    by apply elem_of_nil in Hrow.
  - rewrite add_logins_snoc. cbv zeta.
    destruct (negb (String.eqb (trim (toLowerCase (or_empty row))) ""))
      eqn:Hne.
    + apply eqb_empty_false in Hne.
      rewrite JSSetFacts.elem_of_add. split.
      * intros [Hx| ->].
        -- apply IH in Hx as [?|(r & Hr & ? & ?)]; [by left|].
           right. exists r. rewrite elem_of_app. solve_logic.
        -- right. exists row. rewrite elem_of_app, list_elem_of_singleton.
           solve_logic.
      * intros [?|(r & [Hr| ->%list_elem_of_singleton]%elem_of_app & ? & ?)].
        -- left. apply IH. by left.
        -- left. apply IH. right. by exists r.
        -- by right.
    + apply negb_false_iff, String.eqb_eq in Hne. split.
      * intros Hx. apply IH in Hx as [?|(r & Hr & ? & ?)]; [by left|].
        right. exists r. rewrite elem_of_app. solve_logic.
      * intros [?|(r & [Hr| ->%list_elem_of_singleton]%elem_of_app & ? & ?)].
        -- apply IH. by left.
        -- apply IH. right. by exists r.
        -- congruence.
Qed.

Lemma NoDup_add_logins users data : NoDup users → NoDup (add_logins users data).
Proof.
  intros Hu. induction data as [|row data IH] using rev_ind; [done|].
  rewrite add_logins_snoc. cbv zeta.
  destruct (negb _); [by apply JSSetFacts.NoDup_add | done].
Qed.

Lemma NoDup_snapshot_of seg : NoDup (snapshot_of seg).
Proof.
  unfold snapshot_of. generalize (pages_of seg). intros pages.
  assert (NoDup (@nil string)) as H by constructor. revert H.
  generalize (@nil string). induction pages as [|p pages IH]; intros l Hl;
    simpl; [done|]. by apply IH, NoDup_add_logins.
Qed.

Lemma elem_of_foldl_add_logins users (pages : list (list (option string))) x :
  x ∈ foldl add_logins users pages ↔
  x ∈ users
  ∨ ∃ rows row, rows ∈ pages ∧ row ∈ rows
                ∧ x = trim (toLowerCase (or_empty row)) ∧ x ≠ "".
Proof.
  revert users. induction pages as [|p pages IH]; intros users; simpl.
  - split; [by left|]. intros [?|(rows & ? & Hrows & _)]; [done|].
    by apply elem_of_nil in Hrows.
  - rewrite IH, elem_of_add_logins. split.
    + intros [[?|(row & ? & ? & ?)]|(rows & row & ? & ? & ? & ?)].
      * by left.
      * right. exists p, row. split; [by left | done].
      * right. exists rows, row. split; [by right | done].
    + intros [?|(rows & row & [->|?]%elem_of_cons & ? & ? & ?)].
      * left. by left.
      * left. right. by exists row.
      * right. by exists rows, row.
Qed.

(** C9. [fetchChatters] asks for pages of 1000, the first without a cursor
    and each later one with the cursor the page before it returned; it asks
    for one page at least and 20 at most, whatever the provider replies, and
    for a further page only after a page that came with a cursor. When no
    request fails it returns the set of the logins on the pages received,
    lowercased and trimmed, the empty ones left out. *)
Theorem C9_fetchChatters_is_bounded
    (arr : nat → list jsval) (o : oracle) (cid tok bid mid : option string)
    (h : heap) (e : env) :
  let '(r, h', e') := run arr o (fetchChatters cid tok bid mid) h e in
  let seg := segment e e' in
  (1 ≤ length seg ≤ 20)%nat
  ∧ follows_cursor cid tok bid mid None seg
  ∧ (∀ i en, seg !! i = Some en → (S i < length seg)%nat →
             failed en = false ∧ entry_cursor en ≠ None)
  ∧ store e' = store e
  ∧ match r with
    | Ok users =>
        users = snapshot_of seg
        ∧ NoDup users
        ∧ (∀ x, x ∈ users ↔
                ∃ rows login, rows ∈ pages_of seg ∧ Some login ∈ rows
                              ∧ x = trim (toLowerCase login) ∧ x ≠ "")
        ∧ (∀ en, en ∈ seg → failed en = false)
        ∧ (length seg = 20%nat
           ∨ ∃ en, last seg = Some en ∧ entry_cursor en = None)
    | Err x => ∃ en, last seg = Some en ∧ failed en = true
    end.
Proof.
  unfold fetchChatters.
  destruct (run_fetchChatters_loop arr o cid tok bid mid 20 [] None h e)
    as [seg Hseg].
  destruct (run arr o (fetchChatters_loop 20 cid tok bid mid [] None) h e)
    as [[r h'] e'].
  destruct Hseg as (Hlog & Hst & _ & _ & Hlen & Hne & Hfol & Hmid & Hr).
  rewrite (segment_app _ _ _ Hlog). cbv zeta.
  split. { split; [|done]. destruct seg; [by destruct Hne | simpl; lia]. }
  split; [done|]. split; [done|]. split; [done|].
  destruct r as [users|x]; [|done].
  destruct Hr as (-> & Hok & Hend).
  split; [done|]. split; [apply NoDup_snapshot_of|]. split; [|done].
  intros x. rewrite elem_of_foldl_add_logins. split.
  - intros [Hx|(rows & row & Hrows & Hrow & Hx & Hne')];
      [by apply elem_of_nil in Hx|].
    destruct row as [login|]; [by exists rows, login|].
    by rewrite Hx in Hne'.
  - intros (rows & login & Hrows & Hrow & Hx & Hne').
    right. by exists rows, (Some login).
Qed.

(** C9 at two pages that hold a name twice, in other cases and between
    blanks, a row without a login, an empty login and a blank one. *)
Lemma C9_witness :
  let o := scripted
             [ChattersReply
                (Ok (ChattersBody
                       (Some [Some "Alice"; Some " bob "; None; Some "";
                              Some "ALICE"; Some "  "])
                       (Some "c1")));
              page ["Carol"; "bob"]] in
  let '(r, _, e') := run quiet o
                       (fetchChatters (Some "cid") (Some "tok") (Some "b1")
                          (Some "mod1")) (heap0 ∅) env0 in
  r = Ok ["alice"; "bob"; "carol"]
  ∧ en_call <$> segment env0 e'
    = [GetChatters (Some "cid") (Some "tok") (Some "b1") (Some "mod1") 1000
         None;
       GetChatters (Some "cid") (Some "tok") (Some "b1") (Some "mod1") 1000
         (Some "c1")]
  ∧ (1 ≤ length (segment env0 e') ≤ 20)%nat
  ∧ follows_cursor (Some "cid") (Some "tok") (Some "b1") (Some "mod1") None
      (segment env0 e')
  ∧ ("bob" ∈ ["alice"; "bob"; "carol"] ↔
     ∃ rows login, rows ∈ pages_of (segment env0 e') ∧ Some login ∈ rows
                   ∧ "bob" = trim (toLowerCase login) ∧ "bob" ≠ "").
Proof.
  intros o.
  pose proof (C9_fetchChatters_is_bounded quiet o (Some "cid") (Some "tok")
                (Some "b1") (Some "mod1") (heap0 ∅) env0) as H.
  destruct (run quiet o
              (fetchChatters (Some "cid") (Some "tok") (Some "b1")
                 (Some "mod1")) (heap0 ∅) env0) as [[r h'] e'] eqn:Hrun.
  assert (r = Ok ["alice"; "bob"; "carol"]) as Hr.
  { vm_compute in Hrun. injection Hrun as <- _ _. reflexivity. }
  assert (en_call <$> segment env0 e'
          = [GetChatters (Some "cid") (Some "tok") (Some "b1") (Some "mod1")
               1000 None;
             GetChatters (Some "cid") (Some "tok") (Some "b1") (Some "mod1")
               1000 (Some "c1")]) as Hcalls.
  { vm_compute in Hrun. injection Hrun as _ _ <-. reflexivity. }
  cbv zeta in H. destruct H as (Hlen & Hfol & _ & _ & Hok).
  rewrite Hr in Hok. destruct Hok as (_ & _ & Hiff & _).
  split; [exact Hr|]. split; [exact Hcalls|]. split; [exact Hlen|].
  split; [exact Hfol|]. exact (Hiff "bob").
Defined.

(** A provider that returns a cursor with every page is asked 20 times. *)
Example fetchChatters_endless_cursor :
  let o := Oracle (λ _, 0%Z) (λ _, Err network_down)
             (λ n, Ok (ChattersBody (Some [Some (pretty n)]) (Some "more")))
             (λ _, Err network_down) (λ _, Err network_down) (λ _, None)
             (λ _, 0%nat) in
  let '(r, _, e') := run quiet o (fetchChatters None None None None)
                       (heap0 ∅) env0 in
  length (log e') = 20%nat
  ∧ (λ us, length us) <$> (match r with Ok us => Some us | Err _ => None end)
    = Some 20%nat.
Proof. vm_compute. done. Qed.

(** ** C4: refreshing the token *)

Section TokenFacts.
Context (arr : nat → list jsval) (o : oracle).

Lemma tenant_set_tenant sid a h : tenant (set_tenant sid a h) sid = a.
Proof. unfold tenant, set_tenant. simpl. apply lookup_total_insert_eq. Qed.

Lemma tenant_set_tenant_ne sid sid' a h :
  sid ≠ sid' → tenant (set_tenant sid a h) sid' = tenant h sid'.
Proof.
  intros Hne. unfold tenant, set_tenant. simpl.
  by apply lookup_total_insert_ne.
Qed.

(** The exchange of lines 115 to 124 and of lines 165 to 174. *)
Lemma run_refresh_now sid h e :
  run arr o (refresh_now sid) h e =
  let n := length (log e) in
  let a := tenant h sid in
  let h1 := set_queue (enqueue_into (queue h) (arr n)) h in
  let e1 := add_log (Entry (PostToken (clientId (cfg h)) (clientSecret (cfg h))
                              (refreshToken a)) (token_reply o n)) e in
  match token_reply o n with
  | Err x => (Err x, h1, e1)
  | Ok rsp =>
      let now := clock o (S n) in
      let e2 := add_log (Entry DateNow (Ok now)) e1 in
      let h2 := set_tenant sid (apply_refresh rsp now a) h1 in
      let out := persisted (sessions h2) in
      match io_fail o (S (S n)) with
      | None => (Ok tt, h2,
                 add_log (Entry (AuthStoreSave out) (Ok tt))
                   (set_authFile out e2))
      | Some x => (Err x, h2,
                   add_log (Entry (AuthStoreSave out) (Err x))
                     (cut_file o (S (S n)) out e2))
      end
  end.
Proof.
  unfold refresh_now. simpl.
  destruct (token_reply o (length (log e))) as [rsp|x]; simpl; [|done].
  rewrite !length_app. simpl. rewrite !Nat.add_1_r. unfold io_file.
  destruct (io_fail o (S (S (length (log e))))); reflexivity.
Qed.

Lemma run_ensureFreshToken_noop sid h e :
  truthy_str (refreshToken (tenant h sid)) = false
  ∨ truthy_num (tokenExpiresAt (tenant h sid)) = false →
  run arr o (ensureFreshToken sid) h e = (Ok tt, h, e).
Proof.
  intros H. unfold ensureFreshToken. simpl.
  destruct H as [-> | ->]; [done|]. by rewrite orb_true_r.
Qed.

Lemma run_ensureFreshToken_live sid h e :
  truthy_str (refreshToken (tenant h sid)) = true →
  truthy_num (tokenExpiresAt (tenant h sid)) = true →
  run arr o (ensureFreshToken sid) h e =
  let now := clock o (length (log e)) in
  let e1 := add_log (Entry DateNow (Ok now)) e in
  if (now <? default 0 (tokenExpiresAt (tenant h sid)) - 60000)%Z
  then (Ok tt, h, e1)
  else run arr o (refresh_now sid) h e1.
Proof.
  intros H1 H2. unfold ensureFreshToken. simpl. rewrite H1, H2. simpl.
  destruct (_ <? _)%Z; reflexivity.
Qed.

End TokenFacts.

Lemma lookup_persisted (ss : gmap string auth) (sid : string) :
  persisted ss !! sid
  = if decide (sid = "__proto__") then None else credentials <$> ss !! sid.
Proof.
  unfold persisted. rewrite lookup_fmap.
  destruct (decide (sid = "__proto__")) as [->|Hne].
  - by rewrite lookup_delete_eq.
  - by rewrite lookup_delete_ne.
Qed.

Lemma lookup_persisted_set_tenant sid a h :
  sid ≠ "__proto__" →
  persisted (sessions (set_tenant sid a h)) !! sid = Some (credentials a).
Proof.
  intros Hne. rewrite lookup_persisted, decide_False by done.
  unfold set_tenant. simpl. by rewrite lookup_insert_eq.
Qed.

(** C4 (amended). [ensureFreshToken] calls nothing and changes nothing when
    the tenant has no refresh token or no expiry; with both, it reads the
    clock and does nothing else when the expiry is more than 60 seconds
    ahead. Otherwise it makes exactly one exchange, with the tenant's
    refresh token; when the exchange succeeds the access token is replaced,
    the refresh token and the scopes are replaced only if the reply carries
    them (else kept), the expiry becomes the time read after the exchange
    plus the lifetime in seconds, and the credentials of the tenants, the
    refreshed ones among them, are written to the credential file; a
    tenant whose session id is [__proto__] is the one [persistAuth] leaves
    out of it. *)
Theorem C4_ensureFreshToken
    (arr : nat → list jsval) (o : oracle) (sid : string) (h : heap)
    (e : env) :
  let a := tenant h sid in
  let n := length (log e) in
  let '(r, h', e') := run arr o (ensureFreshToken sid) h e in
  (truthy_str (refreshToken a) = false ∨ truthy_num (tokenExpiresAt a) = false →
   r = Ok tt ∧ h' = h ∧ e' = e)
  ∧ (∀ exp, truthy_str (refreshToken a) = true →
       tokenExpiresAt a = Some exp → exp ≠ 0%Z →
       ((clock o n < exp - 60000)%Z →
        r = Ok tt ∧ h' = h ∧ store e' = store e ∧ authFile e' = authFile e
        ∧ segment e e' = [Entry DateNow (Ok (clock o n))])
       ∧ ((exp - 60000 ≤ clock o n)%Z →
          exchanges (segment e e') = 1%nat
          ∧ segment e e' !! 1%nat =
              Some (Entry (PostToken (clientId (cfg h)) (clientSecret (cfg h))
                             (refreshToken a)) (token_reply o (S n)))
          ∧ store e' = store e
          ∧ (∀ x, token_reply o (S n) = Err x →
                  r = Err x ∧ sessions h' = sessions h
                  ∧ authFile e' = authFile e)
          ∧ (∀ rsp, token_reply o (S n) = Ok rsp →
               tenant h' sid =
                 Auth (access_token rsp)
                   (if truthy_str (refresh_token rsp) then refresh_token rsp
                    else refreshToken a)
                   (Some (clock o (S (S n))
                          + default 0 (expires_in rsp) * 1000)%Z)
                   (moderatorId a) (meLogin a)
                   (match scope rsp with
                    | Some s => s
                    | None => tokenScopes a
                    end)
                   (broadcasterId a) (broadcasterLogin a) (current a)
                   (lastPollAt a) (lastError a)
               ∧ (∀ sid', sid' ≠ sid → tenant h' sid' = tenant h sid')
               ∧ segment e e' !! 3%nat =
                   Some (Entry (AuthStoreSave (persisted (sessions h')))
                           (match io_fail o (S (S (S n))) with
                            | None => Ok tt
                            | Some x => Err x
                            end))
               ∧ (io_fail o (S (S (S n))) = None →
                  r = Ok tt
                  ∧ authFile e' = Some (persisted (sessions h'))
                  ∧ (sid ≠ "__proto__" →
                     persisted (sessions h') !! sid
                     = Some (credentials (tenant h' sid))))))).
Proof.
  intros a n. destruct (run arr o (ensureFreshToken sid) h e)
    as [[r h'] e'] eqn:Hrun. split.
  - intros Hno. rewrite run_ensureFreshToken_noop in Hrun by done.
    by inversion Hrun.
  - intros exp Hrt Hexp Hne.
    rewrite run_ensureFreshToken_live in Hrun;
      [|done|fold a; rewrite Hexp; simpl; by apply negb_true_iff, Z.eqb_neq].
    cbv zeta in Hrun. fold a n in Hrun. rewrite Hexp in Hrun.
    change (default 0%Z (Some exp)) with exp in Hrun. split.
    + intros Hlt. apply Z.ltb_lt in Hlt. rewrite Hlt in Hrun.
      inversion Hrun; subst. repeat split; try done.
      by apply segment_app.
    + intros Hge. apply Z.ltb_ge in Hge. rewrite Hge in Hrun.
      rewrite run_refresh_now in Hrun. cbv zeta in Hrun. simpl in Hrun.
      rewrite length_app in Hrun. simpl in Hrun.
      replace (length (log e) + 1)%nat with (S n) in Hrun by (unfold n; lia).
      fold a in Hrun.
      destruct (token_reply o (S n)) as [rsp|x] eqn:Hreply.
      * destruct (io_fail o (S (S (S n)))) as [x|] eqn:Hio;
          inversion Hrun; subst; clear Hrun;
          (erewrite segment_app
             by (simpl; rewrite ?log_cut_file; simpl; rewrite <- !app_assoc;
                 reflexivity));
          (split; [done|]); (split; [done|]);
          (split; [simpl; by rewrite ?store_cut_file|]);
          (split; [done|]); intros ? [= <-];
          (split; [by rewrite tenant_set_tenant|]);
          (split; [by intros; rewrite tenant_set_tenant_ne|]);
          (split; [done|]); intros Hnone;
          first [ congruence
                | split; [done|]; split; [done|]; intros Hsid;
                  by rewrite lookup_persisted_set_tenant, tenant_set_tenant ].
      * inversion Hrun; subst; clear Hrun.
        erewrite segment_app by (simpl; rewrite <- !app_assoc; reflexivity).
        split; [done|]. split; [done|]. split; [done|]. split; [|done].
        by intros ? [= <-].
Qed.

(** ** The reconciliation tick, no other task interfering *)

Section TickFacts.
Context (o : oracle).

Lemma keeps_presence_refl a : keeps_presence a a.
Proof. by repeat split. Qed.

Lemma keeps_presence_apply_refresh rsp now a :
  keeps_presence a (apply_refresh rsp now a).
Proof. by repeat split. Qed.

Lemma run_refresh_now_quiet sid h e :
  run quiet o (refresh_now sid) h e =
  let n := length (log e) in
  let a := tenant h sid in
  let e1 := add_log (Entry (PostToken (clientId (cfg h)) (clientSecret (cfg h))
                              (refreshToken a)) (token_reply o n)) e in
  match token_reply o n with
  | Err x => (Err x, h, e1)
  | Ok rsp =>
      let now := clock o (S n) in
      let e2 := add_log (Entry DateNow (Ok now)) e1 in
      let h2 := set_tenant sid (apply_refresh rsp now a) h in
      let out := persisted (sessions h2) in
      match io_fail o (S (S n)) with
      | None => (Ok tt, h2,
                 add_log (Entry (AuthStoreSave out) (Ok tt))
                   (set_authFile out e2))
      | Some x => (Err x, h2,
                   add_log (Entry (AuthStoreSave out) (Err x))
                     (cut_file o (S (S n)) out e2))
      end
  end.
Proof.
  rewrite run_refresh_now. cbv zeta. unfold quiet.
  rewrite enqueue_into_nil, set_queue_same. reflexivity.
Qed.

(** What a token exchange may change, and what it tells on its outcome. *)
Lemma refresh_now_frame sid h e :
  ∃ seg,
    let '(r, h', e') := run quiet o (refresh_now sid) h e in
    log e' = log e ++ seg
    ∧ store e' = store e
    ∧ pages_of seg = []
    ∧ exchanges seg = 1%nat
    ∧ same_enricher h h'
    ∧ keeps_presence (tenant h sid) (tenant h' sid)
    ∧ (∀ sid', sid' ≠ sid → tenant h' sid' = tenant h sid')
    ∧ match r with
      | Ok _ => ∀ en, en ∈ seg → failed en = false
      | Err x => ∃ en, en ∈ seg ∧ failed en = true
      end.
Proof.
  rewrite run_refresh_now_quiet. cbv zeta.
  destruct (token_reply o (length (log e))) as [rsp|x].
  - destruct (io_fail o (S (S (length (log e))))) as [x|].
    + eexists [_; _; _]. simpl. rewrite log_cut_file, store_cut_file. simpl.
      rewrite <- !app_assoc. simpl.
      split; [reflexivity|]. split; [done|]. split; [done|]. split; [done|].
      split; [done|]. split.
      { rewrite tenant_set_tenant. apply keeps_presence_apply_refresh. }
      split; [by intros; apply tenant_set_tenant_ne|].
      eexists. split; [right; right; left|]; done.
    + eexists [_; _; _]. simpl. rewrite <- !app_assoc. simpl.
      split; [reflexivity|]. split; [done|]. split; [done|]. split; [done|].
      split; [done|]. split.
      { rewrite tenant_set_tenant. apply keeps_presence_apply_refresh. }
      split; [by intros; apply tenant_set_tenant_ne|].
      intros en Hen. repeat (apply elem_of_cons in Hen as [->|Hen]; [done|]).
      by apply elem_of_nil in Hen.
  - eexists [_]. simpl. split; [reflexivity|]. split; [done|].
    split; [done|]. split; [done|]. split; [done|].
    split; [apply keeps_presence_refl|]. split; [done|].
    eexists. split; [by left | done].
Qed.

Lemma ensureFreshToken_frame sid h e :
  ∃ seg,
    let '(r, h', e') := run quiet o (ensureFreshToken sid) h e in
    log e' = log e ++ seg
    ∧ store e' = store e
    ∧ pages_of seg = []
    ∧ same_enricher h h'
    ∧ keeps_presence (tenant h sid) (tenant h' sid)
    ∧ (∀ sid', sid' ≠ sid → tenant h' sid' = tenant h sid')
    ∧ match r with
      | Ok _ => ∀ en, en ∈ seg → failed en = false
      | Err x => ∃ en, en ∈ seg ∧ failed en = true
      end.
Proof.
  destruct (truthy_str (refreshToken (tenant h sid))) eqn:H1;
    [destruct (truthy_num (tokenExpiresAt (tenant h sid))) eqn:H2|].
  - rewrite run_ensureFreshToken_live by done. cbv zeta.
    destruct (_ <? _)%Z.
    + eexists [_]. simpl. split; [reflexivity|]. split; [done|].
      split; [done|]. split; [done|]. split; [apply keeps_presence_refl|].
      split; [done|]. by intros en ->%list_elem_of_singleton.
    + match goal with |- context [run quiet o _ h ?e1] =>
        destruct (refresh_now_frame sid h e1) as [seg Hseg];
        destruct (run quiet o (refresh_now sid) h e1) as [[r h'] e']
      end.
      destruct Hseg as (Hlog & Hst & Hpg & _ & Hen & Hkp & Hoth & Hr).
      eexists (_ :: seg). split.
      { rewrite Hlog. simpl. rewrite <- app_assoc. reflexivity. }
      split; [done|]. split; [done|]. split; [done|]. split; [done|].
      split; [done|]. destruct r.
      * intros en [->|?]%elem_of_cons; [done | by apply Hr].
      * destruct Hr as (en & ? & ?). exists en. split; [by right | done].
  - rewrite run_ensureFreshToken_noop by by right.
    exists []. rewrite app_nil_r. split; [done|]. split; [done|].
    split; [done|]. split; [done|]. split; [apply keeps_presence_refl|].
    split; [done|]. intros en Hen. by apply elem_of_nil in Hen.
  - rewrite run_ensureFreshToken_noop by by left.
    exists []. rewrite app_nil_r. split; [done|]. split; [done|].
    split; [done|]. split; [done|]. split; [apply keeps_presence_refl|].
    split; [done|]. intros en Hen. by apply elem_of_nil in Hen.
Qed.

(** The page loop leaves the memory and the store alone. *)
Lemma fetchChatters_frame cid tok bid mid h e :
  ∃ seg,
    let '(r, h', e') := run quiet o (fetchChatters cid tok bid mid) h e in
    log e' = log e ++ seg
    ∧ store e' = store e
    ∧ h' = h
    ∧ match r with
      | Ok next => next = snapshot_of seg ∧ ∀ en, en ∈ seg → failed en = false
      | Err x => ∃ en, en ∈ seg ∧ failed en = true
      end.
Proof.
  unfold fetchChatters.
  destruct (run_fetchChatters_loop quiet o cid tok bid mid 20 [] None h e)
    as [seg Hseg].
  destruct (run quiet o (fetchChatters_loop 20 cid tok bid mid [] None) h e)
    as [[r h'] e'].
  destruct Hseg as (Hlog & Hst & _ & Hh & _ & _ & _ & _ & Hr).
  exists seg. split; [done|]. split; [done|]. split.
  { by rewrite Hh, foldl_enqueue_quiet, set_queue_same. }
  destruct r as [next|x].
  - by destruct Hr as (? & ? & _).
  - destruct Hr as (en & Hlast & ?). exists en. split; [|done].
    by apply last_Some_elem_of.
Qed.

Lemma run_joins ts ch (l : list string) h e :
  ∃ seg,
    let '(r, h', e') :=
      run quiet o (for_each l (λ u, call_ (StoreEventJoin u ts ch))) h e in
    log e' = log e ++ seg
    ∧ h' = h
    ∧ pages_of seg = []
    ∧ match r with
      | Ok _ =>
          store e' = foldl (λ st u, Store.eventJoin u ts ch st) (store e) l
          ∧ ∀ en, en ∈ seg → failed en = false
      | Err x => ∃ en, en ∈ seg ∧ failed en = true
      end.
Proof.
  revert e. induction l as [|u l IH]; intros e.
  - exists []. simpl. rewrite app_nil_r. repeat split; try done.
    intros en Hen. by apply elem_of_nil in Hen.
  - rewrite run_for_each_cons. simpl. unfold io_event.
    destruct (io_fail o (length (log e))) as [x|]; simpl.
    + eexists [_]. simpl. rewrite log_cut_event.
      split; [reflexivity|]. split; [done|].
      split; [done|]. eexists. split; [by left | done].
    + match goal with |- context [run quiet o _ h ?e1] =>
        destruct (IH e1) as [seg Hseg];
        destruct (run quiet o
                    (for_each l (λ u, call_ (StoreEventJoin u ts ch))) h e1)
          as [[r h'] e']
      end.
      destruct Hseg as (Hlog & Hh & Hpg & Hr). eexists (_ :: seg). split.
      { rewrite Hlog. simpl. rewrite <- app_assoc. reflexivity. }
      split; [done|]. split; [done|]. destruct r.
      * destruct Hr as [Hst Hok]. split; [done|].
        intros en [->|?]%elem_of_cons; [done | by apply Hok].
      * destruct Hr as (en & ? & ?). exists en. split; [by right | done].
Qed.

Lemma run_leaves ts ch (l : list string) h e :
  ∃ seg,
    let '(r, h', e') :=
      run quiet o (for_each l (λ u, call_ (StoreEventLeave u ts ch))) h e in
    log e' = log e ++ seg
    ∧ h' = h
    ∧ pages_of seg = []
    ∧ match r with
      | Ok _ =>
          store e' = foldl (λ st u, Store.eventLeave u ts ch st) (store e) l
          ∧ ∀ en, en ∈ seg → failed en = false
      | Err x => ∃ en, en ∈ seg ∧ failed en = true
      end.
Proof.
  revert e. induction l as [|u l IH]; intros e.
  - exists []. simpl. rewrite app_nil_r. repeat split; try done.
    intros en Hen. by apply elem_of_nil in Hen.
  - rewrite run_for_each_cons. simpl. unfold io_event.
    destruct (io_fail o (length (log e))) as [x|]; simpl.
    + eexists [_]. simpl. rewrite log_cut_event.
      split; [reflexivity|]. split; [done|].
      split; [done|]. eexists. split; [by left | done].
    + match goal with |- context [run quiet o _ h ?e1] =>
        destruct (IH e1) as [seg Hseg];
        destruct (run quiet o
                    (for_each l (λ u, call_ (StoreEventLeave u ts ch))) h e1)
          as [[r h'] e']
      end.
      destruct Hseg as (Hlog & Hh & Hpg & Hr). eexists (_ :: seg). split.
      { rewrite Hlog. simpl. rewrite <- app_assoc. reflexivity. }
      split; [done|]. split; [done|]. destruct r.
      * destruct Hr as [Hst Hok]. split; [done|].
        intros en [->|?]%elem_of_cons; [done | by apply Hok].
      * destruct Hr as (en & ? & ?). exists en. split; [by right | done].
Qed.

End TickFacts.

Section TickRun.
Context (o : oracle).

(** The tenant and the enricher after a diff that went through. *)
Lemma run_reconcile sid ts next h e :
  ∃ seg,
    let a := tenant h sid in
    let joined := filter (λ u, JSSet.has u (current a) = false) next in
    let left := filter (λ u, JSSet.has u next = false) (current a) in
    let '(r, h', e') := run quiet o (reconcile sid ts next) h e in
    log e' = log e ++ seg
    ∧ pages_of seg = []
    ∧ match r with
      | Ok _ =>
          (∀ en, en ∈ seg → failed en = false)
          ∧ store e' =
              foldl (λ st u, Store.eventLeave u ts (broadcasterLogin a) st)
                (foldl (λ st u, Store.eventJoin u ts (broadcasterLogin a) st)
                   (store e) joined) left
          ∧ h' = set_tenant sid (set_lastError None (set_current next a))
                   (if negb (length joined =? 0)%nat
                      || negb (length left =? 0)%nat
                    then set_queue (enqueue_into (queue h) (JStr <$> joined))
                           (set_enrichToken (token a) h)
                    else h)
      | Err x => (∃ en, en ∈ seg ∧ failed en = true) ∧ h' = h
      end.
Proof.
  cbv zeta.
  destruct (run quiet o (reconcile sid ts next) h e) as [[r h'] e'] eqn:Hrun.
  unfold reconcile in Hrun. rewrite run_bind in Hrun. simpl in Hrun.
  set (a := tenant h sid) in *.
  set (joined := filter (λ u, JSSet.has u (current a) = false) next) in *.
  set (left := filter (λ u, JSSet.has u next = false) (current a)) in *.
  rewrite run_bind in Hrun.
  destruct (run_joins o ts (broadcasterLogin a) joined h e) as [seg1 H1].
  destruct (run quiet o
              (for_each joined
                 (λ u, call_ (StoreEventJoin u ts (broadcasterLogin a)))) h e)
    as [[r1 h1] e1].
  destruct H1 as (Hlog1 & -> & Hpg1 & Hr1).
  destruct r1 as [[]|x].
  2: { inversion Hrun; subst. exists seg1. by destruct Hr1 as (en & ? & ?); eauto 10. }
  destruct Hr1 as [Hst1 Hok1]. rewrite run_bind in Hrun.
  destruct (run_leaves o ts (broadcasterLogin a) left h e1) as [seg2 H2].
  destruct (run quiet o
              (for_each left
                 (λ u, call_ (StoreEventLeave u ts (broadcasterLogin a)))) h e1)
    as [[r2 h2] e2].
  destruct H2 as (Hlog2 & -> & Hpg2 & Hr2).
  exists (seg1 ++ seg2).
  destruct r2 as [[]|x].
  - destruct Hr2 as [Hst2 Hok2]. rewrite run_bind in Hrun.
    destruct (negb (length joined =? 0)%nat || negb (length left =? 0)%nat);
      simpl in Hrun; inversion Hrun; subst; clear Hrun.
    + split; [by rewrite Hlog2, Hlog1, app_assoc|].
      split; [by rewrite pages_of_app, Hpg1, Hpg2|].
      split; [by intros en [?|?]%elem_of_app; auto|].
      split; [by rewrite Hst2, Hst1|]. reflexivity.
    + split; [by rewrite Hlog2, Hlog1, app_assoc|].
      split; [by rewrite pages_of_app, Hpg1, Hpg2|].
      split; [by intros en [?|?]%elem_of_app; auto|].
      split; [by rewrite Hst2, Hst1|]. reflexivity.
  - inversion Hrun; subst; clear Hrun.
    split; [by rewrite Hlog2, Hlog1, app_assoc|].
    split; [by rewrite pages_of_app, Hpg1, Hpg2|].
    destruct Hr2 as (en & ? & ?). split; [|done].
    exists en. split; [|done]. apply elem_of_app. by right.
Qed.

End TickRun.

Section TickOutcome.
Context (o : oracle).

(** The [try] block: either a call failed and the presence set is as it
    was, or none failed and the diff against the fetched snapshot was
    written. *)
Lemma run_tickTry sid ts h e :
  ∃ seg,
    let a := tenant h sid in
    let '(r, h', e') := run quiet o (tickTry sid ts) h e in
    log e' = log e ++ seg
    ∧ cfg h' = cfg h ∧ running h' = running h
    ∧ (∀ sid', sid' ≠ sid → current (tenant h' sid') = current (tenant h sid'))
    ∧ match r with
      | Err x =>
          (∃ en, en ∈ seg ∧ failed en = true)
          ∧ keeps_presence a (tenant h' sid)
          ∧ queue h' = queue h
      | Ok _ =>
          (∀ en, en ∈ seg → failed en = false)
          ∧ let next := snapshot_of seg in
            let joined := filter (λ u, JSSet.has u (current a) = false) next in
            let left := filter (λ u, JSSet.has u next = false) (current a) in
            store e' =
              foldl (λ st u, Store.eventLeave u ts (broadcasterLogin a) st)
                (foldl (λ st u, Store.eventJoin u ts (broadcasterLogin a) st)
                   (store e) joined) left
            ∧ keeps_presence
                (set_lastError None (set_current next a)) (tenant h' sid)
            ∧ queue h' = enqueue_into (queue h) (JStr <$> joined)
      end.
Proof.
  cbv zeta.
  destruct (run quiet o (tickTry sid ts) h e) as [[r h'] e'] eqn:Hrun.
  unfold tickTry in Hrun. rewrite run_bind in Hrun.
  destruct (ensureFreshToken_frame o sid h e) as [seg1 H1].
  destruct (run quiet o (ensureFreshToken sid) h e) as [[r1 h1] e1].
  destruct H1 as (Hlog1 & Hst1 & Hpg1 & (Hcfg & Hq & Hrn & Het) & Hkp1
                  & Hoth1 & Hr1).
  assert (∀ sid', sid' ≠ sid →
            current (tenant h1 sid') = current (tenant h sid')) as Hothers1
    by by intros sid' ?; rewrite Hoth1.
  destruct r1 as [[]|x].
  2: { injection Hrun as <- <- <-. exists seg1. repeat split; try done.
       all: apply Hkp1. }
  cbv beta in Hrun. rewrite run_gets_bind in Hrun. cbv beta zeta in Hrun.
  unfold id in Hrun. rewrite run_bind in Hrun.
  set (a1 := tenant h1 sid) in *.
  destruct (fetchChatters_frame o (clientId (cfg h1)) (token a1)
              (broadcasterId a1) (moderatorId a1) h1 e1) as [seg2 H2].
  destruct (run quiet o
              (fetchChatters (clientId (cfg h1)) (token a1) (broadcasterId a1)
                 (moderatorId a1)) h1 e1) as [[r2 h2] e2].
  destruct H2 as (Hlog2 & Hst2 & -> & Hr2).
  destruct r2 as [next|x].
  2: { injection Hrun as <- <- <-. exists (seg1 ++ seg2).
       split; [by rewrite Hlog2, Hlog1, app_assoc|].
       split; [done|]. split; [done|]. split; [done|].
       destruct Hr2 as (en & ? & ?). split; [|done].
       exists en. split; [|done]. apply elem_of_app. by right. }
  destruct Hr2 as [-> Hok2].
  destruct (run_reconcile o sid ts (snapshot_of seg2) h1 e2) as [seg3 H3].
  cbv zeta in H3. rewrite Hrun in H3. fold a1 in H3.
  destruct H3 as (Hlog3 & Hpg3 & Hr3).
  exists (seg1 ++ seg2 ++ seg3).
  split; [by rewrite Hlog3, Hlog2, Hlog1, !app_assoc|].
  destruct Hkp1 as (Hcur & Herr & Hpoll & Hbl & Hbi & Hmi & Hme).
  destruct r as [[]|x].
  - destruct Hr3 as (Hok3 & Hst3 & ->).
    assert (snapshot_of (seg1 ++ seg2 ++ seg3) = snapshot_of seg2) as Hsnap.
    { unfold snapshot_of. by rewrite !pages_of_app, Hpg1, Hpg3, app_nil_r. }
    rewrite Hsnap, <- Hcur, <- Hbl.
    split; [by destruct (_ || _)|]. split; [by destruct (_ || _)|].
    split.
    { intros sid' Hne. rewrite tenant_set_tenant_ne by done.
      rewrite <- Hothers1 by done. by destruct (_ || _). }
    split.
    { intros en [?|[?|?]%elem_of_app]%elem_of_app; auto. }
    split; [by rewrite Hst3, Hst2, Hst1|]. split.
    + rewrite tenant_set_tenant. repeat split; simpl; congruence.
    + destruct (negb (length _ =? 0)%nat) eqn:Hj; simpl.
      * by rewrite Hq.
      * apply negb_false_iff, Nat.eqb_eq, length_zero_iff_nil in Hj.
        rewrite Hj. destruct (negb _); simpl; by rewrite Hq.
  - destruct Hr3 as [(en & ? & ?) ->]. split; [done|]. split; [done|].
    split; [done|]. split.
    { exists en. split; [|done]. rewrite !elem_of_app. auto. }
    split; [|done]. unfold keeps_presence. fold a1. by repeat split.
Qed.

End TickOutcome.

Section TickOne.
Context (o : oracle).

Lemma run_tickOne_skip arr sid h e :
  ready h sid = false → run arr o (tickOne sid) h e = (Ok tt, h, e).
Proof.
  unfold ready, tickOne. intros H. rewrite run_gets_bind. cbv beta zeta.
  unfold id.
  assert (negb (truthy_str (clientId (cfg h)))
          || negb (truthy_str (token (tenant h sid)))
          || negb (truthy_str (broadcasterId (tenant h sid)))
          || negb (truthy_str (moderatorId (tenant h sid)))
          || negb (truthy_str (broadcasterLogin (tenant h sid))) = true) as ->;
    [|done].
  rewrite <- !negb_andb. by rewrite H.
Qed.

Lemma run_tickOne_ready sid h e :
  ready h sid = true →
  run quiet o (tickOne sid) h e =
  let ts := clock o (length (log e)) in
  let h0 := set_tenant sid (set_lastPollAt (Some ts) (tenant h sid)) h in
  let e0 := add_log (Entry DateNow (Ok ts)) e in
  let '(r, h1, e1) := run quiet o (tickTry sid ts) h0 e0 in
  match r with
  | Ok _ => (Ok tt, h1, e1)
  | Err x => run quiet o (tickCatch sid x) h1 e1
  end.
Proof.
  unfold ready, tickOne. intros H. rewrite run_gets_bind. cbv beta zeta.
  unfold id.
  assert (negb (truthy_str (clientId (cfg h)))
          || negb (truthy_str (token (tenant h sid)))
          || negb (truthy_str (broadcasterId (tenant h sid)))
          || negb (truthy_str (moderatorId (tenant h sid)))
          || negb (truthy_str (broadcasterLogin (tenant h sid))) = false) as ->.
  { rewrite <- !negb_andb. by rewrite H. }
  rewrite run_bind. simpl run at 1. cbv beta iota.
  rewrite run_bind. simpl run at 1. cbv beta iota.
  rewrite run_try_catch.
  destruct (run quiet o (tickTry sid (clock o (length (log e)))) _ _)
    as [[[[]|x] h1] e1]; reflexivity.
Qed.

(** The [catch] block. *)
Lemma run_tickCatch sid err h e :
  run quiet o (tickCatch sid err) h e =
  let a := tenant h sid in
  if bool_decide (err_status err = Some 401%Z) && truthy_str (refreshToken a)
  then
    let '(r, h', e') := run quiet o (refresh_now sid) h e in
    match r with
    | Ok _ => (Ok tt, h', e')
    | Err e2 =>
        (Ok tt,
         set_tenant sid (set_lastError (Some (error_text e2)) (tenant h' sid))
           h', e')
    end
  else (Ok tt, set_tenant sid (set_lastError (Some (error_text err)) a) h, e).
Proof.
  unfold tickCatch. rewrite run_gets_bind. cbv beta zeta.
  destruct (_ && _); [|reflexivity].
  rewrite run_try_catch.
  destruct (run quiet o (refresh_now sid) h e) as [[[[]|x] h'] e'];
    reflexivity.
Qed.

End TickOne.

(** ** C3: the tick catches what is thrown *)

(** C3 (amended). No exception escapes [tickOne]. When the [try] block
    throws, the presence set of the tenant is what it was. If what was
    thrown is a 401 response and the tenant has a refresh token, exactly one
    exchange is made: if it fails, its error is recorded as the last error;
    if it succeeds and the credential file is written, no error is recorded;
    if it succeeds and writing the credential file fails, that failure is
    recorded. In every other case no call follows and the error thrown is
    recorded as the last error. *)
Theorem C3_tick_catches_errors (o : oracle) (sid : string) (h : heap) (e : env) :
  let '(r, h', e') := run quiet o (tickOne sid) h e in
  r = Ok tt
  ∧ (ready h sid = true →
     let ts := clock o (length (log e)) in
     ∀ err h1 e1,
       run quiet o (tickTry sid ts)
         (set_tenant sid (set_lastPollAt (Some ts) (tenant h sid)) h)
         (add_log (Entry DateNow (Ok ts)) e) = (Err err, h1, e1) →
       let n := length (log e1) in
       current (tenant h' sid) = current (tenant h sid)
       ∧ (err_status err = Some 401%Z
          ∧ truthy_str (refreshToken (tenant h1 sid)) = true →
          exchanges (segment e1 e') = 1%nat
          ∧ (∀ e2, token_reply o n = Err e2 →
                   lastError (tenant h' sid) = Some (error_text e2))
          ∧ (∀ rsp, token_reply o n = Ok rsp →
               (io_fail o (S (S n)) = None →
                lastError (tenant h' sid) = lastError (tenant h sid))
               ∧ (∀ x, io_fail o (S (S n)) = Some x →
                       lastError (tenant h' sid) = Some (error_text x))))
       ∧ (¬ (err_status err = Some 401%Z
             ∧ truthy_str (refreshToken (tenant h1 sid)) = true) →
          segment e1 e' = []
          ∧ lastError (tenant h' sid) = Some (error_text err))).
Proof.
  destruct (run quiet o (tickOne sid) h e) as [[r h'] e'] eqn:Hrun.
  destruct (ready h sid) eqn:Hready.
  2: { rewrite run_tickOne_skip in Hrun by done. by injection Hrun as <- <- <-. }
  rewrite run_tickOne_ready in Hrun by done. cbv zeta in Hrun. cbv zeta.
  set (ts := clock o (length (log e))) in *.
  set (h0 := set_tenant sid (set_lastPollAt (Some ts) (tenant h sid)) h) in *.
  set (e0 := add_log (Entry DateNow (Ok ts)) e) in *.
  destruct (run_tickTry o sid ts h0 e0) as [seg Hseg]. cbv zeta in Hseg.
  destruct (run quiet o (tickTry sid ts) h0 e0) as [[rt h1] e1].
  destruct rt as [[]|err].
  { injection Hrun as <- <- <-. split; [done|]. by intros _ ???. }
  destruct Hseg as (_ & _ & _ & _ & _ & Hkp & _).
  unfold h0 in Hkp at 1. rewrite tenant_set_tenant in Hkp.
  destruct Hkp as (Hcur & Herr & _). simpl in Hcur, Herr.
  rewrite run_tickCatch in Hrun. cbv zeta in Hrun.
  destruct (bool_decide (err_status err = Some 401%Z)) eqn:Hst;
    [destruct (truthy_str (refreshToken (tenant h1 sid))) eqn:Hrt|];
    cbn [andb] in Hrun.
  - rewrite run_refresh_now_quiet in Hrun. cbv zeta in Hrun.
    apply bool_decide_eq_true in Hst.
    destruct (token_reply o (length (log e1))) as [rsp|e2] eqn:Htok.
    + destruct (io_fail o (S (S (length (log e1))))) as [x|] eqn:Hio;
        injection Hrun as <- <- <-; (split; [done|]); intros _ ??? [= <- <- <-];
        cbv zeta; rewrite ?tenant_set_tenant; (split; [done|]);
        (split; [|by intros []]); intros _;
        (erewrite segment_app
           by (simpl; rewrite ?log_cut_file; simpl; rewrite <- !app_assoc;
               reflexivity));
        (split; [done|]); rewrite Htok, Hio; (split; [done|]);
        intros ? [= <-]; (split; [done|]); by intros ? [= <-].
    + injection Hrun as <- <- <-. split; [done|]. intros _ ??? [= <- <- <-].
      cbv zeta. rewrite tenant_set_tenant. split; [done|].
      split; [|by intros []]. intros _.
      erewrite segment_app by (simpl; reflexivity).
      split; [done|]. rewrite Htok. split; [by intros ? [= <-] | done].
  - injection Hrun as <- <- <-. split; [done|]. intros _ ??? [= <- <- <-].
    cbv zeta. rewrite tenant_set_tenant. split; [done|].
    split; [intros [_ ?]; congruence|]. intros _.
    by rewrite segment_refl.
  - injection Hrun as <- <- <-. split; [done|]. intros _ ??? [= <- <- <-].
    cbv zeta. rewrite tenant_set_tenant. split; [done|].
    apply bool_decide_eq_false in Hst.
    split; [by intros [? _]|]. intros _. by rewrite segment_refl.
Qed.

(** ** Joins and leaves on the store *)

Module DiffFacts.
Import Store.

Lemma count_insert (P : session → bool) (l : list session) i x y :
  l !! i = Some x →
  (length (filter (λ r, P r = true) (<[i:=y]> l)) + (if P x then 1 else 0)
   = length (filter (λ r, P r = true) l) + (if P y then 1 else 0))%nat.
Proof.
  intros Hi. rewrite (insert_take_drop l i y) by by eapply lookup_lt_Some.
  rewrite <- (take_drop_middle l i x Hi) at 3.
  rewrite !filter_app, !filter_cons, !length_app.
  destruct (P x), (P y); simpl;
    repeat (rewrite decide_True by done); repeat (rewrite decide_False by done);
    simpl; lia.
Qed.

Lemma eventLeave_cases u ts ch st :
  (open_count u ch st = 0%nat
   ∧ sessions (eventLeave u ts ch st) = sessions st)
  ∨ (∃ i r, sessions st !! i = Some r ∧ is_open_for u ch r = true
            ∧ sessions (eventLeave u ts ch st) =
                <[i := close ts (Z.max 0 ((ts - ss_joined_at r) / 1000)) r]>
                  (sessions st)).
Proof.
  destruct (decide (open_count u ch st = 0%nat)) as [H0|Hne].
  - left. split; [done|]. by rewrite StoreFacts.eventLeave_closed.
  - right. destruct (StoreFacts.eventLeave_open u ts ch st Hne)
      as (i & r & Hi & Hopen & _ & ->). by exists i, r.
Qed.

Lemma events_eventLeave u ts ch st :
  events (eventLeave u ts ch st) = events st ++ [Event u leave ts ch].
Proof.
  destruct (decide (open_count u ch st = 0%nat)) as [H0|Hne].
  - by rewrite StoreFacts.eventLeave_closed.
  - destruct (StoreFacts.eventLeave_open u ts ch st Hne)
      as (i & r & _ & _ & _ & ->). done.
Qed.

Lemma is_open_for_close u ch ts dur r : is_open_for u ch (close ts dur r) = false.
Proof.
  unfold is_open_for, close. simpl.
  by rewrite andb_false_r.
Qed.

Lemma is_open_for_username u u' ch ch' r :
  is_open_for u ch r = true → is_open_for u' ch' r = true → u = u'.
Proof.
  unfold is_open_for. intros H1 H2.
  apply andb_true_iff in H1 as [[H1 _]%andb_true_iff _].
  apply andb_true_iff in H2 as [[H2 _]%andb_true_iff _].
  apply bool_decide_eq_true in H1, H2. congruence.
Qed.

Lemma open_count_eventLeave u' u ts ch st :
  open_count u' ch (eventLeave u ts ch st) =
  (open_count u' ch st - (if bool_decide (u' = u) then 1 else 0))%nat.
Proof.
  unfold open_count at 1 2.
  destruct (eventLeave_cases u ts ch st) as [[H0 ->]|(i & r & Hi & Hopen & ->)].
  - case_bool_decide; [subst; unfold open_count in H0|]; lia.
  - pose proof (count_insert (is_open_for u' ch) (sessions st) i r
                  (close ts (Z.max 0 ((ts - ss_joined_at r) / 1000)) r) Hi)
      as Hc.
    rewrite is_open_for_close in Hc. case_bool_decide as Hu.
    + subst u'. rewrite Hopen in Hc. lia.
    + destruct (is_open_for u' ch r) eqn:Hopen'; [|lia].
      destruct Hu. eapply is_open_for_username; done.
Qed.

Lemma open_count_eventJoin u' u ts c st :
  open_count u' (Some c) (eventJoin u ts (Some c) st) =
  (open_count u' (Some c) st + (if bool_decide (u' = u) then 1 else 0))%nat.
Proof.
  unfold open_count, eventJoin. simpl. rewrite filter_app, length_app.
  f_equal. rewrite filter_cons. unfold is_open_for at 1. simpl.
  destruct (decide (u' = u)) as [->|Hne].
  - rewrite decide_True; [by rewrite bool_decide_eq_true_2|].
    unfold is_open_for. simpl. by rewrite !bool_decide_eq_true_2.
  - rewrite decide_False; [by rewrite bool_decide_eq_false_2|].
    unfold is_open_for. simpl.
    by rewrite (bool_decide_eq_false_2 (u = u')) by done.
Qed.

Lemma open_count_joins u' ts c (l : list string) st :
  NoDup l →
  open_count u' (Some c) (foldl (λ st u, eventJoin u ts (Some c) st) st l) =
  (open_count u' (Some c) st + (if bool_decide (u' ∈ l) then 1 else 0))%nat.
Proof.
  intros Hnd. revert st. induction Hnd as [|u l Hu Hnd IH]; intros st; simpl.
  - rewrite ?bool_decide_eq_false_2 by apply not_elem_of_nil. lia.
  - rewrite IH, open_count_eventJoin.
    repeat case_bool_decide; subst; try lia;
      rewrite ?elem_of_cons in *; solve_logic.
Qed.

Lemma open_count_leaves u' ts ch (l : list string) st :
  NoDup l →
  open_count u' ch (foldl (λ st u, eventLeave u ts ch st) st l) =
  (open_count u' ch st - (if bool_decide (u' ∈ l) then 1 else 0))%nat.
Proof.
  intros Hnd. revert st. induction Hnd as [|u l Hu Hnd IH]; intros st; simpl.
  - rewrite ?bool_decide_eq_false_2 by apply not_elem_of_nil. lia.
  - rewrite IH, open_count_eventLeave.
    repeat case_bool_decide; subst; try lia;
      rewrite ?elem_of_cons in *; solve_logic.
Qed.

Lemma events_joins ts ch (l : list string) st :
  events (foldl (λ st u, eventJoin u ts ch st) st l) =
  events st ++ ((λ u, Event u join ts ch) <$> l).
Proof.
  revert st. induction l as [|u l IH]; intros st; simpl.
  - by rewrite app_nil_r.
  - rewrite IH. simpl. by rewrite <- app_assoc.
Qed.

Lemma sessions_joins ts ch (l : list string) st :
  sessions (foldl (λ st u, eventJoin u ts ch st) st l) =
  sessions st ++ ((λ u, Session u ts None None ch) <$> l).
Proof.
  revert st. induction l as [|u l IH]; intros st; simpl.
  - by rewrite app_nil_r.
  - rewrite IH. simpl. by rewrite <- app_assoc.
Qed.

Lemma events_leaves ts ch (l : list string) st :
  events (foldl (λ st u, eventLeave u ts ch st) st l) =
  events st ++ ((λ u, Event u leave ts ch) <$> l).
Proof.
  revert st. induction l as [|u l IH]; intros st; simpl.
  - by rewrite app_nil_r.
  - rewrite IH, events_eventLeave. by rewrite <- app_assoc.
Qed.

(** A leave touches no row that is not an open row of the leaver: rows at
    the end of the table that belong to others stay in place. *)
Lemma sessions_eventLeave_suffix u ts ch st old new :
  sessions st = old ++ new →
  (∀ r, r ∈ new → ss_username r ≠ u) →
  ∃ old', sessions (eventLeave u ts ch st) = old' ++ new
          ∧ length old' = length old.
Proof.
  intros Hs Hnew.
  destruct (eventLeave_cases u ts ch st) as [[_ ->]|(i & r & Hi & Hopen & ->)].
  - by exists old.
  - rewrite Hs in *. assert (i < length old)%nat as Hlt.
    { destruct (decide (i < length old)%nat) as [|Hge]; [done|].
      rewrite lookup_app_r in Hi by lia.
      apply list_elem_of_lookup_2, Hnew in Hi. destruct Hi.
      unfold is_open_for in Hopen.
      apply andb_true_iff in Hopen as [[H1 _]%andb_true_iff _].
      by apply bool_decide_eq_true in H1. }
    rewrite insert_app_l by done. eexists. split; [done|].
    by rewrite length_insert.
Qed.

Lemma sessions_leaves_suffix ts ch (l : list string) st old new :
  sessions st = old ++ new →
  (∀ r u, r ∈ new → u ∈ l → ss_username r ≠ u) →
  ∃ old', sessions (foldl (λ st u, eventLeave u ts ch st) st l) = old' ++ new
          ∧ length old' = length old.
Proof.
  revert st old. induction l as [|u l IH]; intros st old Hs Hnew; simpl.
  - by exists old.
  - destruct (sessions_eventLeave_suffix u ts ch st old new Hs)
      as (old1 & Hs1 & Hlen1).
    { intros r Hr. apply Hnew; [done | by left]. }
    destruct (IH (eventLeave u ts ch st) old1 Hs1) as (old' & Hs' & Hlen').
    { intros r v Hr Hv. apply Hnew; [done | by right]. }
    exists old'. split; [done | congruence].
Qed.

End DiffFacts.

Lemma filter_has_false (s l : list string) :
  filter (λ u, JSSet.has u s = false) l = filter (λ u, u ∉ s) l.
Proof.
  apply list_filter_iff. intros u. apply JSSetFacts.has_false.
Qed.

Lemma truthy_str_Some (x : option string) :
  truthy_str x = true → ∃ s, x = Some s ∧ s ≠ "".
Proof.
  destruct x as [s|]; [|done]. simpl. intros H%eqb_empty_false. by exists s.
Qed.

(** The names of a snapshot are not empty and are in lower case. *)
Lemma snapshot_of_login seg x :
  x ∈ snapshot_of seg → x ≠ "" ∧ toLowerCase x = x.
Proof.
  unfold snapshot_of. rewrite elem_of_foldl_add_logins.
  intros [H|(rows & row & _ & _ & -> & Hne)]; [by apply elem_of_nil in H|].
  split; [done | apply toLowerCase_login].
Qed.

Lemma elem_of_enqueue_logins q (l : list string) x :
  (∀ y, y ∈ l → y ≠ "" ∧ toLowerCase y = y) →
  x ∈ enqueue_into q (JStr <$> l) ↔ x ∈ q ∨ x ∈ l.
Proof.
  intros Hl. rewrite elem_of_enqueue_into. split.
  - intros [?|(u & (y & -> & Hy)%list_elem_of_fmap & _ & ->)]; [by left|].
    right. simpl. by rewrite (proj2 (Hl y Hy)).
  - intros [?|Hx]; [by left|]. right. exists (JStr x). split.
    + apply list_elem_of_fmap. by exists x.
    + destruct (Hl x Hx) as [Hne Hlow]. simpl. split; [|done].
      by apply eqb_empty_false.
Qed.

(** ** C2: the successful tick *)

Section SuccessfulTick.
Context (o : oracle).

(** What a tick that acted and saw no call fail did. *)
Lemma successful_tick sid h e r h' e' :
  ready h sid = true →
  run quiet o (tickOne sid) h e = (r, h', e') →
  (∀ en, en ∈ segment e e' → failed en = false) →
  let a := tenant h sid in
  let ts := clock o (length (log e)) in
  let next := snapshot_of (segment e e') in
  let joined := filter (λ u, u ∉ current a) next in
  let left := filter (λ u, u ∉ next) (current a) in
  store e' =
    foldl (λ st u, Store.eventLeave u ts (broadcasterLogin a) st)
      (foldl (λ st u, Store.eventJoin u ts (broadcasterLogin a) st)
         (store e) joined) left
  ∧ keeps_presence
      (set_lastError None (set_current next (set_lastPollAt (Some ts) a)))
      (tenant h' sid)
  ∧ queue h' = enqueue_into (queue h) (JStr <$> joined)
  ∧ cfg h' = cfg h ∧ running h' = running h.
Proof.
  intros Hready Hrun Hok. cbv zeta.
  rewrite run_tickOne_ready in Hrun by done. cbv zeta in Hrun.
  set (ts := clock o (length (log e))) in *.
  set (h0 := set_tenant sid (set_lastPollAt (Some ts) (tenant h sid)) h) in *.
  set (e0 := add_log (Entry DateNow (Ok ts)) e) in *.
  destruct (run_tickTry o sid ts h0 e0) as [seg Hseg]. cbv zeta in Hseg.
  destruct (run quiet o (tickTry sid ts) h0 e0) as [[rt h1] e1].
  destruct Hseg as (Hlog & Hcfg & Hrn & _ & Hrt).
  destruct rt as [[]|err].
  - injection Hrun as <- <- <-.
    assert (segment e e1 = Entry DateNow (Ok ts) :: seg) as Hsegm.
    { apply segment_app. rewrite Hlog. simpl. by rewrite <- app_assoc. }
    rewrite Hsegm in *.
    change (snapshot_of (Entry DateNow (Ok ts) :: seg)) with (snapshot_of seg).
    destruct Hrt as (_ & Hst & Hkp & Hq).
    unfold h0 in Hst, Hkp, Hq. rewrite tenant_set_tenant in Hst, Hkp, Hq.
    simpl in Hst, Hkp, Hq. rewrite !filter_has_false in Hq.
    rewrite (filter_has_false (current (tenant h sid))) in Hst.
    rewrite (filter_has_false (snapshot_of seg)) in Hst.
    done.
  - destruct Hrt as [(en & Hen & Hf) _].
    destruct (run_log quiet o (tickCatch sid err) h1 e1) as [seg' Hlog'].
    rewrite Hrun in Hlog'. simpl in Hlog'.
    assert (en ∈ segment e e') as Hin.
    { erewrite segment_app; [|rewrite Hlog', Hlog; simpl;
                              rewrite <- !app_assoc; reflexivity].
      rewrite !elem_of_app. right. by left. }
    apply Hok in Hin. congruence.
Qed.

End SuccessfulTick.

(** C2 (amended). A tick that acts and sees none of its calls fail, with
    snapshot [next] and previous presence set [prev]: for each name of
    [next − prev] it appends one join event and opens one new session, both
    at the tick's timestamp; for each name of [prev − next] it appends one
    leave event and closes one open session of that name if it has one
    (none is closed for a name without an open session); it enqueues the
    joined names and no other; afterwards the presence set is [next] and the
    last error is null. *)
Theorem C2_successful_tick
    (o : oracle) (sid : string) (h : heap) (e : env) :
  ready h sid = true →
  NoDup (current (tenant h sid)) →
  let '(r, h', e') := run quiet o (tickOne sid) h e in
  (∀ en, en ∈ segment e e' → failed en = false) →
  let a := tenant h sid in
  let ts := clock o (length (log e)) in
  let ch := broadcasterLogin a in
  let next := snapshot_of (segment e e') in
  let joined := filter (λ u, u ∉ current a) next in
  let left := filter (λ u, u ∉ next) (current a) in
  NoDup joined ∧ NoDup left
  ∧ Store.events (store e') =
      Store.events (store e)
      ++ ((λ u, Store.Event u Store.join ts ch) <$> joined)
      ++ ((λ u, Store.Event u Store.leave ts ch) <$> left)
  ∧ (∃ old, Store.sessions (store e') =
              old ++ ((λ u, Store.Session u ts None None ch) <$> joined)
            ∧ length old = length (Store.sessions (store e)))
  ∧ (∀ u, Store.open_count u ch (store e') =
          (Store.open_count u ch (store e)
           + (if bool_decide (u ∈ joined) then 1 else 0)
           - (if bool_decide (u ∈ left) then 1 else 0))%nat)
  ∧ store e' =
      foldl (λ st u, Store.eventLeave u ts ch st)
        (foldl (λ st u, Store.eventJoin u ts ch st) (store e) joined) left
  ∧ (∀ x, x ∈ queue h' ↔ x ∈ queue h ∨ x ∈ joined)
  ∧ current (tenant h' sid) = next
  ∧ lastError (tenant h' sid) = None
  ∧ lastPollAt (tenant h' sid) = Some ts.
Proof.
  intros Hready Hnd.
  destruct (run quiet o (tickOne sid) h e) as [[r h'] e'] eqn:Hrun.
  intros Hok.
  destruct (successful_tick o sid h e r h' e' Hready Hrun Hok)
    as (Hst & Hkp & Hq & _).
  cbv zeta.
  set (a := tenant h sid) in *. set (ts := clock o (length (log e))) in *.
  set (next := snapshot_of (segment e e')) in *.
  set (joined := filter (λ u, u ∉ current a) next) in *.
  set (left := filter (λ u, u ∉ next) (current a)) in *.
  assert (∃ c, broadcasterLogin a = Some c) as [c Hc].
  { unfold ready in Hready. apply andb_true_iff in Hready as [_ Hbl].
    apply truthy_str_Some in Hbl as (c & ? & _). by exists c. }
  assert (NoDup joined) as Hndj by apply NoDup_filter, NoDup_snapshot_of.
  assert (NoDup left) as Hndl by by apply NoDup_filter.
  split; [done|]. split; [done|]. split.
  { by rewrite Hst, DiffFacts.events_leaves, DiffFacts.events_joins,
      <- app_assoc. }
  split.
  { rewrite Hst. apply DiffFacts.sessions_leaves_suffix.
    - apply DiffFacts.sessions_joins.
    - intros r0 u (v & -> & Hv)%list_elem_of_fmap Hu. simpl. intros ->.
      apply list_elem_of_filter in Hv as [Hv _].
      by apply list_elem_of_filter in Hu as [_ Hu]. }
  split.
  { intros u. rewrite Hst, Hc, DiffFacts.open_count_leaves by done.
    by rewrite DiffFacts.open_count_joins. }
  split; [done|]. split.
  { intros x. rewrite Hq. apply elem_of_enqueue_logins.
    intros y [_ Hy]%list_elem_of_filter. by eapply snapshot_of_login. }
  destruct Hkp as (Hcur & Herr & Hpoll & _). done.
Qed.

Lemma is_open_for_iff u ch r :
  Store.is_open_for u (Some ch) r = true ↔
  Store.ss_username r = u ∧ Store.ss_left_at r = None
  ∧ Store.ss_channel_login r = Some ch.
Proof.
  unfold Store.is_open_for. rewrite !andb_true_iff, !bool_decide_eq_true.
  destruct (Store.ss_channel_login r) as [c|]; simpl.
  - rewrite bool_decide_eq_true. solve_logic.
  - solve_logic.
Qed.

Lemma open_count_pos u ch st :
  Store.open_count u ch st ≠ 0%nat ↔
  ∃ r, r ∈ Store.sessions st ∧ Store.is_open_for u ch r = true.
Proof.
  split.
  - unfold Store.open_count. intros Hne.
    destruct (filter _ (Store.sessions st)) as [|r rows] eqn:Hf; [done|].
    exists r. assert (r ∈ r :: rows) as Hin by by left.
    rewrite <- Hf in Hin. apply list_elem_of_filter in Hin as [? ?]. done.
  - intros (r & Hin & Hopen) H0. rewrite open_count_0 in H0.
    specialize (H0 r Hin). congruence.
Qed.

Lemma filter_none {A : Type} (P : A → Prop) `{!∀ x, Decision (P x)}
    (l : list A) :
  (∀ x, x ∈ l → ¬ P x) → filter P l = [].
Proof.
  induction l as [|x l IH]; intros Hno; [done|].
  rewrite filter_cons, decide_False by (apply Hno; by left).
  apply IH. intros y ?. apply Hno. by right.
Qed.

(** With no open session for the channel the presence set rebuilt from the
    store is empty. *)
Lemma getOpenSet_none ch st :
  (∀ r, r ∈ Store.sessions st →
        ¬ (Store.ss_left_at r = None ∧ Store.ss_channel_login r = Some ch)) →
  Store.getOpenSet (Some ch) st = []
  ∧ ∀ u, Store.open_count u (Some ch) st = 0%nat.
Proof.
  intros Hnone. split.
  - unfold Store.getOpenSet.
    rewrite filter_none; [done|]. intros r Hr Hopen.
    apply andb_true_iff in Hopen as [Hl Hc]. apply bool_decide_eq_true in Hl.
    apply (Hnone r Hr). split; [done|].
    destruct (Store.ss_channel_login r) as [c|]; simpl in Hc; [|done].
    apply bool_decide_eq_true in Hc. by subst.
  - intros u. apply open_count_0. intros r Hr.
    destruct (Store.is_open_for u (Some ch) r) eqn:Hopen; [|done].
    apply is_open_for_iff in Hopen as (_ & ? & ?). by destruct (Hnone r Hr).
Qed.

(** * Worked instances *)

(** C10 at a store whose only session of alice is closed. *)
Lemma C10_witness :
  let u := "alice" in
  let ch := "chan" in
  let ts := 3000%Z in
  let st := none_open in
  (∀ r, r ∈ Store.sessions st → Store.is_open_for u (Some ch) r = false)
  ∧ Store.eventLeave u ts (Some ch) st =
      Store.Make
        (Store.events st ++ [Store.Event u Store.leave ts (Some ch)])
        (Store.sessions st) (Store.users st)
  ∧ ∀ arr o h e,
      store e = st → io_fail o (length (log e)) = None →
      ∃ e', run arr o (call_ (StoreEventLeave u ts (Some ch))) h e
              = (Ok tt, h, e')
            ∧ store e' = Store.eventLeave u ts (Some ch) st.
Proof.
  intros u ch ts st.
  assert (∀ r, r ∈ Store.sessions st →
               Store.is_open_for u (Some ch) r = false) as Hnone.
  { intros r Hr.
    repeat (apply elem_of_cons in Hr as [->|Hr]; [reflexivity|]).
    by apply elem_of_nil in Hr. }
  split; [exact Hnone|].
  exact (C10_eventLeave_without_open_session u ch ts st Hnone).
Defined.

(** C5 at a store with two open sessions of alice, the leave being stamped
    before the later of them was joined. *)
Lemma C5_witness :
  let u := "alice" in
  let ch := "chan" in
  let ts := 3000%Z in
  let st := two_open in
  (∃ r, r ∈ Store.sessions st ∧ Store.is_open_for u (Some ch) r = true)
  ∧ ∃ (i : nat) (r : Store.session),
      Store.sessions st !! i = Some r
      ∧ Store.ss_username r = u
      ∧ Store.ss_channel_login r = Some ch
      ∧ Store.ss_left_at r = None
      ∧ (∀ r', r' ∈ Store.sessions st →
               Store.is_open_for u (Some ch) r' = true →
               (Store.ss_joined_at r' ≤ Store.ss_joined_at r)%Z)
      ∧ let dur := Z.max 0 ((ts - Store.ss_joined_at r) / 1000) in
        Store.sessions (Store.eventLeave u ts (Some ch) st) =
          <[i := Store.Session u (Store.ss_joined_at r) (Some ts) (Some dur)
                   (Some ch)]> (Store.sessions st)
        ∧ (0 ≤ dur)%Z.
Proof.
  intros u ch ts st.
  assert (∃ r, r ∈ Store.sessions st
               ∧ Store.is_open_for u (Some ch) r = true) as Hopen.
  { eexists. split; [apply list_elem_of_here | reflexivity]. }
  split; [exact Hopen|].
  exact (C5_eventLeave_closes_latest_open u ch ts st Hopen).
Defined.

(** The later session is the one closed, with a duration of 0. *)
Example eventLeave_out_of_order :
  Store.sessions (Store.eventLeave "alice" 3000 (Some "chan") two_open) =
  [Store.Session "alice" 1000 None None (Some "chan");
   Store.Session "alice" 5000 (Some 3000%Z) (Some 0%Z) (Some "chan")].
Proof. reflexivity. Qed.

(** C4 at a tenant whose token has expired: one exchange, the new expiry
    counted from the clock read after it, the refresh token and the scopes
    kept because the reply carries none. *)
Lemma C4_witness :
  let o := refresh_world in
  let sid := "s" in
  let h := heap0 {[ "s" := expired ]} in
  let e := env0 in
  let '(r, h', e') := run quiet o (ensureFreshToken sid) h e in
  truthy_str (refreshToken (tenant h sid)) = true
  ∧ tokenExpiresAt (tenant h sid) = Some 5000%Z
  ∧ 5000%Z ≠ 0%Z
  ∧ (5000 - 60000 ≤ clock o 0)%Z
  ∧ token_reply o 1 = Ok bare_reply
  ∧ io_fail o 3 = None
  ∧ exchanges (segment e e') = 1%nat
  ∧ tenant h' sid =
      Auth (Some "t1") (Some "r0") (Some 3610001%Z) (Some "mod1") (Some "mod")
        ["moderator:read:chatters"] (Some "b1") (Some "chan") [] None None
  ∧ r = Ok tt
  ∧ authFile e' = Some (persisted (sessions h'))
  ∧ persisted (sessions h') !! sid = Some (credentials (tenant h' sid)).
Proof.
  intros o sid h e.
  pose proof (C4_ensureFreshToken quiet o sid h e) as H. cbv zeta in H.
  destruct (run quiet o (ensureFreshToken sid) h e) as [[r h'] e'].
  destruct H as [_ H].
  assert (5000%Z ≠ 0%Z) as Hne by discriminate.
  assert (5000 - 60000 ≤ clock o 0)%Z as Hdue by (vm_compute; discriminate).
  destruct (H 5000%Z eq_refl eq_refl Hne) as [_ H'].
  destruct (H' Hdue) as (Hex & _ & _ & _ & Hok).
  destruct (Hok bare_reply eq_refl) as (Hten & _ & _ & Hfile).
  destruct (Hfile eq_refl) as (Hr & Hauth & Hsaved).
  assert (sid ≠ "__proto__") as Hsid by discriminate.
  specialize (Hsaved Hsid).
  repeat split; try reflexivity; try assumption.
Defined.

(** C4 as stated fails: after a successful exchange whose reply carries no
    scopes, the scopes are not those of the reply; they are kept. *)
Lemma C4_counterexample :
  ¬ (∀ (o : oracle) (sid : string) (h : heap) (e : env) (exp : Z)
       (rsp : tokenResponse),
       truthy_str (refreshToken (tenant h sid)) = true →
       tokenExpiresAt (tenant h sid) = Some exp → exp ≠ 0%Z →
       (exp - 60000 ≤ clock o (length (log e)))%Z →
       token_reply o (S (length (log e))) = Ok rsp →
       let '(_, h', _) := run quiet o (ensureFreshToken sid) h e in
       Some (tokenScopes (tenant h' sid)) = scope rsp).
Proof.
  intros H.
  specialize (H refresh_world "s" (heap0 {[ "s" := expired ]}) env0 5000%Z
                bare_reply eq_refl eq_refl).
  assert (5000%Z ≠ 0%Z) as Hne by discriminate.
  assert (5000 - 60000 ≤ clock refresh_world (length (log env0)))%Z as Hdue
    by (vm_compute; discriminate).
  specialize (H Hne Hdue eq_refl). vm_compute in H. discriminate.
Qed.

(** C6 at a pending set that holds carol: falsy entries are dropped, the
    names are lowercased and alice is pending once; the drain looks her
    profile up once. *)
Lemma C6_witness :
  let o := enrich_world in
  let h := pending ["carol"] false in
  let e := env0 in
  let us := [JStr "Alice"; JNull; JStr ""; JStr "alice"; JNum 7; JUndefined] in
  let q' := enqueue_into (queue h) us in
  NoDup (queue h)
  ∧ running h = false
  ∧ "alice" ∈ take 50 q'
  ∧ q' = ["carol"; "alice"; "7"]
  ∧ run quiet o (enqueue us) h e = (Ok tt, set_queue q' h, e)
  ∧ NoDup q'
  ∧ run quiet o (enqueue us) (set_queue q' h) e = (Ok tt, set_queue q' h, e)
  ∧ let '(_, _, e') := run quiet o drain (set_queue q' h) e in
    lookups_for "alice" (segment e e') = 1%nat.
Proof.
  intros o h e us q'.
  assert (NoDup (queue h)) as Hnd by (apply NoDup_singleton).
  assert ("alice" ∈ take 50 q') as Hin by (right; left).
  destruct (C6_enqueue_is_set_insertion quiet o h e us Hnd)
    as (Hrun & _ & Hnd' & Hidem & Hdrain).
  specialize (Hdrain "alice" eq_refl Hin).
  repeat split; try reflexivity; assumption.
Defined.

(** C6 as stated fails: with 51 names pending, the next drain makes no
    lookup for the last of them. *)
Lemma C6_counterexample :
  ¬ (∀ (o : oracle) (h : heap) (e : env) (us : list jsval) (u : jsval),
       NoDup (queue h) → running h = false →
       u ∈ us → truthy u = true →
       let q' := enqueue_into (enqueue_into (queue h) us) us in
       let '(_, _, e') := run quiet o drain (set_queue q' h) e in
       lookups_for (toLowerCase (js_String u)) (segment e e') = 1%nat).
Proof.
  intros H.
  specialize (H enrich_world (pending [] false) env0 fifty_one (JNum 51)).
  assert (NoDup (queue (pending [] false))) as Hnd by constructor.
  assert (JNum 51 ∈ fifty_one) as Hin.
  { apply list_elem_of_fmap. exists 51%Z. split; [done|].
    apply elem_of_seqZ. lia. }
  specialize (H Hnd eq_refl Hin eq_refl). vm_compute in H. discriminate.
Qed.

(** C7 at a queue whose drain is running, and at a queue of three names
    while another task enqueues a fourth during the batched lookup. *)
Lemma C7_witness :
  (let h := pending ["ann"] true in
   let '(r, h', e') := run late_arrival enrich_world drain h env0 in
   running h = true ∧ r = Ok tt ∧ h' = h ∧ e' = env0)
  ∧ (let h := pending ["ann"; "ben"; "cy"] false in
     let '(r, h', e') := run late_arrival enrich_world drain h env0 in
     running h = false ∧ queue h ≠ [] ∧ NoDup (queue h)
     ∧ (∃ h1 k, advance drain h =
                  (h1, Call (GetUsers (Some "cid") (Some "tok")
                               ["ann"; "ben"; "cy"]) k)
                ∧ running h1 = true
                ∧ queue h1 = []
                ∧ cfg h1 = cfg h ∧ sessions h1 = sessions h
                ∧ enrichToken h1 = enrichToken h)
     ∧ (advance drain h).1 = pending [] true
     ∧ running h' = false
     ∧ queue h' = ["zed"]
     ∧ "zed" ∈ queue h').
Proof.
  split.
  - intros h.
    pose proof (C7_drain_is_guarded_and_releases late_arrival enrich_world h
                  env0) as H.
    destruct (run late_arrival enrich_world drain h env0) as [[r h'] e'].
    destruct H as [H _]. destruct (H (or_introl eq_refl)) as (? & ? & ?).
    by repeat split.
  - intros h.
    pose proof (C7_drain_is_guarded_and_releases late_arrival enrich_world h
                  env0) as H.
    destruct (run late_arrival enrich_world drain h env0)
      as [[r h'] e'] eqn:Hrun.
    destruct H as [_ H].
    assert (queue h ≠ []) as Hq by discriminate.
    assert (NoDup (queue h)) as Hnd
      by (apply (bool_decide_unpack _); vm_compute; exact I).
    destruct (H eq_refl Hq Hnd) as (Hadv & _ & Hflag & Hqueue & _ & Hkeep).
    assert (segment env0 e' !! 0%nat =
            Some (Entry (GetUsers (Some "cid") (Some "tok")
                           ["ann"; "ben"; "cy"]) (Ok (Some three_users))))
      as Hfirst.
    { vm_compute in Hrun. injection Hrun as _ _ <-. reflexivity. }
    assert ("zed" ∈ queue h') as Hzed.
    { apply (Hkeep 0%nat _ (JStr "Zed") Hfirst eq_refl); [by left | done]. }
    assert (queue h' = ["zed"]) as Hfinal.
    { vm_compute in Hrun. injection Hrun as _ <- _. reflexivity. }
    split; [reflexivity|]. split; [exact Hq|]. split; [exact Hnd|].
    split; [exact Hadv|]. split; [vm_compute; reflexivity|].
    split; [exact Hflag|]. split; [exact Hfinal | exact Hzed].
Defined.

(** C8 at a batch of three whose second follower lookup throws: three
    rows are written, the second with a null follower count. *)
Lemma C8_witness :
  let o := enrich_world in
  let h := pending ["ann"; "ben"; "cy"] false in
  let e := env0 in
  let '(r, h', e') := run quiet o drain h e in
  running h = false ∧ queue h ≠ [] ∧ NoDup (queue h)
  ∧ users_reply o (length (log e)) = Ok (Some three_users)
  ∧ (∀ n, io_fail o n = None)
  ∧ followers_reply o 4 = Err network_down
  ∧ r = Ok tt
  ∧ length (saved (segment e e')) = 3%nat
  ∧ Store.follower_count <$> saved (segment e e')
    = [Some 1%Z; None; Some 7%Z]
  ∧ Store.username <$> saved (segment e e') = ["ann"; "ben"; "cy"]
  ∧ Store.users (store e') =
      foldl (λ m p, <[Store.username p := p]> m) (Store.users (store e))
        (saved (segment e e')).
Proof.
  intros o h e.
  assert (queue h ≠ []) as Hq by discriminate.
  assert (NoDup (queue h)) as Hnd
    by (apply (bool_decide_unpack _); vm_compute; exact I).
  assert (∀ n, io_fail o n = None) as Hio by (intros n; reflexivity).
  pose proof (C8_follower_failure_is_isolated quiet o h e (Some three_users)
                eq_refl Hq Hnd eq_refl Hio) as H.
  cbv zeta in H.
  destruct (run quiet o drain h e) as [[r h'] e'].
  destruct H as (Hr & Hlen & Hnth & Husers).
  pose proof (Hnth 0%nat _ eq_refl) as H0.
  pose proof (Hnth 1%nat _ eq_refl) as H1.
  pose proof (Hnth 2%nat _ eq_refl) as H2.
  destruct (saved (segment e e')) as [|p0 [|p1 [|p2 [|p3 rest]]]];
    try discriminate Hlen.
  injection H0 as ->. injection H1 as ->. injection H2 as ->.
  repeat split; try assumption; reflexivity.
Defined.

(** C3 at a tick whose chatters request is refused with a 401: one
    exchange follows; it succeeds, the credential file cannot be written,
    and that failure is what is recorded. The presence set is untouched and
    the tick returns normally. *)
Lemma C3_witness :
  let o := unwritable_world in
  let sid := "s" in
  let h := heap0 {[ "s" := refreshable ]} in
  let e := env0 in
  let ts := clock o (length (log e)) in
  let t := run quiet o (tickTry sid ts)
             (set_tenant sid (set_lastPollAt (Some ts) (tenant h sid)) h)
             (add_log (Entry DateNow (Ok ts)) e) in
  let '(r, h', e') := run quiet o (tickOne sid) h e in
  ready h sid = true
  ∧ t.1.1 = Err unauthorized
  ∧ truthy_str (refreshToken (tenant t.1.2 sid)) = true
  ∧ token_reply o (length (log t.2)) = Ok bare_reply
  ∧ io_fail o (S (S (length (log t.2)))) = Some read_only_disk
  ∧ r = Ok tt
  ∧ current (tenant h' sid) = ["alice"]
  ∧ exchanges (segment t.2 e') = 1%nat
  ∧ lastError (tenant h' sid) = Some "EROFS: read-only file system".
Proof.
  intros o sid h e ts t.
  pose proof (C3_tick_catches_errors o sid h e) as H.
  destruct (run quiet o (tickOne sid) h e) as [[r h'] e'].
  destruct H as [Hr H].
  assert (run quiet o (tickTry sid ts)
            (set_tenant sid (set_lastPollAt (Some ts) (tenant h sid)) h)
            (add_log (Entry DateNow (Ok ts)) e)
          = (Err unauthorized, t.1.2, t.2)) as Ht
    by (vm_compute; reflexivity).
  destruct (H eq_refl unauthorized t.1.2 t.2 Ht) as (Hcur & H401 & _).
  destruct (H401 (conj eq_refl eq_refl)) as (Hex & _ & Hok).
  destruct (Hok bare_reply eq_refl) as [_ Hdisk].
  specialize (Hdisk read_only_disk eq_refl).
  repeat split; try assumption; reflexivity.
Defined.

(** C3 as stated fails: a 401 is caught, the exchange succeeds, and yet an
    error is recorded, the credential file being unwritable. *)
Lemma C3_counterexample :
  ¬ (∀ (o : oracle) (sid : string) (h : heap) (e : env) (err : jserror)
       (h1 : heap) (e1 : env) (rsp : tokenResponse),
       ready h sid = true →
       let ts := clock o (length (log e)) in
       run quiet o (tickTry sid ts)
         (set_tenant sid (set_lastPollAt (Some ts) (tenant h sid)) h)
         (add_log (Entry DateNow (Ok ts)) e) = (Err err, h1, e1) →
       err_status err = Some 401%Z →
       truthy_str (refreshToken (tenant h1 sid)) = true →
       token_reply o (length (log e1)) = Ok rsp →
       let '(_, h', _) := run quiet o (tickOne sid) h e in
       lastError (tenant h' sid) = lastError (tenant h sid)).
Proof.
  intros H.
  pose (h := heap0 {[ "s" := refreshable ]}).
  pose (t := run quiet unwritable_world (tickTry "s" 1000)
               (set_tenant "s" (set_lastPollAt (Some 1000%Z) (tenant h "s")) h)
               (add_log (Entry DateNow (Ok 1000%Z)) env0)).
  specialize (H unwritable_world "s" h env0 unauthorized t.1.2 t.2 bare_reply
                eq_refl).
  cbv zeta in H.
  assert (run quiet unwritable_world
            (tickTry "s" (clock unwritable_world (length (log env0))))
            (set_tenant "s"
               (set_lastPollAt
                  (Some (clock unwritable_world (length (log env0))))
                  (tenant h "s")) h)
            (add_log
               (Entry DateNow
                  (Ok (clock unwritable_world (length (log env0))))) env0)
          = (Err unauthorized, t.1.2, t.2)) as Ht
    by (vm_compute; reflexivity).
  specialize (H Ht eq_refl eq_refl eq_refl). vm_compute in H. discriminate.
Qed.

Lemma no_failure_in (seg : list entry) :
  forallb (λ en, negb (failed en)) seg = true →
  ∀ en, en ∈ seg → failed en = false.
Proof.
  intros H en Hen. rewrite forallb_forall in H.
  apply list_elem_of_In in Hen. specialize (H en Hen).
  by apply negb_true_iff.
Qed.

(** C2 at the tick that finds alice where bob was. *)
Lemma C2_witness :
  let o := swap_world in
  let sid := "s" in
  let h := (after o sid lone_tenant).1 in
  let e := (after o sid lone_tenant).2 in
  let '(r, h', e') := run quiet o (tickOne sid) h e in
  ready h sid = true
  ∧ NoDup (current (tenant h sid))
  ∧ (∀ en, en ∈ segment e e' → failed en = false)
  ∧ current (tenant h sid) = ["bob"]
  ∧ snapshot_of (segment e e') = ["alice"]
  ∧ Store.events (store e') =
      Store.events (store e)
      ++ [Store.Event "alice" Store.join 2000 (Some "chan");
          Store.Event "bob" Store.leave 2000 (Some "chan")]
  ∧ Store.open_count "alice" (Some "chan") (store e') = 1%nat
  ∧ Store.open_count "bob" (Some "chan") (store e') = 0%nat
  ∧ (∀ x, x ∈ queue h' ↔ x ∈ queue h ∨ x ∈ ["alice"])
  ∧ current (tenant h' sid) = ["alice"]
  ∧ lastError (tenant h' sid) = None
  ∧ lastPollAt (tenant h' sid) = Some 2000%Z.
Proof.
  intros o sid h e.
  assert (NoDup (current (tenant h sid))) as Hnd
    by (apply (bool_decide_unpack _); vm_compute; exact I).
  pose proof (C2_successful_tick o sid h e eq_refl Hnd) as H.
  destruct (run quiet o (tickOne sid) h e) as [[r h'] e'] eqn:Hrun.
  assert (segment e e' =
          [Entry DateNow (Ok 2000%Z);
           Entry (GetChatters (Some "cid") (Some "tok") (Some "b1")
                    (Some "mod1") 1000 None)
             (Ok (ChattersBody (Some [Some "alice"]) None));
           Entry (StoreEventJoin "alice" 2000 (Some "chan")) (Ok tt);
           Entry (StoreEventLeave "bob" 2000 (Some "chan")) (Ok tt)]) as Hseg.
  { vm_compute in Hrun. injection Hrun as _ _ <-. reflexivity. }
  assert (∀ en, en ∈ segment e e' → failed en = false) as Hok.
  { rewrite Hseg. by apply no_failure_in. }
  destruct (H Hok) as (_ & _ & Hev & _ & Hcount & _ & Hq & Hcur & Herr & Hpoll).
  rewrite Hseg in Hev, Hcount, Hq, Hcur.
  split; [reflexivity|]. split; [exact Hnd|]. split; [exact Hok|].
  split; [reflexivity|]. split; [by rewrite Hseg|].
  split; [refine (eq_trans Hev _); vm_compute; reflexivity|].
  split; [refine (eq_trans (Hcount "alice") _); vm_compute; reflexivity|].
  split; [refine (eq_trans (Hcount "bob") _); vm_compute; reflexivity|].
  split; [exact Hq|].
  split; [refine (eq_trans Hcur _); reflexivity|].
  split; [exact Herr|].
  refine (eq_trans Hpoll _). reflexivity.
Defined.

(** C2 as stated fails: carol is in the presence set of the second tenant
    and not in the snapshot, the tick sees no call fail, and no session of
    carol is closed, her only session having been closed by the first
    tenant. *)
Lemma C2_counterexample :
  ¬ (∀ (o : oracle) (sid : string) (h : heap) (e : env),
       ready h sid = true →
       NoDup (current (tenant h sid)) →
       let '(r, h', e') := run quiet o (tickOne sid) h e in
       (∀ en, en ∈ segment e e' → failed en = false) →
       ∀ u, u ∈ current (tenant h sid) → u ∉ snapshot_of (segment e e') →
            ∃ i r r',
              Store.sessions (store e) !! i = Some r
              ∧ Store.ss_username r = u ∧ Store.ss_left_at r = None
              ∧ Store.sessions (store e') !! i = Some r'
              ∧ Store.ss_left_at r' ≠ None).
Proof.
  intros H.
  specialize (H shared_world "s2" shared_channel.1 shared_channel.2 eq_refl).
  assert (NoDup (current (tenant shared_channel.1 "s2"))) as Hnd
    by (apply (bool_decide_unpack _); vm_compute; exact I).
  specialize (H Hnd).
  destruct (run quiet shared_world (tickOne "s2") shared_channel.1
              shared_channel.2) as [[r h'] e'] eqn:Hrun.
  assert (segment shared_channel.2 e' =
          [Entry DateNow (Ok 3000%Z);
           Entry (GetChatters (Some "cid") (Some "tok") (Some "b1")
                    (Some "mod1") 1000 None)
             (Ok (ChattersBody (Some []) None));
           Entry (StoreEventLeave "carol" 3000 (Some "chan")) (Ok tt)]) as Hseg.
  { vm_compute in Hrun. injection Hrun as _ _ <-. reflexivity. }
  assert (∀ en, en ∈ segment shared_channel.2 e' → failed en = false) as Hok.
  { rewrite Hseg. by apply no_failure_in. }
  specialize (H Hok "carol"). rewrite Hseg in H.
  destruct H as (i & r0 & r' & Hi & _ & Hopen & _).
  - by left.
  - apply not_elem_of_nil.
  - destruct i as [|[|i]]; vm_compute in Hi; [|discriminate..].
    injection Hi as <-. discriminate.
Qed.

(** * Further properties *)

(** ** The history of the store *)

Module HistoryFacts.
Import Store.

(** One write: events are added at the end, session rows are added at the
    end, and a row already there stays or, if open, is closed. *)
Lemma write_step st w :
  (∃ new, events (apply_write st w) = events st ++ new)
  ∧ ∃ rows added,
      sessions (apply_write st w) = rows ++ added
      ∧ length rows = length (sessions st)
      ∧ (∀ r, r ∈ added → ss_left_at r = None ∧ ss_duration_sec r = None)
      ∧ ∀ i r, sessions st !! i = Some r →
          rows !! i = Some r
          ∨ (ss_left_at r = None
             ∧ ∃ ts, rows !! i
                     = Some (close ts (Z.max 0 ((ts - ss_joined_at r) / 1000))
                               r)).
Proof.
  destruct w as [u ts ch|u ts ch|p|u ty ts ch]; simpl.
  4: { split; [by eexists|]. exists (sessions st), []. rewrite app_nil_r.
       split; [done|]. split; [done|].
       split; [by intros r Hr; apply elem_of_nil in Hr | by left]. }
  - split; [by eexists|]. exists (sessions st), [Session u ts None None ch].
    split; [done|]. split; [done|]. split; [|by left].
    by intros r ->%list_elem_of_singleton.
  - split; [rewrite DiffFacts.events_eventLeave; by eexists|].
    exists (sessions (eventLeave u ts ch st)), []. rewrite app_nil_r.
    split; [done|].
    destruct (DiffFacts.eventLeave_cases u ts ch st)
      as [[_ ->]|(i & r & Hi & Hopen & ->)].
    + split; [done|]. split; [by intros r Hr; apply elem_of_nil in Hr|].
      by left.
    + split; [by rewrite length_insert|].
      split; [by intros r0 Hr; apply elem_of_nil in Hr|].
      intros j r0 Hj. destruct (decide (i = j)) as [->|Hne].
      * right. rewrite Hi in Hj. injection Hj as <-. split.
        { unfold is_open_for in Hopen.
          apply andb_true_iff in Hopen as [[_ Hl]%andb_true_iff _].
          by apply bool_decide_eq_true in Hl. }
        exists ts. rewrite list_lookup_insert_eq; [done|].
        by eapply lookup_lt_Some.
      * left. by rewrite list_lookup_insert_ne.
  - split; [exists []; by rewrite app_nil_r|].
    exists (sessions st), []. rewrite app_nil_r.
    split; [done|]. split; [done|].
    split; [by intros r Hr; apply elem_of_nil in Hr | by left].
Qed.

End HistoryFacts.

(** X1. Whatever is written to the store afterwards, the events recorded
    stay, in order, at the head of the events table; no session row is
    deleted or moved, each keeps its user, channel and join time; and a
    session once closed is never changed again. *)
Theorem store_keeps_its_history (st : Store.t) (ws : list write) :
  let st' := apply_writes st ws in
  (∃ new, Store.events st' = Store.events st ++ new)
  ∧ (∀ i r, Store.sessions st !! i = Some r →
       ∃ r', Store.sessions st' !! i = Some r'
             ∧ Store.ss_username r' = Store.ss_username r
             ∧ Store.ss_channel_login r' = Store.ss_channel_login r
             ∧ Store.ss_joined_at r' = Store.ss_joined_at r
             ∧ (Store.ss_left_at r ≠ None → r' = r)).
Proof.
  cbv zeta. unfold apply_writes. revert st.
  induction ws as [|w ws IH]; intros st; simpl.
  - split; [exists []; by rewrite app_nil_r|]. intros i r Hi. by exists r.
  - destruct (HistoryFacts.write_step st w)
      as [[new1 Hev] (rows & added & Hs & Hlen & _ & Hrows)].
    destruct (IH (apply_write st w)) as [[new2 Hev2] Hkeep].
    split. { exists (new1 ++ new2). by rewrite Hev2, Hev, app_assoc. }
    intros i r Hi.
    assert (∃ r1, Store.sessions (apply_write st w) !! i = Some r1
                  ∧ Store.ss_username r1 = Store.ss_username r
                  ∧ Store.ss_channel_login r1 = Store.ss_channel_login r
                  ∧ Store.ss_joined_at r1 = Store.ss_joined_at r
                  ∧ (Store.ss_left_at r ≠ None → r1 = r)) as (r1 & H1 & Hsame).
    { rewrite Hs. destruct (Hrows i r Hi) as [Hr|[Hopen [ts Hr]]].
      - exists r. split; [by apply lookup_app_l_Some | done].
      - eexists. split; [by apply lookup_app_l_Some|].
        repeat split; try done. }
    destruct (Hkeep i r1 H1) as (r' & H' & Hu & Hc & Hj & Hl).
    destruct Hsame as (Hu1 & Hc1 & Hj1 & Hl1).
    exists r'. split; [done|]. repeat split; try congruence.
    intros Hclosed. rewrite <- (Hl1 Hclosed). apply Hl.
    by rewrite (Hl1 Hclosed).
Qed.

(** X2. If every session row is in keeping (open with no duration, or
    closed with the whole seconds between its join and its leave, 0 at
    least), every row is in keeping after any writes: no recorded duration
    is ever negative. *)
Theorem store_keeps_durations (st : Store.t) (ws : list write) :
  Forall in_keeping (Store.sessions st) →
  Forall in_keeping (Store.sessions (apply_writes st ws))
  ∧ ∀ r d, r ∈ Store.sessions (apply_writes st ws) →
           Store.ss_duration_sec r = Some d → (0 ≤ d)%Z.
Proof.
  intros Hinv.
  assert (Forall in_keeping (Store.sessions (apply_writes st ws))) as Hall.
  { unfold apply_writes. revert st Hinv.
    induction ws as [|w ws IH]; intros st Hinv; simpl; [done|].
    apply IH.
    destruct (HistoryFacts.write_step st w)
      as [_ (rows & added & -> & Hlen & Hadded & Hrows)].
    apply Forall_app. split.
    - apply Forall_lookup. intros i r' Hi.
      assert (is_Some (Store.sessions st !! i)) as [r Hr].
      { apply lookup_lt_is_Some. rewrite <- Hlen. by eapply lookup_lt_Some. }
      pose proof (proj1 (Forall_lookup _ _) Hinv i r Hr) as Hkeep.
      destruct (Hrows i r Hr) as [Hsame|[Hopen [ts Hclose]]].
      + congruence.
      + rewrite Hclose in Hi. injection Hi as <-. right. by exists ts.
    - apply Forall_forall. intros r Hr. left. by apply Hadded. }
  split; [done|]. intros r d Hr Hd.
  rewrite Forall_forall in Hall. destruct (Hall r Hr) as [[_ Hn]|(l & _ & Hl)].
  - congruence.
  - rewrite Hl in Hd. injection Hd as <-. lia.
Qed.

(** X2 at a store with a closed and an open session, for a join and a leave
    whose time stamp lies before the join. *)
Lemma store_keeps_durations_witness :
  let st := none_open in
  let ws := [WJoin "carol" 4000 (Some "chan"); WLeave "bob" 500 (Some "chan");
             WLeave "carol" 6500 (Some "chan")] in
  Forall in_keeping (Store.sessions st)
  ∧ Forall in_keeping (Store.sessions (apply_writes st ws))
  ∧ Store.sessions (apply_writes st ws)
    = [Store.Session "alice" 1000 (Some 2000%Z) (Some 1%Z) (Some "chan");
       Store.Session "bob" 1000 (Some 500%Z) (Some 0%Z) (Some "chan");
       Store.Session "carol" 4000 (Some 6500%Z) (Some 2%Z) (Some "chan")].
Proof.
  intros st ws.
  assert (Forall in_keeping (Store.sessions st)) as Hinv.
  { apply Forall_cons. split.
    - right. exists 2000%Z. split; reflexivity.
    - apply Forall_cons. split; [|apply Forall_nil; exact I].
      left. split; reflexivity. }
  destruct (store_keeps_durations st ws Hinv) as [Hall _].
  split; [exact Hinv|]. split; [exact Hall|]. vm_compute. reflexivity.
Defined.

Lemma count_app {A : Type} (P : A → bool) (l k : list A) :
  count P (l ++ k) = (count P l + count P k)%nat.
Proof. unfold count. by rewrite filter_app, length_app. Qed.

Lemma count_singleton {A : Type} (P : A → bool) (x : A) :
  count P [x] = if P x then 1%nat else 0%nat.
Proof.
  unfold count. rewrite filter_cons. destruct (P x).
  - by rewrite decide_True.
  - by rewrite decide_False.
Qed.

Lemma sql_eq_true (x y : option string) :
  Store.sql_eq x y = true → x = y ∧ is_Some x.
Proof.
  destruct x as [a|], y as [b|]; simpl; try discriminate.
  intros ->%bool_decide_eq_true. eauto.
Qed.

Lemma is_open_for_fields (u : string) (ch : option string)
    (r : Store.session) :
  Store.is_open_for u ch r = true →
  Store.ss_username r = u ∧ Store.ss_left_at r = None
  ∧ Store.ss_channel_login r = ch.
Proof.
  unfold Store.is_open_for.
  intros [[Hu Hl]%andb_true_iff Hc]%andb_true_iff.
  apply bool_decide_eq_true in Hu, Hl. apply sql_eq_true in Hc as [Hc _].
  done.
Qed.

(** X3. Sessions are opened by the calls to [eventJoin] that return, and
    closed by calls to [eventLeave]. Over any writes, some of them perhaps
    cut after they recorded their event, the session rows of a user in a
    channel grow by the number of its join events recorded, less the joins
    that were cut: a join that is cut leaves an event without a session.
    Its closed rows grow by no more than the number of its leave events
    recorded. *)
Theorem sessions_follow_events (st : Store.t) (ws : list write)
    (u : string) (ch : option string) :
  let st' := apply_writes st ws in
  (count (row_of u ch) (Store.sessions st')
   + count (join_of u ch) (Store.events st)
   + count (cut_join_of u ch) ws
   = count (row_of u ch) (Store.sessions st)
     + count (join_of u ch) (Store.events st'))%nat
  ∧ (count (closed_row_of u ch) (Store.sessions st')
     + count (leave_of u ch) (Store.events st)
     ≤ count (closed_row_of u ch) (Store.sessions st)
       + count (leave_of u ch) (Store.events st'))%nat.
Proof.
  cbv zeta. unfold apply_writes. revert st.
  induction ws as [|w ws IH]; intros st; simpl; [unfold count; simpl; lia|].
  destruct (IH (apply_write st w)) as [IH1 IH2].
  change (w :: ws) with ([w] ++ ws). rewrite count_app, count_singleton.
  enough ((count (row_of u ch) (Store.sessions (apply_write st w))
           + count (join_of u ch) (Store.events st)
           + (if cut_join_of u ch w then 1 else 0)
           = count (row_of u ch) (Store.sessions st)
             + count (join_of u ch) (Store.events (apply_write st w)))%nat
          ∧ (count (closed_row_of u ch) (Store.sessions (apply_write st w))
             + count (leave_of u ch) (Store.events st)
             ≤ count (closed_row_of u ch) (Store.sessions st)
               + count (leave_of u ch) (Store.events (apply_write st w)))%nat)
    as [H1 H2] by lia.
  clear IH IH1 IH2. destruct w as [v ts c|v ts c|p|v ty ts c]; simpl.
  - rewrite !count_app, !count_singleton.
    unfold closed_row_of, row_of, join_of, leave_of. simpl.
    destruct (bool_decide (v = u)), (bool_decide (c = ch)); simpl; lia.
  - rewrite DiffFacts.events_eventLeave, !count_app, !count_singleton.
    unfold join_of at 3, leave_of at 3. simpl.
    destruct (DiffFacts.eventLeave_cases v ts c st)
      as [[_ ->]|(i & r & Hi & Hopen & ->)]; [lia|].
    pose proof (DiffFacts.count_insert (row_of u ch) (Store.sessions st) i r
                  (Store.close ts (Z.max 0 ((ts - Store.ss_joined_at r) / 1000))
                     r) Hi) as Hrow.
    pose proof (DiffFacts.count_insert (closed_row_of u ch) (Store.sessions st)
                  i r
                  (Store.close ts (Z.max 0 ((ts - Store.ss_joined_at r) / 1000))
                     r) Hi) as Hclosed.
    apply is_open_for_fields in Hopen as (Hu & Hl & Hc).
    unfold closed_row_of, row_of in Hrow, Hclosed. simpl in Hrow, Hclosed.
    rewrite Hl, Hu, Hc in Hclosed. rewrite Hu, Hc in Hrow.
    rewrite (bool_decide_eq_false_2 (None ≠ None)) in Hclosed by (intros H; by apply H).
    rewrite andb_false_r in Hclosed.
    unfold count, closed_row_of, row_of.
    destruct (bool_decide (v = u)), (bool_decide (c = ch)); simpl in *; lia.
  - lia.
  - rewrite !count_app, !count_singleton.
    unfold join_of, leave_of. simpl.
    destruct ty, (bool_decide (v = u)), (bool_decide (c = ch)); simpl; lia.
Qed.

(** X3 at a join that is cut between two that return. *)
Example sessions_follow_events_cut :
  let ws := [WJoin "ann" 1000 (Some "chan");
             WCut "ann" Store.join 2000 (Some "chan");
             WLeave "ann" 3000 (Some "chan");
             WJoin "ann" 4000 (Some "chan")] in
  let st' := apply_writes Store.empty ws in
  count (join_of "ann" (Some "chan")) (Store.events st') = 3%nat
  ∧ count (row_of "ann" (Some "chan")) (Store.sessions st') = 2%nat
  ∧ count (cut_join_of "ann" (Some "chan")) ws = 1%nat.
Proof. vm_compute. done. Qed.

(** A tick whose [eventJoin] throws after the event was recorded: the
    join event of alice is in the store without a session, the failure is
    the tenant's last error and its presence set is as it was. *)
Example cut_join_in_a_tick :
  let s := after neighbours_world "t"
             (after neighbours_world "s" neighbours) in
  count (join_of "alice" (Some "other")) (Store.events (store s.2)) = 1%nat
  ∧ count (row_of "alice" (Some "other")) (Store.sessions (store s.2)) = 0%nat
  ∧ lastError (tenant s.1 "t") = Some "EROFS: read-only file system"
  ∧ current (tenant s.1 "t") = [].
Proof. vm_compute. done. Qed.

(** ** The presence set rebuilt from the store *)

Lemma elem_of_foldl_add (l s : list string) (x : string) :
  x ∈ foldl JSSet.add s l ↔ x ∈ s ∨ x ∈ l.
Proof.
  revert s. induction l as [|y l IH]; intros s; simpl.
  - rewrite elem_of_nil. tauto.
  - rewrite IH, JSSetFacts.elem_of_add, elem_of_cons. tauto.
Qed.

Lemma NoDup_foldl_add (l s : list string) :
  NoDup s → NoDup (foldl JSSet.add s l).
Proof.
  revert s. induction l as [|y l IH]; intros s Hs; simpl; [done|].
  by apply IH, JSSetFacts.NoDup_add.
Qed.

Lemma open_in_iff (ch : option string) (r : Store.session) :
  (bool_decide (Store.ss_left_at r = None)
   && Store.sql_eq (Store.ss_channel_login r) ch) = true
  ↔ Store.ss_left_at r = None ∧ is_Some ch ∧ Store.ss_channel_login r = ch.
Proof.
  rewrite andb_true_iff, bool_decide_eq_true. split.
  - intros [Hl [Hc Hs]%sql_eq_true]. rewrite <- Hc. done.
  - intros (Hl & [c ->] & ->). simpl. by rewrite bool_decide_eq_true_2.
Qed.

Lemma elem_of_getOpenSet (ch : option string) (st : Store.t) (x : string) :
  x ∈ Store.getOpenSet ch st ↔
  ∃ r, r ∈ Store.sessions st ∧ Store.ss_left_at r = None ∧ is_Some ch
       ∧ Store.ss_channel_login r = ch ∧ toLowerCase (Store.ss_username r) = x.
Proof.
  unfold Store.getOpenSet, JSSet.of_list.
  rewrite elem_of_foldl_add, elem_of_nil, list_elem_of_fmap. split.
  - intros [[]|(r & -> & Hr)]. rewrite merge_sort_Permutation in Hr.
    apply list_elem_of_filter in Hr as [Hopen Hr].
    apply open_in_iff in Hopen as (Hl & Hs & Hc). by exists r.
  - intros (r & Hr & Hl & Hs & Hc & <-). right. exists r. split; [done|].
    rewrite merge_sort_Permutation.
    apply list_elem_of_filter. split; [|done]. by apply open_in_iff.
Qed.

(** X4. [getOpenSet] returns, without repetition, the lowercased user names
    of the session rows of the channel that have no [left_at]; asked with
    no channel ([NULL]) it returns nothing, whatever the table holds. *)
Theorem getOpenSet_is_the_open_rows (ch : option string) (st : Store.t) :
  NoDup (Store.getOpenSet ch st)
  ∧ (∀ x, x ∈ Store.getOpenSet ch st ↔
          ∃ r, r ∈ Store.sessions st ∧ Store.ss_left_at r = None
               ∧ Store.ss_channel_login r = ch ∧ is_Some ch
               ∧ toLowerCase (Store.ss_username r) = x)
  ∧ Store.getOpenSet None st = [].
Proof.
  split; [|split].
  - apply NoDup_foldl_add. constructor.
  - intros x. rewrite elem_of_getOpenSet. split.
    + intros (r & Hr & Hl & Hs & Hc & Hx). by exists r.
    + intros (r & Hr & Hl & Hc & Hs & Hx). by exists r.
  - destruct (Store.getOpenSet None st) as [|x l] eqn:Hset; [done|].
    assert (x ∈ Store.getOpenSet None st) as Hx by (rewrite Hset; left).
    apply elem_of_getOpenSet in Hx as (r & _ & _ & [c Hc] & _). done.
Qed.

(** X5. What the writes do to the set [getOpenSet] returns for a channel,
    as a set: after a join in that channel it holds the names it held and
    the lowercased name of the user who joined; a join elsewhere, a
    profile, and a join or a leave that fails after recording its event,
    leave even its order as it was; a leave adds no name, and can remove no
    name but that of the user who leaves. *)
Theorem getOpenSet_after_writes (c : string) (st : Store.t) (u : string)
    (ts : Z) (ch : option string) (p : Store.profile)
    (ty : Store.event_type) :
  (∀ x, x ∈ Store.getOpenSet (Some c) (Store.eventJoin u ts (Some c) st) ↔
        x ∈ Store.getOpenSet (Some c) st ∨ x = toLowerCase u)
  ∧ (ch ≠ Some c →
     Store.getOpenSet (Some c) (Store.eventJoin u ts ch st)
     = Store.getOpenSet (Some c) st)
  ∧ Store.getOpenSet (Some c) (Store.saveUserProfile p st)
    = Store.getOpenSet (Some c) st
  ∧ Store.getOpenSet (Some c) (Store.insertEvent u ty ts ch st)
    = Store.getOpenSet (Some c) st
  ∧ (∀ x, x ∈ Store.getOpenSet (Some c) (Store.eventLeave u ts ch st) →
          x ∈ Store.getOpenSet (Some c) st)
  ∧ (∀ x, x ∈ Store.getOpenSet (Some c) st → x ≠ toLowerCase u →
          x ∈ Store.getOpenSet (Some c) (Store.eventLeave u ts ch st)).
Proof.
  split; [|split; [|split; [done|split; [done|split]]]].
  - intros x. rewrite !elem_of_getOpenSet. simpl. split.
    + intros (r & [Hr| ->%list_elem_of_singleton]%elem_of_app & Hl & Hs & Hc
              & Hx).
      * left. by exists r.
      * right. by rewrite <- Hx.
    + intros [(r & Hr & Hrest)| ->].
      * exists r. split; [|done]. apply elem_of_app. by left.
      * exists (Store.Session u ts None None (Some c)).
        split; [|by repeat split; eauto].
        apply elem_of_app. right. by apply list_elem_of_singleton.
  - intros Hch. unfold Store.getOpenSet. simpl.
    rewrite filter_app, filter_cons, filter_nil. simpl.
    rewrite decide_False; [by rewrite app_nil_r|]. simpl.
    destruct ch as [c'|]; simpl; [|done].
    rewrite bool_decide_eq_false_2; [done|]. congruence.
  - intros x. rewrite !elem_of_getOpenSet.
    intros (r' & Hr' & Hl & Hs & Hc & Hx).
    destruct (DiffFacts.eventLeave_cases u ts ch st)
      as [[_ Heq]|(i & r & Hi & Hopen & Heq)]; rewrite Heq in Hr'.
    + by exists r'.
    + apply list_elem_of_lookup in Hr' as [j Hj].
      destruct (decide (i = j)) as [->|Hij].
      * rewrite list_lookup_insert_eq in Hj by by eapply lookup_lt_Some.
        injection Hj as <-. done.
      * rewrite list_lookup_insert_ne in Hj by done.
        exists r'. split; [by eapply list_elem_of_lookup_2|done].
  - intros x. rewrite !elem_of_getOpenSet.
    intros (r' & Hr' & Hl & Hs & Hc & Hx) Hne.
    exists r'. split; [|done].
    destruct (DiffFacts.eventLeave_cases u ts ch st)
      as [[_ Heq]|(i & r & Hi & Hopen & Heq)]; rewrite Heq; [done|].
    apply list_elem_of_lookup in Hr' as [j Hj].
    apply list_elem_of_lookup. exists j.
    rewrite list_lookup_insert_ne; [done|]. intros ->.
    apply is_open_for_fields in Hopen as (Hu & _).
    congruence.
Qed.

(** ** The listings *)

Module QueryFacts.


Lemma limit_offset_sublist {A : Type} (limit offset : Z) (rows : list A) :
  ∃ before after,
    rows = before ++ Query.limit_offset limit offset rows ++ after
    ∧ length before = (Z.to_nat offset `min` length rows)%nat.
Proof.
  unfold Query.limit_offset. cbv zeta.
  exists (take (Z.to_nat offset) rows).
  destruct (limit <? 0)%Z.
  - exists []. rewrite app_nil_r, take_drop, length_take. done.
  - exists (drop (Z.to_nat limit) (drop (Z.to_nat offset) rows)).
    rewrite !take_drop, length_take. done.
Qed.

Lemma limit_offset_elem_of {A : Type} (limit offset : Z) (rows : list A) x :
  x ∈ Query.limit_offset limit offset rows → x ∈ rows.
Proof.
  destruct (limit_offset_sublist limit offset rows) as (b & a & Heq & _).
  intros Hx. rewrite Heq, !elem_of_app. tauto.
Qed.

Lemma limit_offset_sorted {A : Type} (R : relation A) (limit offset : Z)
    (rows : list A) :
  StronglySorted R rows →
  StronglySorted R (Query.limit_offset limit offset rows).
Proof.
  destruct (limit_offset_sublist limit offset rows) as (b & a & Heq & _).
  intros Hs. rewrite Heq in Hs.
  apply StronglySorted_app in Hs as (_ & _ & Hs).
  by apply StronglySorted_app in Hs as (_ & Hs & _).
Qed.



#[global] Instance later_event_total : Total Query.later_event.
Proof. intros a b. unfold Query.later_event. lia. Qed.

#[global] Instance later_event_trans : Transitive Query.later_event.
Proof. intros a b c. unfold Query.later_event. lia. Qed.

#[global] Instance later_session_total : Total Query.later_session.
Proof. intros a b. unfold Query.later_session. lia. Qed.

#[global] Instance later_session_trans : Transitive Query.later_session.
Proof. intros a b c. unfold Query.later_session. lia. Qed.

#[global] Instance more_popular_total : Total Query.more_popular.
Proof. intros a b. unfold Query.more_popular. cbv zeta. lia. Qed.

#[global] Instance more_popular_trans : Transitive Query.more_popular.
Proof. intros a b c. unfold Query.more_popular. cbv zeta. lia. Qed.

End QueryFacts.


Lemma elem_of_sessions_of (ch : option string) (st : Store.t)
    (r : Store.session) :
  r ∈ Query.sessions_of ch st ↔
  r ∈ Store.sessions st ∧ Store.ss_channel_login r = ch ∧ is_Some ch.
Proof.
  unfold Query.sessions_of. rewrite list_elem_of_filter. split.
  - intros [[Hc Hs]%sql_eq_true Hin]. rewrite <- Hc. done.
  - intros (Hin & -> & [c ->]). split; [|done]. simpl.
    by rewrite bool_decide_eq_true_2.
Qed.



Lemma elem_of_visits (u : string) (ch : option string) (st : Store.t)
    (r : Store.session) :
  r ∈ Query.visits u ch st ↔
  r ∈ Store.sessions st ∧ Store.ss_username r = u
  ∧ Store.ss_channel_login r = ch ∧ is_Some ch.
Proof.
  unfold Query.visits. rewrite list_elem_of_filter, elem_of_sessions_of.
  tauto.
Qed.

Lemma elem_of_visitors (nowMs : Z) (ch : option string) (limit offset : Z)
    (st : Store.t) (v : Query.visitor) :
  v ∈ Query.getPopularVisitors nowMs ch limit offset st →
  ∃ k p, Store.users st !! k = Some p
         ∧ Query.visits (Store.username p) ch st ≠ []
         ∧ v = Query.visitor_of nowMs ch st p.
Proof.
  unfold Query.getPopularVisitors.
  intros Hv%QueryFacts.limit_offset_elem_of.
  rewrite merge_sort_Permutation in Hv.
  apply list_elem_of_fmap in Hv as (p & -> & [Hvis Hp]%list_elem_of_filter).
  apply list_elem_of_fmap in Hp as ([k p'] & -> & Hkp).
  apply elem_of_map_to_list in Hkp. by exists k, p'.
Qed.

(** X9. A page of [getPopularVisitors] holds users of the users table who
    have a session row in the channel asked for: [visit_count] is the number
    of those rows and at least 1, [last_seen] the latest [joined_at] among
    them. The page is ordered by follower count, an unknown count as 0,
    the more followed first, and among equals by watch time. *)
Theorem getPopularVisitors_rows (nowMs : Z) (ch : option string)
    (limit offset : Z) (st : Store.t) :
  (∀ v, v ∈ Query.getPopularVisitors nowMs ch limit offset st →
        let u := Store.username (Query.v_profile v) in
        (∃ k, Store.users st !! k = Some (Query.v_profile v))
        ∧ is_Some ch
        ∧ Query.v_visit_count v = count (row_of u ch) (Store.sessions st)
        ∧ (1 ≤ Query.v_visit_count v)%nat
        ∧ ∃ r, r ∈ Store.sessions st ∧ Store.ss_username r = u
               ∧ Store.ss_channel_login r = ch
               ∧ Query.v_last_seen v = Some (Store.ss_joined_at r)
               ∧ ∀ r', r' ∈ Store.sessions st → Store.ss_username r' = u →
                       Store.ss_channel_login r' = ch →
                       (Store.ss_joined_at r' ≤ Store.ss_joined_at r)%Z)
  ∧ StronglySorted
      (λ a b,
         let fa := default 0%Z (Store.follower_count (Query.v_profile a)) in
         let fb := default 0%Z (Store.follower_count (Query.v_profile b)) in
         (fb < fa)%Z
         ∨ (fa = fb
            ∧ (Query.v_total_watch_sec b ≤ Query.v_total_watch_sec a)%Z))
      (Query.getPopularVisitors nowMs ch limit offset st).
Proof.
  split.
  - intros v (k & p & Hk & Hvis & ->)%elem_of_visitors. simpl.
    set (u := Store.username p) in *.
    destruct (Query.visits u ch st) as [|r0 rows] eqn:Hrows; [done|].
    assert (r0 ∈ Query.visits u ch st) as Hr0 by (rewrite Hrows; left).
    apply elem_of_visits in Hr0 as (_ & _ & _ & Hs).
    split; [by exists k|]. split; [done|].
    assert (length (Query.visits u ch st)
            = count (row_of u ch) (Store.sessions st)) as Hcount.
    { unfold Query.visits, Query.sessions_of, count. rewrite list_filter_filter.
      f_equal. apply list_filter_iff. intros r. unfold row_of.
      rewrite andb_true_iff, !bool_decide_eq_true. split.
      - intros [Hu [Hc _]%sql_eq_true]. done.
      - intros [Hu Hc]. split; [done|]. rewrite Hc.
        destruct Hs as [c ->]. simpl. by rewrite bool_decide_eq_true_2. }
    rewrite <- Hcount, Hrows. split; [done|]. split; [simpl; lia|].
    destruct (Store.max_joined (r0 :: rows)) as [m|] eqn:Hm;
      [|by apply StoreFacts.max_joined_None in Hm].
    destruct (StoreFacts.max_joined_spec _ _ Hm) as [(r & Hr & Hj) Hmax].
    rewrite <- Hrows in Hr, Hmax.
    apply elem_of_visits in Hr as (Hr & Hu & Hc & _).
    exists r. split; [done|]. split; [done|]. split; [done|].
    split; [by rewrite Hj|].
    intros r' Hr' Hu' Hc'. rewrite Hj. apply Hmax.
    by apply elem_of_visits.
  - apply QueryFacts.limit_offset_sorted.
    apply (StronglySorted_merge_sort Query.more_popular).
Qed.

(** ** Watch time *)

Lemma watch_total_app (nowMs : Z) (l k : list Store.session) :
  foldr (λ r acc, (Query.watch_sec nowMs r + acc)%Z) 0%Z (l ++ k)
  = (foldr (λ r acc, (Query.watch_sec nowMs r + acc)%Z) 0%Z l
     + foldr (λ r acc, (Query.watch_sec nowMs r + acc)%Z) 0%Z k)%Z.
Proof. induction l as [|r l IH]; simpl; [done|]. rewrite IH. lia. Qed.

Lemma visits_filter (u : string) (ch : option string) (st : Store.t) :
  Query.visits u ch st
  = filter (λ r, Store.ss_username r = u
                 ∧ Store.sql_eq (Store.ss_channel_login r) ch = true)
      (Store.sessions st).
Proof. unfold Query.visits, Query.sessions_of. apply list_filter_filter. Qed.

(** Replacing a row by one of the same user and channel moves the total by
    the difference of the two watch times, if the row counts at all. *)
Lemma watch_total_insert (nowMs : Z) (P : Store.session → Prop)
    `{!∀ r, Decision (P r)} (l : list Store.session) (i : nat)
    (x y : Store.session) :
  l !! i = Some x → (P y ↔ P x) →
  ∃ b : bool,
    foldr (λ r acc, (Query.watch_sec nowMs r + acc)%Z) 0%Z
      (filter P (<[i:=y]> l))
    = (foldr (λ r acc, (Query.watch_sec nowMs r + acc)%Z) 0%Z (filter P l)
       + if b then Query.watch_sec nowMs y - Query.watch_sec nowMs x else 0)%Z.
Proof.
  intros Hi HP. revert i Hi.
  induction l as [|r l IH]; intros [|i] Hi; simpl in *; try done.
  - injection Hi as ->. rewrite !filter_cons.
    destruct (decide (P x)) as [Hx|Hx].
    + rewrite decide_True by tauto. exists true. simpl. lia.
    + rewrite decide_False by tauto. exists false. lia.
  - destruct (IH i Hi) as [b Hb]. exists b. rewrite !filter_cons.
    destruct (decide (P r)); simpl; rewrite Hb; lia.
Qed.

Lemma total_watch_sec_insert (nowMs : Z) (u : string) (ch : option string)
    (st st' : Store.t) (i : nat) (x y : Store.session) :
  Store.sessions st !! i = Some x →
  Store.sessions st' = <[i:=y]> (Store.sessions st) →
  Store.ss_username y = Store.ss_username x →
  Store.ss_channel_login y = Store.ss_channel_login x →
  ∃ b : bool,
    Query.total_watch_sec nowMs u ch st'
    = (Query.total_watch_sec nowMs u ch st
       + if b then Query.watch_sec nowMs y - Query.watch_sec nowMs x else 0)%Z.
Proof.
  intros Hi Hst' Hu Hc. unfold Query.total_watch_sec.
  rewrite !visits_filter, Hst'.
  apply watch_total_insert; [done|]. by rewrite Hu, Hc.
Qed.

Lemma watch_sec_nonneg (nowMs : Z) (r : Store.session) :
  in_keeping r → (0 ≤ Query.watch_sec nowMs r)%Z.
Proof.
  unfold Query.watch_sec. intros [[-> ->]|(l & -> & ->)]; lia.
Qed.

Lemma whole_seconds (a : Z) :
  Z.max 0 (a ÷ 1000) = Z.max 0 (a / 1000).
Proof.
  destruct (decide (0 ≤ a)%Z) as [Hpos|Hneg].
  - by rewrite Z.quot_div_nonneg by lia.
  - assert (a ÷ 1000 ≤ 0)%Z by (apply Z.quot_le_upper_bound; lia).
    assert (a / 1000 < 0)%Z by (apply Z.div_lt_upper_bound; lia).
    lia.
Qed.

(** X10. Watch time, when every session row is in keeping. The total watch
    time of a user in a channel is never negative. Closing a session with
    [eventLeave] at the time [ts] leaves every total as it stands at [ts]:
    the whole seconds [Math.floor] records are those the listing counted for
    the open session. At any later time the totals are no greater than
    they would have been, the session being closed. *)
Theorem watch_time_stops_at_leave (st : Store.t) (u : string) (ts : Z)
    (ch : option string) (u' : string) (ch' : option string) :
  Forall in_keeping (Store.sessions st) →
  (∀ nowMs, (0 ≤ Query.total_watch_sec nowMs u' ch' st)%Z)
  ∧ Query.total_watch_sec ts u' ch' (Store.eventLeave u ts ch st)
    = Query.total_watch_sec ts u' ch' st
  ∧ (∀ nowMs, (ts ≤ nowMs)%Z →
       (Query.total_watch_sec nowMs u' ch' (Store.eventLeave u ts ch st)
        ≤ Query.total_watch_sec nowMs u' ch' st)%Z).
Proof.
  intros Hinv. split.
  { intros nowMs. unfold Query.total_watch_sec.
    assert (Forall in_keeping (Query.visits u' ch' st)) as Hvis.
    { apply Forall_forall. intros r (Hr & _)%elem_of_visits.
      by apply (proj1 (Forall_forall _ _) Hinv). }
    induction Hvis as [|r rows Hr _ IH]; simpl; [done|].
    pose proof (watch_sec_nonneg nowMs r Hr). lia. }
  destruct (DiffFacts.eventLeave_cases u ts ch st)
    as [[_ Heq]|(i & r & Hi & Hopen & Heq)].
  { unfold Query.total_watch_sec. rewrite !visits_filter, Heq.
    split; [done|]. intros; lia. }
  assert (in_keeping r) as Hkeep.
  { apply (proj1 (Forall_forall _ _) Hinv). by eapply list_elem_of_lookup_2. }
  apply is_open_for_fields in Hopen as (_ & Hl & _).
  destruct Hkeep as [[_ Hd]|(l & Hl' & _)]; [|congruence].
  assert (∀ nowMs,
            Query.watch_sec nowMs
              (Store.close ts (Z.max 0 ((ts - Store.ss_joined_at r) / 1000)) r)
            = Z.max 0 ((ts - Store.ss_joined_at r) ÷ 1000)
            ∧ Query.watch_sec nowMs r
              = Z.max 0 ((nowMs - Store.ss_joined_at r) ÷ 1000)) as Hw.
  { intros nowMs. unfold Query.watch_sec. rewrite Hl, Hd. simpl.
    by rewrite whole_seconds. }
  split.
  - destruct (total_watch_sec_insert ts u' ch' st _ i r _ Hi Heq eq_refl
                eq_refl) as [b ->].
    destruct (Hw ts) as [-> ->]. destruct b; lia.
  - intros nowMs Hlater.
    destruct (total_watch_sec_insert nowMs u' ch' st _ i r _ Hi Heq eq_refl
                eq_refl) as [b ->].
    destruct (Hw nowMs) as [-> ->]. destruct b; [|lia].
    assert ((ts - Store.ss_joined_at r) ÷ 1000
            ≤ (nowMs - Store.ss_joined_at r) ÷ 1000)%Z
      by (apply Z.quot_le_mono; lia).
    lia.
Qed.

(** X10 at a store where bob's session is open and alice's closed. *)
Lemma watch_time_stops_at_leave_witness :
  let st := none_open in
  Forall in_keeping (Store.sessions st)
  ∧ Query.total_watch_sec 4999 "bob" (Some "chan")
      (Store.eventLeave "bob" 4999 (Some "chan") st)
    = Query.total_watch_sec 4999 "bob" (Some "chan") st
  ∧ Query.total_watch_sec 4999 "bob" (Some "chan") st = 3%Z
  ∧ Query.total_watch_sec 9000 "bob" (Some "chan")
      (Store.eventLeave "bob" 4999 (Some "chan") st) = 3%Z
  ∧ Query.total_watch_sec 9000 "bob" (Some "chan") st = 8%Z.
Proof.
  intros st.
  assert (Forall in_keeping (Store.sessions st)) as Hinv.
  { apply Forall_cons. split.
    - right. exists 2000%Z. split; reflexivity.
    - apply Forall_cons. split; [|apply Forall_nil; exact I].
      left. split; reflexivity. }
  destruct (watch_time_stops_at_leave st "bob" 4999 (Some "chan") "bob"
              (Some "chan") Hinv) as (_ & Heq & _).
  split; [exact Hinv|]. split; [exact Heq|].
  split; [vm_compute; reflexivity|]. split; vm_compute; reflexivity.
Defined.

(** ** The users table *)

Lemma users_apply_write (st : Store.t) (w : write) :
  Store.users (apply_write st w)
  = match w with
    | WSave p => <[Store.username p := p]> (Store.users st)
    | _ => Store.users st
    end.
Proof.
  destruct w as [u ts ch|u ts ch|p|u ty ts ch]; simpl; try done.
  destruct (decide (Store.open_count u ch st = 0%nat)) as [H0|Hne].
  - by rewrite StoreFacts.eventLeave_closed.
  - destruct (StoreFacts.eventLeave_open u ts ch st Hne)
      as (i & r & _ & _ & _ & ->). done.
Qed.

Lemma keyed_apply_writes (st : Store.t) (ws : list write) :
  keyed st → keyed (apply_writes st ws).
Proof.
  unfold apply_writes. revert st.
  induction ws as [|w ws IH]; intros st Hst; simpl; [done|].
  apply IH. intros k p. rewrite users_apply_write.
  destruct w as [| |q|]; try apply Hst.
  intros [[<- <-]|[_ Hk]]%lookup_insert_Some; [done|]. by apply Hst.
Qed.

Lemma limit_offset_sublist_of {A : Type} (limit offset : Z) (rows : list A) :
  Query.limit_offset limit offset rows `sublist_of` rows.
Proof.
  unfold Query.limit_offset. cbv zeta. destruct (limit <? 0)%Z.
  - apply sublist_drop.
  - etrans; [apply sublist_take | apply sublist_drop].
Qed.

Lemma visitors_names_NoDup (nowMs : Z) (ch : option string)
    (limit offset : Z) (st : Store.t) :
  keyed st →
  NoDup ((λ v, Store.username (Query.v_profile v))
           <$> Query.getPopularVisitors nowMs ch limit offset st).
Proof.
  intros Hkeyed. unfold Query.getPopularVisitors.
  eapply sublist_NoDup;
    [|apply (fmap_sublist _), limit_offset_sublist_of].
  rewrite merge_sort_Permutation, <- list_fmap_compose.
  eapply sublist_NoDup; [|apply (fmap_sublist _), sublist_filter].
  rewrite <- list_fmap_compose.
  erewrite list_fmap_ext; [apply (NoDup_fst_map_to_list (Store.users st))|].
  intros i [k p] Hi. simpl. apply Hkeyed.
  apply elem_of_map_to_list. by eapply list_elem_of_lookup_2.
Qed.

(** X11. The users table keeps a profile under its own user name through
    any writes. In such a store no user is listed twice by
    [getPopularVisitors], and a page is never longer than the number
    [countVisitors] reports for the channel. *)
Theorem visitors_are_counted (st : Store.t) (ws : list write) (nowMs : Z)
    (ch : option string) (limit offset : Z) :
  keyed st →
  let st' := apply_writes st ws in
  keyed st'
  ∧ NoDup ((λ v, Store.username (Query.v_profile v))
             <$> Query.getPopularVisitors nowMs ch limit offset st')
  ∧ (length (Query.getPopularVisitors nowMs ch limit offset st')
     ≤ Query.countVisitors ch st')%nat.
Proof.
  intros Hkeyed0 st'.
  pose proof (keyed_apply_writes st ws Hkeyed0) as Hkeyed. fold st' in Hkeyed.
  pose proof (visitors_names_NoDup nowMs ch limit offset st' Hkeyed) as Hnd.
  split; [done|]. split; [done|].
  rewrite <- (length_fmap (λ v, Store.username (Query.v_profile v))).
  unfold Query.countVisitors. apply submseteq_length, NoDup_submseteq; [done|].
  intros u (v & -> & Hv)%list_elem_of_fmap.
  apply elem_of_visitors in Hv as (k & p & _ & Hvis & ->). simpl.
  apply elem_of_remove_dups.
  destruct (Query.visits (Store.username p) ch st') as [|r rows] eqn:Hrows;
    [done|].
  assert (r ∈ Query.visits (Store.username p) ch st') as Hr
    by (rewrite Hrows; left).
  unfold Query.visits in Hr. apply list_elem_of_filter in Hr as [Hu Hr].
  apply list_elem_of_fmap. by exists r.
Qed.

(** X11 from the empty store: two users visit a channel, one of them has a
    profile. *)
Lemma visitors_are_counted_witness :
  let ws := [WJoin "ann" 1000 (Some "chan"); WJoin "ben" 2000 (Some "chan");
             WSave (Store.Profile "ann" (Some "1") None None (Some 7%Z) None
                      3000);
             WSave (Store.Profile "cy" (Some "3") None None None None
                      3001)] in
  let st' := apply_writes Store.empty ws in
  keyed Store.empty
  ∧ (length (Query.getPopularVisitors 5000 (Some "chan") 100 0 st')
     ≤ Query.countVisitors (Some "chan") st')%nat
  ∧ length (Query.getPopularVisitors 5000 (Some "chan") 100 0 st') = 1%nat
  ∧ Query.countVisitors (Some "chan") st' = 2%nat.
Proof.
  intros ws st'.
  assert (keyed Store.empty) as Hkeyed.
  { intros k p Hk. exact (False_ind _ (lookup_empty_Some k p Hk)). }
  destruct (visitors_are_counted Store.empty ws 5000 (Some "chan") 100 0
              Hkeyed) as (_ & _ & Hle).
  split; [exact Hkeyed|]. split; [exact Hle|].
  split; vm_compute; reflexivity.
Defined.

(** ** The footprint of a run *)

Lemma answer_log o n c e : log (answer o n c e).2 = log e.
Proof.
  destruct c; simpl; try done; unfold io, io_event, io_file;
    destruct (io_fail o n); simpl; rewrite ?log_cut_event, ?log_cut_file;
    done.
Qed.

(** A call changes the store by the write it is. *)
Lemma answer_store o n c e :
  store (answer o n c e).2
  = apply_writes (store e)
      (option_list (entry_write (io_stage o n) (Entry c (answer o n c e).1))).
Proof.
  destruct c; simpl; try done;
    try (by destruct (token_reply o n)); try (by destruct (chatters_reply o n));
    try (by destruct (users_reply o n)); try (by destruct (followers_reply o n));
    unfold io, io_event, io_file, cut_event, cut_file;
    destruct (io_fail o n); simpl; try done;
    by destruct (io_stage o n) as [|[|?]].
Qed.

Lemma answer_authFile o n c e :
  authFile (answer o n c e).2
  = entry_file (io_stage o n) (Entry c (answer o n c e).1) (authFile e).
Proof.
  destruct c; simpl; try done;
    unfold io, io_event, io_file, cut_event, cut_file;
    destruct (io_fail o n); simpl; try done;
    by destruct (io_stage o n) as [|[|?]].
Qed.

Lemma writes_of_app o n s1 s2 :
  writes_of o n (s1 ++ s2)
  = writes_of o n s1 ++ writes_of o (n + length s1) s2.
Proof.
  revert n. induction s1 as [|en s1 IH]; intros n; simpl.
  - by rewrite Nat.add_0_r.
  - rewrite IH, <- app_assoc. by rewrite Nat.add_succ_r.
Qed.

Lemma apply_writes_app st ws1 ws2 :
  apply_writes st (ws1 ++ ws2) = apply_writes (apply_writes st ws1) ws2.
Proof. unfold apply_writes. apply foldl_app. Qed.

(** The store after a run is the store before it with the writes of the
    log applied in their order, the cut ones among them; the credential
    file is what the calls of the log made of it. *)
Lemma run_replays {A : Type} arr o (p : prog A) h e :
  ∃ seg,
    log (run arr o p h e).2 = log e ++ seg
    ∧ store (run arr o p h e).2
      = apply_writes (store e) (writes_of o (length (log e)) seg)
    ∧ authFile (run arr o p h e).2
      = file_after o (length (log e)) (authFile e) seg.
Proof.
  revert h e. induction p as [a|x|k IH|h' k IH|c k IH]; intros h e; simpl;
    try (by exists []; rewrite app_nil_r); try done.
  pose proof (answer_log o (length (log e)) c e) as Hlog.
  pose proof (answer_store o (length (log e)) c e) as Hst.
  pose proof (answer_authFile o (length (log e)) c e) as Hfile.
  destruct (answer o (length (log e)) c e) as [r e1].
  cbn [fst snd] in Hlog, Hst, Hfile.
  match goal with |- context [run arr o (k r) ?h1 ?e2] =>
    destruct (IH r h1 e2) as (seg & Hl & Hs & Hf)
  end.
  exists (Entry c r :: seg). rewrite Hl, Hs, Hf.
  cbn [add_log log store authFile writes_of file_after].
  rewrite Hlog, Hst, Hfile, length_app, apply_writes_app. simpl.
  rewrite Nat.add_1_r. split; [by rewrite <- app_assoc|]. done.
Qed.

Section Within.
Context (C : call → Prop) (R : heap → heap → Prop) `{!PreOrder R}.
Context (Harr : ∀ h l, R h (set_queue (enqueue_into (queue h) l) h)).

Lemma within_ret {A : Type} (a : A) : within C R (Ret a).
Proof using Type*. intros arr o h e. exists []. simpl. by rewrite app_nil_r. Qed.

Lemma within_throw {A : Type} (x : jserror) : within C R (Throw (A:=A) x).
Proof using Type*. intros arr o h e. exists []. simpl. by rewrite app_nil_r. Qed.

Lemma within_bind {A B : Type} (p : prog A) (f : A → prog B) :
  within C R p → (∀ a, within C R (f a)) → within C R (p ≫= f).
Proof using Type*.
  intros Hp Hf arr o h e. rewrite run_bind.
  destruct (Hp arr o h e) as [seg1 H1].
  destruct (run arr o p h e) as [[[a|x] h1] e1].
  - destruct H1 as (Hl1 & Hc1 & Hr1).
    destruct (Hf a arr o h1 e1) as [seg2 H2].
    destruct (run arr o (f a) h1 e1) as [[r2 h2] e2].
    destruct H2 as (Hl2 & Hc2 & Hr2). exists (seg1 ++ seg2).
    split; [by rewrite Hl2, Hl1, app_assoc|].
    split; [by apply Forall_app | by etrans].
  - by exists seg1.
Qed.

Lemma within_get {A : Type} (k : heap → prog A) :
  (∀ h, within C R (k h)) → within C R (Get k).
Proof using Type*. intros Hk arr o h e. apply (Hk h arr o h e). Qed.

Lemma within_gets {A : Type} (f : heap → A) : within C R (gets f).
Proof using Type*. intros arr o h e. exists []. simpl. by rewrite app_nil_r. Qed.

Lemma within_modify (f : heap → heap) :
  (∀ h, R h (f h)) → within C R (modify f).
Proof using Type*. intros Hf arr o h e. exists []. simpl. by rewrite app_nil_r. Qed.

Lemma within_call (c : call) : C c → within C R (call_ c).
Proof using Type*.
  intros Hc arr o h e. simpl.
  pose proof (answer_log o (length (log e)) c e) as Hlog.
  destruct (answer o (length (log e)) c e) as [r e1]. simpl in Hlog.
  exists [Entry c r].
  assert (R h (if awaited c
               then set_queue (enqueue_into (queue h) (arr (length (log e)))) h
               else h)) as HR by (destruct (awaited c); [apply Harr | done]).
  destruct r; simpl; rewrite Hlog; repeat split; try done;
    by apply Forall_singleton.
Qed.

Lemma within_try_catch {A : Type} (p : prog A) (handler : jserror → prog A) :
  within C R p → (∀ x, within C R (handler x)) →
  within C R (try_catch p handler).
Proof using Type*.
  intros Hp Hf arr o h e. rewrite run_try_catch.
  destruct (Hp arr o h e) as [seg1 H1].
  destruct (run arr o p h e) as [[[a|x] h1] e1].
  - by exists seg1.
  - destruct H1 as (Hl1 & Hc1 & Hr1).
    destruct (Hf x arr o h1 e1) as [seg2 H2].
    destruct (run arr o (handler x) h1 e1) as [[r2 h2] e2].
    destruct H2 as (Hl2 & Hc2 & Hr2). exists (seg1 ++ seg2).
    split; [by rewrite Hl2, Hl1, app_assoc|].
    split; [by apply Forall_app | by etrans].
Qed.

Lemma within_try_finally {A : Type} (p : prog A) (f : prog unit) :
  within C R p → within C R f → within C R (try_finally p f).
Proof using Type*.
  intros Hp Hf arr o h e. rewrite run_try_finally.
  destruct (Hp arr o h e) as [seg1 H1].
  destruct (run arr o p h e) as [[r h1] e1].
  destruct H1 as (Hl1 & Hc1 & Hr1).
  destruct (Hf arr o h1 e1) as [seg2 H2].
  destruct (run arr o f h1 e1) as [[r2 h2] e2].
  destruct H2 as (Hl2 & Hc2 & Hr2). exists (seg1 ++ seg2).
  destruct r2; (split; [by rewrite Hl2, Hl1, app_assoc|]);
    (split; [by apply Forall_app | by etrans]).
Qed.

Lemma within_for_each {A : Type} (l : list A) (body : A → prog unit) :
  (∀ x, within C R (body x)) → within C R (for_each l body).
Proof using Type*.
  intros Hbody. induction l as [|x l IH]; simpl; [apply within_ret|].
  apply (within_bind (body x) (λ _, for_each l body)); [apply Hbody | done].
Qed.

End Within.

Lemma within_weaken {A : Type} (C C' : call → Prop)
    (R R' : heap → heap → Prop) (p : prog A) :
  (∀ c, C c → C' c) → (∀ h h', R h h' → R' h h') →
  within C R p → within C' R' p.
Proof.
  intros HC HR Hp arr o h e. destruct (Hp arr o h e) as [seg H].
  exists seg. destruct (run arr o p h e) as [[r h'] e'].
  destruct H as (Hl & Hc & Hr). split; [done|].
  split; [|by apply HR]. eapply Forall_impl; [done|]. intros en. apply HC.
Qed.

(** ** The footprint of a tick *)

#[global] Instance same_identity_preorder : PreOrder same_identity.
Proof.
  split.
  - by intros a.
  - intros a b c (? & ? & ? & ?) (? & ? & ? & ?).
    repeat split; congruence.
Qed.

#[global] Instance tick_frame_preorder sid : PreOrder (tick_frame sid).
Proof.
  split.
  - intros h. by repeat split.
  - intros h1 h2 h3 (Hc1 & Hr1 & Hq1 & Ho1 & Hi1) (Hc2 & Hr2 & Hq2 & Ho2 & Hi2).
    split; [congruence|]. split; [congruence|]. split; [by auto|].
    split; [|by etrans]. intros sid' Hne. by rewrite Ho2, Ho1.
Qed.

Lemma tick_frame_arrivals sid h l :
  tick_frame sid h (set_queue (enqueue_into (queue h) l) h).
Proof.
  split; [done|]. split; [done|]. split; [|done]. simpl.
  intros x Hx. apply elem_of_enqueue_into. by left.
Qed.

Lemma tick_frame_set_tenant sid a h :
  same_identity (tenant h sid) a → tick_frame sid h (set_tenant sid a h).
Proof.
  intros Ha. split; [done|]. split; [done|]. split; [done|]. split.
  - intros sid' Hne. unfold set_tenant. simpl. by rewrite lookup_insert_ne.
  - by rewrite tenant_set_tenant.
Qed.

Lemma tick_frame_set_enrichToken sid t h :
  tick_frame sid h (set_enrichToken t h).
Proof. by repeat split. Qed.

#[global] Instance try_frame_preorder sid : PreOrder (try_frame sid).
Proof.
  split.
  - intros h. split; [reflexivity | done].
  - intros h1 h2 h3 [H1 Hp1] [H2 Hp2]. split; [by etrans | congruence].
Qed.

Lemma try_frame_arrivals sid h l :
  try_frame sid h (set_queue (enqueue_into (queue h) l) h).
Proof. split; [apply tick_frame_arrivals | done]. Qed.

Lemma try_frame_set_tenant sid a h :
  same_identity (tenant h sid) a → lastPollAt a = lastPollAt (tenant h sid) →
  try_frame sid h (set_tenant sid a h).
Proof.
  intros Ha Hp. split; [by apply tick_frame_set_tenant|].
  by rewrite tenant_set_tenant.
Qed.

Lemma try_frame_set_enrichToken sid t h :
  try_frame sid h (set_enrichToken t h).
Proof. split; [apply tick_frame_set_enrichToken | done]. Qed.

(** One step in the proof that a program stays within a footprint;
    [arrivals] shows that the footprint allows what other tasks enqueue. *)
Ltac within_step arrivals :=
  lazymatch goal with
  | |- within _ _ (if ?b then _ else _) => destruct b
  | |- within _ _ (_ ≫= _) => apply within_bind
  | |- within _ _ (try_catch _ _) => apply within_try_catch
  | |- within _ _ (try_finally _ _) => apply within_try_finally
  | |- within _ _ (for_each _ _) => apply within_for_each
  | |- within _ _ (gets _) => apply within_gets
  | |- within _ _ (Ret _) => apply within_ret
  | |- within _ _ (Throw _) => apply within_throw
  | |- within ?C ?R (call_ ?c0) => apply (within_call C R) with (c := c0)
  | |- within _ _ (modify _) => apply within_modify
  | |- ∀ _, _ => intro
  end;
  try solve [apply _]; try solve [intros; arrivals].

Ltac tick_step :=
  first [ exact I
        | apply try_frame_set_tenant; by repeat split
        | apply try_frame_set_enrichToken
        | progress cbv zeta
        | within_step ltac:(apply try_frame_arrivals) ].

Lemma persistAuth_within sid : within tick_call (try_frame sid) persistAuth.
Proof. unfold persistAuth. repeat tick_step. Qed.

Lemma refresh_now_within sid :
  within tick_call (try_frame sid) (refresh_now sid).
Proof.
  unfold refresh_now, refreshAccessToken.
  repeat first [apply persistAuth_within | tick_step].
Qed.

Lemma ensureFreshToken_within sid :
  within tick_call (try_frame sid) (ensureFreshToken sid).
Proof.
  unfold ensureFreshToken. repeat first [apply refresh_now_within | tick_step].
Qed.

Lemma fetchChatters_loop_within sid n cid tok bid mid users after :
  within tick_call (try_frame sid)
    (fetchChatters_loop n cid tok bid mid users after).
Proof.
  revert users after. induction n as [|n IH]; intros users after;
    cbn [fetchChatters_loop]; repeat first [apply IH | done | tick_step].
Qed.

Lemma reconcile_within sid ts next :
  within tick_call (try_frame sid) (reconcile sid ts next).
Proof. unfold reconcile, enqueue. repeat tick_step. Qed.

Lemma tickTry_within sid ts :
  within tick_call (try_frame sid) (tickTry sid ts).
Proof.
  unfold tickTry, fetchChatters.
  repeat first [ apply ensureFreshToken_within
               | apply fetchChatters_loop_within
               | apply reconcile_within
               | tick_step ].
Qed.

Lemma tickCatch_within sid err :
  within tick_call (try_frame sid) (tickCatch sid err).
Proof.
  unfold tickCatch. repeat first [apply refresh_now_within | tick_step].
Qed.

Lemma tickOne_within sid : within tick_call (tick_frame sid) (tickOne sid).
Proof.
  unfold tickOne.
  repeat first
    [ exact I
    | apply tick_frame_set_tenant; by repeat split
    | apply (within_weaken tick_call tick_call (try_frame sid));
        [done | by intros ?? [] | apply tickTry_within]
    | apply (within_weaken tick_call tick_call (try_frame sid));
        [done | by intros ?? [] | apply tickCatch_within]
    | progress cbv zeta
    | within_step ltac:(apply tick_frame_arrivals) ].
Qed.

Section Unfailing.

Lemma unfailing_ret {A : Type} (a : A) : unfailing (Ret a).
Proof. intros arr o h e. by exists a. Qed.

Lemma unfailing_gets {A : Type} (f : heap → A) : unfailing (gets f).
Proof. intros arr o h e. by exists (f h). Qed.

Lemma unfailing_modify (f : heap → heap) : unfailing (modify f).
Proof. intros arr o h e. by exists tt. Qed.

(** The clock does not fail. *)
Lemma unfailing_now : unfailing (call_ DateNow).
Proof. intros arr o h e. by eexists. Qed.

Lemma unfailing_bind {A B : Type} (p : prog A) (f : A → prog B) :
  unfailing p → (∀ a, unfailing (f a)) → unfailing (p ≫= f).
Proof.
  intros Hp Hf arr o h e. rewrite run_bind.
  destruct (Hp arr o h e) as [a Ha].
  destruct (run arr o p h e) as [[r h1] e1]. simpl in Ha. subst r.
  apply Hf.
Qed.

Lemma unfailing_try_catch {A : Type} (p : prog A)
    (handler : jserror → prog A) :
  (∀ x, unfailing (handler x)) → unfailing (try_catch p handler).
Proof.
  intros Hf arr o h e. rewrite run_try_catch.
  destruct (run arr o p h e) as [[[a|x] h1] e1]; [by exists a | apply Hf].
Qed.

Lemma unfailing_for_each {A : Type} (l : list A) (body : A → prog unit) :
  (∀ x, unfailing (body x)) → unfailing (for_each l body).
Proof.
  intros Hbody. induction l as [|x l IH]; simpl; [apply unfailing_ret|].
  apply (unfailing_bind (body x) (λ _, for_each l body)); [apply Hbody | done].
Qed.

Lemma tickCatch_unfailing sid err : unfailing (tickCatch sid err).
Proof.
  unfold tickCatch. apply unfailing_bind; [apply unfailing_gets|]. intros a.
  destruct (_ && _).
  - apply unfailing_try_catch. intros x. apply unfailing_modify.
  - apply unfailing_modify.
Qed.

Lemma tickOne_unfailing sid : unfailing (tickOne sid).
Proof.
  unfold tickOne. apply unfailing_bind; [apply unfailing_gets|]. intros h.
  cbv zeta. destruct (_ || _); [apply unfailing_ret|].
  apply unfailing_bind; [apply unfailing_now|]. intros ts.
  apply unfailing_bind; [apply unfailing_modify|]. intros _.
  apply unfailing_try_catch. intros x. apply tickCatch_unfailing.
Qed.

End Unfailing.

Lemma users_apply_writes (st : Store.t) (ws : list write) :
  Forall (λ w, ∀ p, w ≠ WSave p) ws →
  Store.users (apply_writes st ws) = Store.users st.
Proof.
  unfold apply_writes. revert st.
  induction ws as [|w ws IH]; intros st Hws; simpl; [done|].
  apply Forall_cons in Hws as [Hw Hws]. rewrite IH by done.
  rewrite users_apply_write. destruct w; try done. by destruct (Hw p).
Qed.

Lemma Forall_writes_of (C : call → Prop) (P : write → Prop) o n
    (seg : list entry) :
  (∀ k c r w, C c → entry_write k (Entry c r) = Some w → P w) →
  Forall (λ en, C (en_call en)) seg → Forall P (writes_of o n seg).
Proof.
  intros HCP Hseg. revert n.
  induction Hseg as [|[c r] seg Hc _ IH]; intros n; cbn [writes_of];
    [done|].
  apply Forall_app. split; [|apply IH].
  destruct (entry_write (io_stage o n) (Entry c r)) as [w|] eqn:Hw;
    cbn [option_list]; [|done].
  apply Forall_singleton. by eapply HCP.
Qed.

Lemma run_tickOne_acts arr o sid h e :
  ready h sid = true →
  run arr o (tickOne sid) h e =
  let ts := clock o (length (log e)) in
  let h0 := set_tenant sid (set_lastPollAt (Some ts) (tenant h sid)) h in
  let e0 := add_log (Entry DateNow (Ok ts)) e in
  run arr o (try_catch (tickTry sid ts) (tickCatch sid)) h0 e0.
Proof.
  unfold ready, tickOne. intros H. rewrite run_gets_bind. cbv beta zeta.
  unfold id.
  assert (negb (truthy_str (clientId (cfg h)))
          || negb (truthy_str (token (tenant h sid)))
          || negb (truthy_str (broadcasterId (tenant h sid)))
          || negb (truthy_str (moderatorId (tenant h sid)))
          || negb (truthy_str (broadcasterLogin (tenant h sid))) = false) as ->.
  { rewrite <- !negb_andb. by rewrite H. }
  rewrite run_bind. simpl run at 1. cbv beta iota.
  rewrite run_bind. simpl run at 1. cbv beta iota. reflexivity.
Qed.

Lemma tickOne_polls arr o sid h e :
  ready h sid = true →
  lastPollAt (tenant (run arr o (tickOne sid) h e).1.2 sid)
  = Some (clock o (length (log e))).
Proof.
  intros Hready. rewrite run_tickOne_acts by done. cbv zeta.
  set (ts := clock o (length (log e))).
  set (h0 := set_tenant sid (set_lastPollAt (Some ts) (tenant h sid)) h).
  set (e0 := add_log (Entry DateNow (Ok ts)) e).
  assert (within tick_call (try_frame sid)
            (try_catch (tickTry sid ts) (tickCatch sid))) as Hw.
  { apply within_try_catch; [apply _ | apply try_frame_arrivals
                            | apply tickTry_within
                            | intros x; apply tickCatch_within]. }
  destruct (Hw arr o h0 e0) as [seg Hseg].
  destruct (run arr o (try_catch (tickTry sid ts) (tickCatch sid)) h0 e0)
    as [[r h'] e'].
  destruct Hseg as (_ & _ & _ & Hpoll). simpl. rewrite Hpoll.
  unfold h0. by rewrite tenant_set_tenant.
Qed.

(** X12. The footprint of a tick, whatever the provider answers, whatever
    fails and whatever other tasks enqueue meanwhile. [tickOne] throws
    nothing. It calls the clock, the token endpoint, the chatters endpoint
    with [first: 1000], [eventJoin], [eventLeave] and the credential file,
    and nothing else: never the users or followers endpoints, never
    [saveUserProfile], so the users table is as it was. It leaves the
    client configuration, the enricher's flag and every other tenant as
    they were, removes no pending name, and keeps who the tenant is and
    what it watches. A tenant that is not ready is left alone, and no call
    is made; for one that is ready the time of the poll is the clock's
    reading at the first call, however the tick ends. *)
Theorem tickOne_footprint (arr : nat → list jsval) (o : oracle)
    (sid : string) (h : heap) (e : env) :
  let '(r, h', e') := run arr o (tickOne sid) h e in
  r = Ok tt
  ∧ (∀ en, en ∈ segment e e' → tick_call (en_call en))
  ∧ cfg h' = cfg h ∧ running h' = running h
  ∧ (∀ x, x ∈ queue h → x ∈ queue h')
  ∧ (∀ sid', sid' ≠ sid → sessions h' !! sid' = sessions h !! sid')
  ∧ same_identity (tenant h sid) (tenant h' sid)
  ∧ Store.users (store e') = Store.users (store e)
  ∧ (ready h sid = false → h' = h ∧ e' = e)
  ∧ (ready h sid = true →
     lastPollAt (tenant h' sid) = Some (clock o (length (log e)))).
Proof.
  destruct (tickOne_within sid arr o h e) as [seg Hseg].
  destruct (tickOne_unfailing sid arr o h e) as [[] Hok].
  destruct (run_replays arr o (tickOne sid) h e) as (seg' & Hlog' & Hst & _).
  pose proof (run_tickOne_skip o arr sid h e) as Hskip.
  pose proof (tickOne_polls arr o sid h e) as Hpoll.
  destruct (run arr o (tickOne sid) h e) as [[r h'] e'].
  simpl in Hok, Hlog', Hst, Hpoll. subst r.
  destruct Hseg as (Hlog & Hcalls & Hc & Hr & Hq & Hoth & Hid).
  assert (seg' = seg) as -> by (rewrite Hlog in Hlog'; by simplify_list_eq).
  split; [done|]. split.
  { rewrite (segment_app _ _ _ Hlog). by apply Forall_forall. }
  split; [done|]. split; [done|]. split; [done|]. split; [done|].
  split; [done|]. split; [|split; [|done]].
  - rewrite Hst. apply users_apply_writes.
    eapply Forall_writes_of; [|exact Hcalls].
    intros k c r w Hc' Hw p ->. destruct c, r, k; simpl in Hw; try done.
  - intros Hnot. specialize (Hskip Hnot). by injection Hskip as <- <-.
Qed.

(** ** The footprint of a round of ticks *)

#[global] Instance tickAll_frame_preorder sids : PreOrder (tickAll_frame sids).
Proof.
  split.
  - intros h. by repeat split.
  - intros h1 h2 h3 (Hc1 & Hr1 & Hq1 & Ho1 & Hi1) (Hc2 & Hr2 & Hq2 & Ho2 & Hi2).
    split; [congruence|]. split; [congruence|]. split; [by auto|]. split.
    + intros sid Hsid. by rewrite Ho2, Ho1.
    + intros sid. etrans; [apply Hi1 | apply Hi2].
Qed.

Lemma tickAll_frame_arrivals sids h l :
  tickAll_frame sids h (set_queue (enqueue_into (queue h) l) h).
Proof.
  split; [done|]. split; [done|]. split; [|done]. simpl.
  intros x Hx. apply elem_of_enqueue_into. by left.
Qed.

Lemma tenant_lookup h h' sid :
  sessions h' !! sid = sessions h !! sid → tenant h' sid = tenant h sid.
Proof. unfold tenant. rewrite !lookup_total_alt. by intros ->. Qed.

Lemma tick_frame_tickAll_frame sid sids h h' :
  sid ∈ sids → tick_frame sid h h' → tickAll_frame sids h h'.
Proof.
  intros Hin (Hc & Hr & Hq & Hoth & Hid).
  split; [done|]. split; [done|]. split; [done|]. split.
  - intros sid' Hnot. apply Hoth. by intros ->.
  - intros sid'. destruct (decide (sid' = sid)) as [->|Hne]; [done|].
    rewrite (tenant_lookup h h' sid') by by apply Hoth. reflexivity.
Qed.

Lemma tickAll_within sids :
  within tick_call (tickAll_frame sids) (tickAll sids).
Proof.
  unfold tickAll.
  assert (∀ l, l ⊆ sids →
               within tick_call (tickAll_frame sids) (for_each l tickOne))
    as Hall; [|by apply Hall].
  induction l as [|sid l IH]; intros Hl; simpl.
  - apply within_ret; try apply _. apply tickAll_frame_arrivals.
  - apply (@within_bind tick_call (tickAll_frame sids) _
             (tickAll_frame_arrivals sids) _ _ (tickOne sid)
             (λ _, for_each l tickOne)); [|intros _; apply IH; set_solver].
    apply (within_weaken tick_call tick_call (tick_frame sid));
      [done | | apply tickOne_within].
    intros ??. apply tick_frame_tickAll_frame. set_solver.
Qed.

Lemma ready_frame sid h h' :
  cfg h' = cfg h → tenant h' sid = tenant h sid → ready h' sid = ready h sid.
Proof. unfold ready. by intros -> ->. Qed.

(** A tick that acts calls the clock first. *)
Lemma tickOne_calls arr o sid h e :
  ready h sid = true →
  (length (log e) < length (log (run arr o (tickOne sid) h e).2))%nat.
Proof.
  intros Hready. rewrite run_tickOne_acts by done. cbv zeta.
  match goal with |- context [run arr o ?p ?h0 ?e0] =>
    destruct (run_log arr o p h0 e0) as [seg ->]
  end.
  simpl. rewrite !length_app. simpl. lia.
Qed.

(** Every ready tenant of a round is polled during the round. *)
Lemma tickAll_polls arr o sids h e sid :
  NoDup sids → sid ∈ sids → ready h sid = true →
  ∃ n, (length (log e) ≤ n < length (log (run arr o (tickAll sids) h e).2))%nat
       ∧ lastPollAt (tenant (run arr o (tickAll sids) h e).1.2 sid)
         = Some (clock o n).
Proof.
  unfold tickAll. intros Hnd. revert h e.
  induction Hnd as [|s rest Hs Hnd IH]; intros h e Hin Hready;
    [by apply elem_of_nil in Hin|].
  rewrite run_for_each_cons.
  destruct (tickOne_within s arr o h e) as [seg1 Hone].
  destruct (tickOne_unfailing s arr o h e) as [[] Hok].
  pose proof (tickOne_polls arr o s h e) as Hpoll.
  pose proof (tickOne_calls arr o s h e) as Hcalls.
  destruct (run_log arr o (tickOne s) h e) as [seg0 Hseg0].
  destruct (run arr o (tickOne s) h e) as [[r h1] e1].
  destruct Hone as (_ & _ & Hc & _ & _ & Hoth & _).
  simpl in Hok, Hpoll, Hcalls, Hseg0. subst r.
  destruct (tickAll_within rest arr o h1 e1) as [seg Hseg].
  unfold tickAll in Hseg.
  destruct (decide (sid = s)) as [->|Hne].
  - destruct (run arr o (for_each rest tickOne) h1 e1) as [[r2 h2] e2].
    destruct Hseg as (Hlog & _ & _ & _ & _ & Hrest & _). simpl.
    exists (length (log e)). split.
    + specialize (Hcalls Hready). rewrite Hlog, length_app. lia.
    + rewrite (tenant_lookup h1 h2 s) by by apply Hrest. by apply Hpoll.
  - apply elem_of_cons in Hin as [?|Hin]; [done|].
    destruct (IH h1 e1 Hin) as (n & Hn & Hlast).
    { rewrite (ready_frame sid h h1); [done | done |].
      by apply tenant_lookup, Hoth. }
    exists n. split; [|done].
    rewrite Hseg0, length_app in Hn. lia.
Qed.

(** X13. A round of ticks, [tickAll], whatever the provider answers,
    whatever fails and whatever other tasks enqueue meanwhile. It throws
    nothing and makes only the calls of a tick. It leaves the client
    configuration, the enricher's flag, the users table and every tenant
    outside the round as they were, removes no pending name, and no
    tenant changes who it is or what it watches. The failure of one
    tenant's tick stops no other: every tenant of the round that is ready
    when the round starts is polled during the round. *)
Theorem tickAll_footprint (arr : nat → list jsval) (o : oracle)
    (sids : list string) (h : heap) (e : env) :
  NoDup sids →
  let '(r, h', e') := run arr o (tickAll sids) h e in
  r = Ok tt
  ∧ (∀ en, en ∈ segment e e' → tick_call (en_call en))
  ∧ cfg h' = cfg h ∧ running h' = running h
  ∧ (∀ x, x ∈ queue h → x ∈ queue h')
  ∧ (∀ sid, sid ∉ sids → sessions h' !! sid = sessions h !! sid)
  ∧ (∀ sid, same_identity (tenant h sid) (tenant h' sid))
  ∧ Store.users (store e') = Store.users (store e)
  ∧ (∀ sid, sid ∈ sids → ready h sid = true →
       ∃ n, (length (log e) ≤ n < length (log e'))%nat
            ∧ lastPollAt (tenant h' sid) = Some (clock o n)).
Proof.
  intros Hnd.
  destruct (tickAll_within sids arr o h e) as [seg Hseg].
  assert (unfailing (tickAll sids)) as Hunf
    by (apply unfailing_for_each, tickOne_unfailing).
  destruct (Hunf arr o h e) as [[] Hok].
  destruct (run_replays arr o (tickAll sids) h e) as (seg' & Hlog' & Hst & _).
  pose proof (λ sid, tickAll_polls arr o sids h e sid Hnd) as Hpolls.
  destruct (run arr o (tickAll sids) h e) as [[r h'] e'].
  simpl in Hok, Hlog', Hst, Hpolls. subst r.
  destruct Hseg as (Hlog & Hcalls & Hc & Hr & Hq & Hoth & Hid).
  assert (seg' = seg) as -> by (rewrite Hlog in Hlog'; by simplify_list_eq).
  split; [done|]. split.
  { rewrite (segment_app _ _ _ Hlog). by apply Forall_forall. }
  split; [done|]. split; [done|]. split; [done|]. split; [done|].
  split; [done|]. split; [|done].
  rewrite Hst. apply users_apply_writes.
  eapply Forall_writes_of; [|exact Hcalls].
  intros k c r w Hc' Hw p ->. destruct c, r, k; simpl in Hw; try done.
Qed.

(** X13 at a round of two tenants: the provider is unreachable during the
    first tick, the second tenant is polled all the same. *)
Lemma tickAll_footprint_witness :
  let sids := ["s1"; "s2"] in
  let s := run quiet outage_world (tickAll sids) two_tenants env0 in
  NoDup sids
  ∧ ready two_tenants "s2" = true
  ∧ (∃ n, (0 ≤ n < length (log s.2))%nat
          ∧ lastPollAt (tenant s.1.2 "s2") = Some (clock outage_world n))
  ∧ lastError (tenant s.1.2 "s1") = Some "network down"
  ∧ lastPollAt (tenant s.1.2 "s2") = Some 2000%Z
  ∧ current (tenant s.1.2 "s2") = ["dora"].
Proof.
  intros sids s.
  assert (NoDup sids) as Hnd
    by (apply (bool_decide_unpack _); vm_compute; exact I).
  pose proof (tickAll_footprint quiet outage_world sids two_tenants env0 Hnd)
    as Hfoot.
  fold s in Hfoot. destruct s as [[r h'] e'] eqn:Hs.
  destruct Hfoot as (_ & _ & _ & _ & _ & _ & _ & _ & Hpolls).
  split; [exact Hnd|]. split; [reflexivity|].
  split; [apply (Hpolls "s2"); [|reflexivity]|].
  { apply (bool_decide_unpack _). vm_compute. exact I. }
  assert (s = (r, h', e')) as Hs' by exact Hs.
  vm_compute in Hs'. injection Hs' as <- <- <-.
  split; [reflexivity|]. split; reflexivity.
Defined.

(** ** The batched lookup *)

Lemma chunks_from_sizes fuel i (l : list string) :
  Forall (λ c, 0 < length c ≤ 100 ∧ length c ≤ length l)%nat
    (chunks_from fuel i l).
Proof.
  revert i. induction fuel as [|fuel IH]; intros i; simpl; [done|].
  destruct (Nat.ltb_spec i (length l)) as [Hlt|Hge]; [|done].
  apply Forall_cons. split; [|apply IH].
  rewrite length_take, length_drop. lia.
Qed.

Lemma chunks_from_concat fuel i (l : list string) :
  (length l ≤ fuel * 100 + i)%nat → concat (chunks_from fuel i l) = drop i l.
Proof.
  revert i. induction fuel as [|fuel IH]; intros i Hfuel; simpl.
  - by rewrite drop_ge by lia.
  - destruct (Nat.ltb_spec i (length l)) as [Hlt|Hge].
    + simpl. rewrite IH by lia. rewrite <- drop_drop. apply take_drop.
    + by rewrite drop_ge by lia.
Qed.

Lemma chunks_from_length fuel i (l : list string) :
  (length l ≤ fuel * 100 + i)%nat →
  (length l - i ≤ 100 * length (chunks_from fuel i l) < length l - i + 100)%nat.
Proof.
  revert i. induction fuel as [|fuel IH]; intros i Hfuel; simpl; [lia|].
  destruct (Nat.ltb_spec i (length l)) as [Hlt|Hge]; simpl; [|lia].
  specialize (IH (i + 100)%nat). lia.
Qed.

Lemma run_fetch_chunks arr o cid tok (chunks : list (list string))
    (out : list helixUser) h e :
  ∃ k seg,
    let '(r, h', e') := run arr o (fetch_chunks cid tok chunks out) h e in
    log e' = log e ++ seg
    ∧ store e' = store e
    ∧ en_call <$> seg = GetUsers cid tok <$> take k chunks
    ∧ match r with
      | Ok res =>
          k = length chunks
          ∧ Forall (λ en, failed en = false) seg
          ∧ res = out ++ concat (entry_users <$> seg)
      | Err x =>
          ∃ pre c, seg = pre ++ [Entry (GetUsers cid tok c) (Err x)]
                   ∧ Forall (λ en, failed en = false) pre
      end.
Proof.
  revert out h e. induction chunks as [|chunk rest IH]; intros out h e.
  - exists 0%nat, []. simpl. rewrite !app_nil_r. by repeat split.
  - cbn [fetch_chunks]. rewrite run_bind. simpl run at 1.
    destruct (users_reply o (length (log e))) as [res|x] eqn:Hrep;
      cbn [run].
    + match goal with
      |- context [run arr o (fetch_chunks cid tok rest _) ?h1 ?e1] =>
        destruct (IH (out ++ default [] res) h1 e1) as (k & seg & Hrun);
        destruct (run arr o (fetch_chunks cid tok rest (out ++ default [] res))
                    h1 e1) as [[r h'] e']
      end.
      destruct Hrun as (Hlog & Hst & Hcalls & Hr).
      exists (S k), (Entry (GetUsers cid tok chunk) (Ok res) :: seg).
      split; [rewrite Hlog; simpl; by rewrite <- app_assoc|].
      split; [done|]. split; [rewrite fmap_cons, Hcalls; done|].
      destruct r as [us|x].
      * destruct Hr as (-> & Hok & ->). split; [done|].
        split; [by apply Forall_cons|]. simpl. by rewrite app_assoc.
      * destruct Hr as (pre & c & -> & Hok).
        exists (Entry (GetUsers cid tok chunk) (Ok res) :: pre), c.
        split; [done|]. by apply Forall_cons.
    + exists 1%nat, [Entry (GetUsers cid tok chunk) (Err x)].
      split; [done|]. split; [done|]. split; [by rewrite firstn_cons, take_0|].
      exists [], chunk. done.
Qed.

(** X14. [fetchUsersByLogins] asks for the logins in their order, each one
    once, in requests of 100 logins at most, none of them empty, and in as
    few requests as that allows; no login means no request. If every
    request succeeds it returns the users of all the replies in their
    order; a request that fails is the last one made, and its error is
    what is thrown. The store is not touched. *)
Theorem fetchUsersByLogins_requests (arr : nat → list jsval) (o : oracle)
    (cid tok : option string) (logins : list string) (h : heap) (e : env) :
  let chunks := chunks_from (length logins) 0 logins in
  let '(r, h', e') := run arr o (fetchUsersByLogins cid tok logins) h e in
  concat chunks = logins
  ∧ Forall (λ c, 0 < length c ≤ 100)%nat chunks
  ∧ (length logins ≤ 100 * length chunks < length logins + 100)%nat
  ∧ store e' = store e
  ∧ ∃ k, en_call <$> segment e e' = GetUsers cid tok <$> take k chunks
         ∧ match r with
           | Ok users =>
               k = length chunks
               ∧ (∀ en, en ∈ segment e e' → failed en = false)
               ∧ users = concat (entry_users <$> segment e e')
           | Err x =>
               ∃ pre c,
                 segment e e' = pre ++ [Entry (GetUsers cid tok c) (Err x)]
                 ∧ ∀ en, en ∈ pre → failed en = false
           end.
Proof.
  cbv zeta.
  assert (run arr o (fetchUsersByLogins cid tok logins) h e
          = run arr o (fetch_chunks cid tok
                         (chunks_from (length logins) 0 logins) []) h e)
    as ->.
  { unfold fetchUsersByLogins. destruct logins; done. }
  destruct (run_fetch_chunks arr o cid tok
              (chunks_from (length logins) 0 logins) [] h e)
    as (k & seg & Hrun).
  destruct (run arr o _ h e) as [[r h'] e'].
  destruct Hrun as (Hlog & Hst & Hcalls & Hr).
  rewrite (segment_app _ _ _ Hlog).
  split; [by rewrite chunks_from_concat, drop_0 by lia|].
  split.
  { eapply Forall_impl; [apply chunks_from_sizes|]. simpl. lia. }
  split.
  { pose proof (chunks_from_length (length logins) 0 logins). lia. }
  split; [done|]. exists k. split; [done|].
  destruct r as [users|x].
  - destruct Hr as (-> & Hok & ->). split; [done|].
    split; [by apply Forall_forall | done].
  - destruct Hr as (pre & c & -> & Hok). exists pre, c.
    split; [done | by apply Forall_forall].
Qed.

(** ** The footprint of a drain *)

#[global] Instance drain_frame_preorder : PreOrder drain_frame.
Proof.
  split.
  - intros h. by repeat split.
  - intros h1 h2 h3 (? & ? & ?) (? & ? & ?). repeat split; congruence.
Qed.

Lemma drain_frame_arrivals h l :
  drain_frame h (set_queue (enqueue_into (queue h) l) h).
Proof. by repeat split. Qed.

Lemma within_gets_bind {A B : Type} (C : call → Prop)
    (R : heap → heap → Prop) (f : heap → A) (k : A → prog B) :
  (∀ h, within C R (k (f h))) → within C R (gets f ≫= k).
Proof. intros Hk arr o h e. rewrite run_gets_bind. apply Hk. Qed.

Ltac drain_step :=
  first [ exact I
        | progress cbv zeta
        | lazymatch goal with
          | |- within _ _ (gets _ ≫= _) => apply within_gets_bind; intros ?
          | |- drain_frame _ _ => by repeat split
          end
        | within_step ltac:(apply drain_frame_arrivals) ].

Lemma fetch_chunks_within cid tok (chunks : list (list string)) out :
  Forall (λ c, 0 < length c ≤ 50)%nat chunks →
  within drain_call drain_frame (fetch_chunks cid tok chunks out).
Proof.
  intros Hchunks. revert out.
  induction Hchunks as [|chunk rest Hchunk _ IH]; intros out;
    cbn [fetch_chunks]; repeat first [apply IH | done | drain_step].
Qed.

Lemma fetchUsersByLogins_within cid tok (logins : list string) :
  (length logins ≤ 50)%nat →
  within drain_call drain_frame (fetchUsersByLogins cid tok logins).
Proof.
  intros Hlen. unfold fetchUsersByLogins.
  destruct (length logins =? 0)%nat; [drain_step|].
  apply fetch_chunks_within.
  eapply Forall_impl; [apply chunks_from_sizes|]. simpl. lia.
Qed.

Lemma enrich_user_within (u : helixUser) :
  within drain_call drain_frame (enrich_user u).
Proof.
  unfold enrich_user, fetchFollowerCount.
  repeat first [apply toLowerCase_idemp | done | drain_step].
Qed.

Lemma drain_within : within drain_call drain_frame drain.
Proof.
  unfold drain.
  repeat first [ apply fetchUsersByLogins_within; rewrite length_take; lia
               | apply enrich_user_within
               | drain_step ].
Qed.

Lemma apply_writes_saves (st : Store.t) (ws : list write) :
  Forall (λ w, ∃ p, w = WSave p) ws →
  Store.events (apply_writes st ws) = Store.events st
  ∧ Store.sessions (apply_writes st ws) = Store.sessions st.
Proof.
  unfold apply_writes. revert st.
  induction ws as [|w ws IH]; intros st Hws; simpl; [done|].
  apply Forall_cons in Hws as [[p ->] Hws].
  destruct (IH (apply_write st (WSave p)) Hws) as [-> ->]. done.
Qed.

Lemma lowercase_keys_saves (st : Store.t) (ws : list write) :
  Forall (λ w, ∃ p, w = WSave p
                    ∧ toLowerCase (Store.username p) = Store.username p) ws →
  (∀ k, is_Some (Store.users st !! k) → toLowerCase k = k) →
  ∀ k, is_Some (Store.users (apply_writes st ws) !! k) → toLowerCase k = k.
Proof.
  unfold apply_writes. revert st.
  induction ws as [|w ws IH]; intros st Hws Hst; simpl; [done|].
  apply Forall_cons in Hws as [(p & -> & Hp) Hws]. apply IH; [done|].
  simpl. intros k [q Hk].
  apply lookup_insert_Some in Hk as [[<- _]|[_ Hk]]; [done|]. by apply Hst.
Qed.

(** X15. The footprint of a drain, whatever the provider answers, whatever
    fails and whatever other tasks enqueue meanwhile. [drain] calls the
    users endpoint with 1 to 50 logins, the followers endpoint with
    [first: 1], the clock and [saveUserProfile] with a lowercase user
    name, and nothing else. It leaves the events and the sessions of the
    store, the credential file, the tenants, the client configuration and
    the enricher's token as they were. If the users table held lowercase
    names only and each profile under its own name, it still does. *)
Theorem drain_footprint (arr : nat → list jsval) (o : oracle)
    (h : heap) (e : env) :
  let '(r, h', e') := run arr o drain h e in
  (∀ en, en ∈ segment e e' → drain_call (en_call en))
  ∧ cfg h' = cfg h ∧ sessions h' = sessions h
  ∧ enrichToken h' = enrichToken h
  ∧ Store.events (store e') = Store.events (store e)
  ∧ Store.sessions (store e') = Store.sessions (store e)
  ∧ authFile e' = authFile e
  ∧ (keyed (store e) → keyed (store e'))
  ∧ ((∀ k, is_Some (Store.users (store e) !! k) → toLowerCase k = k) →
     ∀ k, is_Some (Store.users (store e') !! k) → toLowerCase k = k).
Proof.
  destruct (drain_within arr o h e) as [seg Hseg].
  destruct (run_replays arr o drain h e) as (seg' & Hlog' & Hst & Hfile).
  destruct (run arr o drain h e) as [[r h'] e'].
  simpl in Hlog', Hst, Hfile.
  destruct Hseg as (Hlog & Hcalls & Hc & Hs & Ht).
  assert (seg' = seg) as -> by (rewrite Hlog in Hlog'; by simplify_list_eq).
  assert (Forall (λ w, ∃ p, w = WSave p
                 ∧ toLowerCase (Store.username p) = Store.username p)
            (writes_of o (length (log e)) seg)) as Hsaves.
  { eapply Forall_writes_of; [|exact Hcalls].
    intros k c r0 w Hc' Hw. destruct c, r0, k; simpl in Hw; try done;
      injection Hw as <-; by eexists. }
  destruct (apply_writes_saves (store e) (writes_of o (length (log e)) seg))
    as [Hev Hss].
  { eapply Forall_impl; [exact Hsaves|]. intros w (p & -> & _). by exists p. }
  split; [rewrite (segment_app _ _ _ Hlog); by apply Forall_forall|].
  split; [done|]. split; [done|]. split; [done|].
  split; [by rewrite Hst|]. split; [by rewrite Hst|]. split.
  { rewrite Hfile. clear -Hcalls. generalize (authFile e) (length (log e)).
    induction Hcalls as [|[c r0] seg Hc _ IH]; intros f n; simpl; [done|].
    rewrite IH. destruct c, r0; simpl in *; done. }
  split.
  - rewrite Hst. apply keyed_apply_writes.
  - rewrite Hst. by apply lowercase_keys_saves.
Qed.

(** ** C1: presence among the scheduled tasks *)

Section Keeps.
Context (Inv : heap → Prop) (C : call → Prop).
Context (Harr : ∀ h l, Inv h → Inv (set_queue (enqueue_into (queue h) l) h)).

Lemma keeps_ret {A : Type} (a : A) : keeps Inv C (Ret a).
Proof using Type*.
  intros arr o h e HI. exists []. simpl. by rewrite app_nil_r.
Qed.

Lemma keeps_throw {A : Type} (x : jserror) : keeps Inv C (Throw (A:=A) x).
Proof using Type*.
  intros arr o h e HI. exists []. simpl. by rewrite app_nil_r.
Qed.

Lemma keeps_bind {A B : Type} (p : prog A) (f : A → prog B) :
  keeps Inv C p → (∀ a, keeps Inv C (f a)) → keeps Inv C (p ≫= f).
Proof using Type*.
  intros Hp Hf arr o h e HI. rewrite run_bind.
  destruct (Hp arr o h e HI) as [seg1 H1].
  destruct (run arr o p h e) as [[[a|x] h1] e1].
  - destruct H1 as (Hl1 & Hc1 & HI1).
    destruct (Hf a arr o h1 e1 HI1) as [seg2 H2].
    destruct (run arr o (f a) h1 e1) as [[r2 h2] e2].
    destruct H2 as (Hl2 & Hc2 & HI2). exists (seg1 ++ seg2).
    split; [by rewrite Hl2, Hl1, app_assoc|].
    split; [by apply Forall_app | done].
  - by exists seg1.
Qed.

(** What is read from the memory is read from one where [Inv] holds. *)
Lemma keeps_gets_bind {A B : Type} (g : heap → A) (f : A → prog B) :
  (∀ h0, Inv h0 → keeps Inv C (f (g h0))) → keeps Inv C (gets g ≫= f).
Proof using Type*.
  intros Hf arr o h e HI. rewrite run_gets_bind. by apply Hf.
Qed.

Lemma keeps_gets {A : Type} (f : heap → A) : keeps Inv C (gets f).
Proof using Type*.
  intros arr o h e HI. exists []. simpl. by rewrite app_nil_r.
Qed.

Lemma keeps_modify (f : heap → heap) :
  (∀ h, Inv h → Inv (f h)) → keeps Inv C (modify f).
Proof using Type*.
  intros Hf arr o h e HI. exists []. simpl. rewrite app_nil_r. auto.
Qed.

Lemma keeps_call (c : call) : C c → keeps Inv C (call_ c).
Proof using Type*.
  intros Hc arr o h e HI. simpl.
  pose proof (answer_log o (length (log e)) c e) as Hlog.
  destruct (answer o (length (log e)) c e) as [r e1]. simpl in Hlog.
  exists [Entry c r].
  assert (Inv (if awaited c
               then set_queue (enqueue_into (queue h) (arr (length (log e)))) h
               else h)) as HI' by (destruct (awaited c); [by apply Harr | done]).
  destruct r; simpl; rewrite Hlog; repeat split; try done;
    by apply Forall_singleton.
Qed.

Lemma keeps_try_catch {A : Type} (p : prog A) (handler : jserror → prog A) :
  keeps Inv C p → (∀ x, keeps Inv C (handler x)) →
  keeps Inv C (try_catch p handler).
Proof using Type*.
  intros Hp Hf arr o h e HI. rewrite run_try_catch.
  destruct (Hp arr o h e HI) as [seg1 H1].
  destruct (run arr o p h e) as [[[a|x] h1] e1].
  - by exists seg1.
  - destruct H1 as (Hl1 & Hc1 & HI1).
    destruct (Hf x arr o h1 e1 HI1) as [seg2 H2].
    destruct (run arr o (handler x) h1 e1) as [[r2 h2] e2].
    destruct H2 as (Hl2 & Hc2 & HI2). exists (seg1 ++ seg2).
    split; [by rewrite Hl2, Hl1, app_assoc|].
    split; [by apply Forall_app | done].
Qed.

Lemma keeps_for_each {A : Type} (l : list A) (body : A → prog unit) :
  (∀ x, keeps Inv C (body x)) → keeps Inv C (for_each l body).
Proof using Type*.
  intros Hbody. induction l as [|x l IH]; simpl; [apply keeps_ret|].
  apply (keeps_bind (body x) (λ _, for_each l body)); [apply Hbody | done].
Qed.

End Keeps.

(** One step in the proof that a program keeps an invariant. *)
Ltac keeps_step :=
  lazymatch goal with
  | |- keeps _ _ (if ?b then _ else _) => destruct b
  | |- keeps _ _ (gets _ ≫= _) => apply keeps_gets_bind; [|intros ? ?]
  | |- keeps _ _ (_ ≫= _) => apply keeps_bind
  | |- keeps _ _ (try_catch _ _) => apply keeps_try_catch
  | |- keeps _ _ (for_each _ _) => apply keeps_for_each
  | |- keeps _ _ (gets _) => apply keeps_gets
  | |- keeps _ _ (Ret _) => apply keeps_ret
  | |- keeps _ _ (Throw _) => apply keeps_throw
  | |- keeps ?Inv ?C (call_ ?c0) => apply (keeps_call Inv C) with (c := c0)
  | |- keeps _ _ (modify _) => apply keeps_modify
  end.

(** A tenant that does not watch a channel goes on not watching it, and
    its ticks write no join and no leave there. *)
Ltac apart_step :=
  first [ exact I
        | assumption
        | (intros ? ? ?; assumption)
        | (intros ? ?; assumption)
        | (intros ? HI; unfold elsewhere; rewrite tenant_set_tenant; exact HI)
        | progress cbv beta zeta
        | keeps_step
        | intro ].

Lemma persistAuth_apart sid ch :
  keeps (elsewhere sid ch) (apart_call ch) persistAuth.
Proof. unfold persistAuth. repeat apart_step. Qed.

Lemma refresh_now_apart sid ch :
  keeps (elsewhere sid ch) (apart_call ch) (refresh_now sid).
Proof.
  unfold refresh_now, refreshAccessToken.
  repeat first [apply persistAuth_apart | apart_step].
Qed.

Lemma ensureFreshToken_apart sid ch :
  keeps (elsewhere sid ch) (apart_call ch) (ensureFreshToken sid).
Proof.
  unfold ensureFreshToken. repeat first [apply refresh_now_apart | apart_step].
Qed.

Lemma fetchChatters_loop_apart sid ch n cid tok bid mid users after :
  keeps (elsewhere sid ch) (apart_call ch)
    (fetchChatters_loop n cid tok bid mid users after).
Proof.
  revert users after. induction n as [|n IH]; intros users after;
    cbn [fetchChatters_loop]; repeat first [apply IH | apart_step].
Qed.

Lemma reconcile_apart sid ch ts next :
  keeps (elsewhere sid ch) (apart_call ch) (reconcile sid ts next).
Proof. unfold reconcile, enqueue. repeat apart_step. Qed.

Lemma tickTry_apart sid ch ts :
  keeps (elsewhere sid ch) (apart_call ch) (tickTry sid ts).
Proof.
  unfold tickTry, fetchChatters.
  repeat first [ apply ensureFreshToken_apart
               | apply fetchChatters_loop_apart
               | apply reconcile_apart
               | apart_step ].
Qed.

Lemma tickCatch_apart sid ch err :
  keeps (elsewhere sid ch) (apart_call ch) (tickCatch sid err).
Proof.
  unfold tickCatch. repeat first [apply refresh_now_apart | apart_step].
Qed.

Lemma tickOne_apart sid ch :
  keeps (elsewhere sid ch) (apart_call ch) (tickOne sid).
Proof.
  unfold tickOne.
  repeat first [apply tickTry_apart | apply tickCatch_apart | apart_step].
Qed.

Lemma enricher_tick_within : within drain_call drain_frame enricher_tick.
Proof.
  unfold enricher_tick.
  apply within_try_catch;
    [apply _ | apply drain_frame_arrivals | apply drain_within
    | intros x; apply within_ret; [apply _ | apply drain_frame_arrivals]].
Qed.

Lemma open_count_apart ch u w st :
  apart_write ch w →
  Store.open_count u (Some ch) (apply_write st w)
  = Store.open_count u (Some ch) st.
Proof.
  destruct w as [v ts c|v ts c|p|v ty ts c]; simpl; intros Hw; [| |done..].
  - unfold Store.open_count, Store.eventJoin. simpl.
    rewrite filter_app, length_app, filter_cons.
    rewrite decide_False; [simpl; lia|].
    intros Hopen. by apply is_open_for_fields in Hopen as (_ & _ & Hc).
  - unfold Store.open_count.
    destruct (DiffFacts.eventLeave_cases v ts c st)
      as [[_ ->]|(i & r & Hi & Hopen & ->)]; [done|].
    pose proof (DiffFacts.count_insert (Store.is_open_for u (Some ch))
                  (Store.sessions st) i r
                  (Store.close ts
                     (Z.max 0 ((ts - Store.ss_joined_at r) / 1000)) r) Hi)
      as Hcnt.
    rewrite DiffFacts.is_open_for_close in Hcnt.
    destruct (Store.is_open_for u (Some ch) r) eqn:Hopen'; [|lia].
    apply is_open_for_fields in Hopen as (_ & _ & Hc).
    apply is_open_for_fields in Hopen' as (_ & _ & Hc').
    congruence.
Qed.

Lemma open_count_apart_writes ch u ws st :
  Forall (apart_write ch) ws →
  Store.open_count u (Some ch) (apply_writes st ws)
  = Store.open_count u (Some ch) st.
Proof.
  intros Hws. revert st. induction Hws as [|w ws Hw _ IH]; intros st; [done|].
  unfold apply_writes in *. simpl. by rewrite IH, open_count_apart.
Qed.

(** What a run whose calls are apart from a channel leaves of it. *)
Lemma run_apart {A : Type} arr o (p : prog A) h e ch seg :
  log (run arr o p h e).2 = log e ++ seg →
  Forall (λ en, apart_call ch (en_call en)) seg →
  ∀ u, Store.open_count u (Some ch) (store (run arr o p h e).2)
       = Store.open_count u (Some ch) (store e).
Proof.
  intros Hlog Hseg u.
  destruct (run_replays arr o p h e) as (seg' & Hlog' & -> & _).
  rewrite Hlog in Hlog'. apply app_inv_head in Hlog' as <-.
  apply open_count_apart_writes.
  apply (Forall_writes_of (apart_call ch)); [|done].
  intros k c r w Hc Hw. destruct c, r, k; simpl in Hw; try discriminate;
    injection Hw as <-; done.
Qed.

(** The tick of a tenant that watches another channel, and a drain, leave
    a tenant and the open sessions of its channel as they were. *)
Lemma tickOne_elsewhere arr o sid sid' ch h e :
  sid' ≠ sid → elsewhere sid' ch h →
  let '(_, h', e') := run arr o (tickOne sid') h e in
  tenant h' sid = tenant h sid
  ∧ ∀ u, Store.open_count u (Some ch) (store e')
         = Store.open_count u (Some ch) (store e).
Proof.
  intros Hne Helse.
  destruct (tickOne_within sid' arr o h e) as [seg1 H1].
  destruct (tickOne_apart sid' ch arr o h e Helse) as [seg2 H2].
  pose proof (run_apart arr o (tickOne sid') h e ch seg2) as Hcount.
  destruct (run arr o (tickOne sid') h e) as [[r h'] e'].
  destruct H1 as (_ & _ & _ & _ & _ & Hoth & _).
  destruct H2 as (Hlog & Hseg & _).
  split; [|by apply Hcount].
  unfold tenant. rewrite !lookup_total_alt. by rewrite Hoth.
Qed.

Lemma enricher_tick_elsewhere arr o sid ch h e :
  let '(_, h', e') := run arr o enricher_tick h e in
  tenant h' sid = tenant h sid
  ∧ ∀ u, Store.open_count u (Some ch) (store e')
         = Store.open_count u (Some ch) (store e).
Proof.
  destruct (enricher_tick_within arr o h e) as [seg H].
  pose proof (run_apart arr o enricher_tick h e ch seg) as Hcount.
  destruct (run arr o enricher_tick h e) as [[r h'] e'].
  destruct H as (Hlog & Hseg & _ & Hss & _).
  split; [unfold tenant; by rewrite Hss|].
  apply Hcount; [done|]. eapply Forall_impl; [done|].
  intros [c r0] Hc. by destruct c.
Qed.

(** The presence set and the store agree, and they go on agreeing through
    the ticks of the tenant that act and see no call fail, whatever else
    is scheduled between them. *)
Lemma ticks_keep_agreement o sid ch s0 Ss s :
  ticks_applied o sid ch s0 Ss s →
  broadcasterLogin (tenant s0.1 sid) = Some ch →
  NoDup (current (tenant s0.1 sid)) →
  (∀ u, Store.open_count u (Some ch) (store s0.2) =
        if bool_decide (u ∈ current (tenant s0.1 sid)) then 1%nat else 0%nat) →
  broadcasterLogin (tenant s.1 sid) = Some ch
  ∧ NoDup (current (tenant s.1 sid))
  ∧ (∀ u, Store.open_count u (Some ch) (store s.2) =
          if bool_decide (u ∈ current (tenant s.1 sid)) then 1%nat else 0%nat)
  ∧ (∀ S, last Ss = Some S → current (tenant s.1 sid) = S).
Proof.
  intros Hticks Hch0 Hnd0 Hcount0.
  induction Hticks
    as [s|s Ss h1 e1 r h2 e2 Hticks IH Hready Hrun Hok
        |s Ss h1 e1 arr sid' r h2 e2 Hticks IH Hne Helse Hrun
        |s Ss h1 e1 arr r h2 e2 Hticks IH Hrun].
  - repeat split; try done.
  - destruct (IH Hch0 Hnd0 Hcount0) as (Hch & Hnd & Hcount & _).
    simpl in Hch, Hnd, Hcount. clear IH.
    destruct (successful_tick o sid h1 e1 r h2 e2 Hready Hrun Hok)
      as (Hst & Hkp & _).
    destruct Hkp as (Hcur & _ & _ & Hbl & _). simpl in Hcur, Hbl.
    simpl. rewrite Hcur, Hbl. split; [done|].
    split; [apply NoDup_snapshot_of|]. split.
    + intros u. rewrite Hst, Hch.
      rewrite DiffFacts.open_count_leaves by by apply NoDup_filter.
      rewrite DiffFacts.open_count_joins
        by apply NoDup_filter, NoDup_snapshot_of.
      rewrite Hcount.
      repeat case_bool_decide; try lia;
        rewrite ?list_elem_of_filter in *; solve_logic.
    + intros S. rewrite last_snoc. by intros [= <-].
  - destruct (IH Hch0 Hnd0 Hcount0) as (Hch & Hnd & Hcount & Hlast).
    simpl in Hch, Hnd, Hcount, Hlast. clear IH.
    pose proof (tickOne_elsewhere arr o sid sid' ch h1 e1 Hne Helse) as Hstep.
    rewrite Hrun in Hstep. destruct Hstep as [Hten Hopen]. simpl.
    rewrite Hten. split; [done|]. split; [done|].
    split; [|done]. intros u. by rewrite Hopen.
  - destruct (IH Hch0 Hnd0 Hcount0) as (Hch & Hnd & Hcount & Hlast).
    simpl in Hch, Hnd, Hcount, Hlast. clear IH.
    pose proof (enricher_tick_elsewhere arr o sid ch h1 e1) as Hstep.
    rewrite Hrun in Hstep. destruct Hstep as [Hten Hopen]. simpl.
    rewrite Hten. split; [done|]. split; [done|].
    split; [|done]. intros u. by rewrite Hopen.
Qed.

(** C1 as stated fails: [tickAll] ticks every tenant, and when two of them
    watch the same channel each opens a session for a name that both see.
    No session is open at the start, every presence set is the one rebuilt
    from the store, no call fails, and carol has two open sessions in the
    channel after one round. *)
Lemma C1_counterexample :
  ¬ (∀ (o : oracle) (sids : list string) (ch : string) (h0 : heap)
       (e0 : env),
       NoDup sids →
       (∀ sid, sid ∈ sids →
          ready h0 sid = true
          ∧ current (tenant h0 sid)
            = Store.getOpenSet (broadcasterLogin (tenant h0 sid))
                (store e0)) →
       (∀ r, r ∈ Store.sessions (store e0) → Store.ss_left_at r ≠ None) →
       let '(_, _, e) := run quiet o (tickAll sids) h0 e0 in
       (∀ en, en ∈ segment e0 e → failed en = false) →
       ∀ u, (Store.open_count u (Some ch) (store e) ≤ 1)%nat).
Proof.
  intros H.
  specialize (H carol_world ["s1"; "s2"] "chan" one_channel env0).
  assert (NoDup ["s1"; "s2"]) as Hnd
    by (apply (bool_decide_unpack _); vm_compute; exact I).
  assert (∀ sid, sid ∈ ["s1"; "s2"] →
            ready one_channel sid = true
            ∧ current (tenant one_channel sid)
              = Store.getOpenSet (broadcasterLogin (tenant one_channel sid))
                  (store env0)) as Hall.
  { intros sid Hsid.
    repeat (apply elem_of_cons in Hsid as [->|Hsid];
            [split; vm_compute; reflexivity|]).
    by apply elem_of_nil in Hsid. }
  assert (∀ r, r ∈ Store.sessions (store env0) → Store.ss_left_at r ≠ None)
    as Hnone.
  { intros r Hr. by apply elem_of_nil in Hr. }
  specialize (H Hnd Hall Hnone).
  destruct (run quiet carol_world (tickAll ["s1"; "s2"]) one_channel env0)
    as [[r h] e] eqn:Hrun.
  assert (e = (run quiet carol_world (tickAll ["s1"; "s2"]) one_channel
                 env0).2) as He by (by rewrite Hrun).
  assert (∀ en, en ∈ segment env0 e → failed en = false) as Hok.
  { rewrite He. apply no_failure_in. vm_compute. reflexivity. }
  specialize (H Hok "carol"). rewrite He in H. vm_compute in H. lia.
Qed.

(** C1. A tenant watches a channel that no other tenant watches and for
    which the store holds no open session, its presence set being the one
    rebuilt from the store. After any succession of its ticks that act and
    see no call fail, with the ticks of the other tenants and the drains
    scheduled between them, whatever comes of those, the names with an
    open session for the channel are those of the last snapshot applied,
    each with one open session exactly: no (channel, username) has two. *)
Theorem C1_open_sessions_match_snapshot
    (o : oracle) (sid ch : string) (h0 h : heap) (e0 e : env)
    (Ss : list (list string)) (S : list string) :
  ticks_applied o sid ch (h0, e0) Ss (h, e) →
  broadcasterLogin (tenant h0 sid) = Some ch →
  (∀ r, r ∈ Store.sessions (store e0) →
        ¬ (Store.ss_left_at r = None ∧ Store.ss_channel_login r = Some ch)) →
  current (tenant h0 sid) = Store.getOpenSet (Some ch) (store e0) →
  last Ss = Some S →
  NoDup S
  ∧ current (tenant h sid) = S
  ∧ (∀ u, u ∈ S ↔
          ∃ r, r ∈ Store.sessions (store e) ∧ Store.ss_username r = u
               ∧ Store.ss_left_at r = None
               ∧ Store.ss_channel_login r = Some ch)
  ∧ (∀ u, Store.open_count u (Some ch) (store e) =
          if bool_decide (u ∈ S) then 1%nat else 0%nat)
  ∧ (∀ u, (Store.open_count u (Some ch) (store e) ≤ 1)%nat).
Proof.
  intros Hticks Hch Hnone Hcur0 Hlast.
  destruct (getOpenSet_none ch (store e0) Hnone) as [Hset H0].
  rewrite Hset in Hcur0.
  destruct (ticks_keep_agreement o sid ch (h0, e0) Ss (h, e) Hticks)
    as (_ & Hnd & Hcount & Hcur).
  - done.
  - simpl. rewrite Hcur0. constructor.
  - intros u. simpl. rewrite Hcur0, H0.
    by rewrite bool_decide_eq_false_2 by apply not_elem_of_nil.
  - simpl in *. rewrite (Hcur S Hlast) in *.
    split; [done|]. split; [done|]. split; [|split; [done|]].
    + intros u. specialize (Hcount u). split.
      * intros Hu. rewrite bool_decide_eq_true_2 in Hcount by done.
        destruct (proj1 (open_count_pos u (Some ch) (store e)))
          as (r & Hr & Hopen); [lia|].
        exists r. split; [done|]. by apply is_open_for_iff.
      * intros (r & Hr & Hopen). destruct (decide (u ∈ S)) as [|Hnot]; [done|].
        rewrite bool_decide_eq_false_2 in Hcount by done.
        pose proof (proj1 (open_count_0 u (Some ch) (store e)) Hcount r Hr)
          as Hclosed.
        apply is_open_for_iff in Hopen. congruence.
    + intros u. rewrite Hcount. case_bool_decide; lia.
Qed.

(** Two rounds of [tickAll] over a tenant and its neighbour, and a drain
    between them. *)
Lemma neighbours_ticks :
  let o := neighbours_world in
  let s0 := neighbours in
  let s5 := after_round o ["s"; "t"]
              (after_drain o (after_round o ["s"; "t"] s0)) in
  ticks_applied o "s" "chan" (s0.1, s0.2) [["alice"; "bob"]; ["alice"]]
    (s5.1, s5.2).
Proof.
  intros o s0 s5. set (s1 := after o "s" s0). set (s2 := after o "t" s1).
  set (s3 := after_drain o s2). set (s4 := after o "s" s3).
  assert (s5 = after o "t" s4) as -> by (vm_compute; reflexivity).
  assert (ticks_applied o "s" "chan" (s0.1, s0.2)
            ([] ++ [snapshot_of (segment s0.2 s1.2)]) (s1.1, s1.2)) as T1.
  { apply (ticks_more o "s" "chan" (s0.1, s0.2) [] s0.1 s0.2 (Ok tt)
             s1.1 s1.2).
    - apply ticks_none.
    - reflexivity.
    - vm_compute. reflexivity.
    - apply no_failure_in. vm_compute. reflexivity. }
  assert (ticks_applied o "s" "chan" (s0.1, s0.2)
            ([] ++ [snapshot_of (segment s0.2 s1.2)]) (s2.1, s2.2)) as T2.
  { apply (ticks_other o "s" "chan" (s0.1, s0.2) _ s1.1 s1.2 quiet "t"
             (Ok tt) s2.1 s2.2).
    - exact T1.
    - intros [=].
    - vm_compute. intros [=].
    - vm_compute. reflexivity. }
  assert (ticks_applied o "s" "chan" (s0.1, s0.2)
            ([] ++ [snapshot_of (segment s0.2 s1.2)]) (s3.1, s3.2)) as T3.
  { apply (ticks_drain o "s" "chan" (s0.1, s0.2) _ s2.1 s2.2 quiet (Ok tt)
             s3.1 s3.2).
    - exact T2.
    - vm_compute. reflexivity. }
  assert (ticks_applied o "s" "chan" (s0.1, s0.2)
            (([] ++ [snapshot_of (segment s0.2 s1.2)])
             ++ [snapshot_of (segment s3.2 s4.2)]) (s4.1, s4.2)) as T4.
  { apply (ticks_more o "s" "chan" (s0.1, s0.2) _ s3.1 s3.2 (Ok tt)
             s4.1 s4.2).
    - exact T3.
    - vm_compute. reflexivity.
    - vm_compute. reflexivity.
    - apply no_failure_in. vm_compute. reflexivity. }
  assert (([] ++ [snapshot_of (segment s0.2 s1.2)])
          ++ [snapshot_of (segment s3.2 s4.2)]
          = [["alice"; "bob"]; ["alice"]]) as HSs
    by (vm_compute; reflexivity).
  rewrite HSs in T4.
  apply (ticks_other o "s" "chan" (s0.1, s0.2) _ s4.1 s4.2 quiet "t"
           (Ok tt) (after o "t" s4).1 (after o "t" s4).2).
  - exact T4.
  - intros [=].
  - vm_compute. intros [=].
  - vm_compute. reflexivity.
Qed.

(** C1 at two rounds of [tickAll] over a tenant and a tenant of another
    channel, and a drain between them: alice and bob arrive, then bob
    leaves; alice is the one name with an open session in the channel, and
    has one, though the neighbour saw her too. *)
Lemma C1_witness :
  let o := neighbours_world in
  let sid := "s" in
  let s0 := neighbours in
  let s4 := after_round o ["s"; "t"]
              (after_drain o (after_round o ["s"; "t"] s0)) in
  ticks_applied o sid "chan" (s0.1, s0.2) [["alice"; "bob"]; ["alice"]]
    (s4.1, s4.2)
  ∧ broadcasterLogin (tenant s0.1 sid) = Some "chan"
  ∧ (∀ r, r ∈ Store.sessions (store s0.2) →
          ¬ (Store.ss_left_at r = None
             ∧ Store.ss_channel_login r = Some "chan"))
  ∧ current (tenant s0.1 sid) = Store.getOpenSet (Some "chan") (store s0.2)
  ∧ last [["alice"; "bob"]; ["alice"]] = Some ["alice"]
  ∧ current (tenant s4.1 sid) = ["alice"]
  ∧ ("alice" ∈ ["alice"] ↔
     ∃ r, r ∈ Store.sessions (store s4.2) ∧ Store.ss_username r = "alice"
          ∧ Store.ss_left_at r = None
          ∧ Store.ss_channel_login r = Some "chan")
  ∧ Store.open_count "alice" (Some "chan") (store s4.2) = 1%nat
  ∧ Store.open_count "bob" (Some "chan") (store s4.2) = 0%nat
  ∧ Store.events (store s4.2)
    = [Store.Event "alice" Store.join 1000 (Some "chan");
       Store.Event "bob" Store.join 1000 (Some "chan");
       Store.Event "alice" Store.join 2000 (Some "other");
       Store.Event "bob" Store.leave 3000 (Some "chan")].
Proof.
  intros o sid s0 s4.
  assert (∀ r, r ∈ Store.sessions (store s0.2) →
               ¬ (Store.ss_left_at r = None
                  ∧ Store.ss_channel_login r = Some "chan")) as Hnone.
  { intros r Hr. by apply elem_of_nil in Hr. }
  destruct (C1_open_sessions_match_snapshot o sid "chan" s0.1 s4.1 s0.2 s4.2
              [["alice"; "bob"]; ["alice"]] ["alice"] neighbours_ticks
              eq_refl Hnone eq_refl eq_refl) as (_ & Hcur & Hiff & Hcount & _).
  split; [exact neighbours_ticks|]. split; [reflexivity|].
  split; [exact Hnone|].
  split; [reflexivity|]. split; [reflexivity|]. split; [exact Hcur|].
  split; [exact (Hiff "alice")|].
  split; [exact (Hcount "alice")|]. split; [exact (Hcount "bob")|].
  vm_compute. reflexivity.
Defined.

Lemma ticks_applied_lowercase o sid ch s0 Ss s :
  ticks_applied o sid ch s0 Ss s →
  (∀ x, x ∈ current (tenant s0.1 sid) → toLowerCase x = x) →
  ∀ x, x ∈ current (tenant s.1 sid) → toLowerCase x = x.
Proof.
  intros Hticks H0.
  induction Hticks
    as [s|s Ss h1 e1 r h2 e2 Hticks IH Hready Hrun Hok
        |s Ss h1 e1 arr sid' r h2 e2 Hticks IH Hne Helse Hrun
        |s Ss h1 e1 arr r h2 e2 Hticks IH Hrun]; [done| | |].
  - destruct (successful_tick o sid h1 e1 r h2 e2 Hready Hrun Hok)
      as (_ & Hkp & _).
    destruct Hkp as (Hcur & _). simpl in Hcur. simpl. rewrite Hcur.
    intros x Hx. by apply snapshot_of_login in Hx as [_ Hx].
  - pose proof (tickOne_elsewhere arr o sid sid' ch h1 e1 Hne Helse) as Hstep.
    rewrite Hrun in Hstep. destruct Hstep as [Hten _]. simpl in *.
    rewrite Hten. by apply IH.
  - pose proof (enricher_tick_elsewhere arr o sid ch h1 e1) as Hstep.
    rewrite Hrun in Hstep. destruct Hstep as [Hten _]. simpl in *.
    rewrite Hten. by apply IH.
Qed.

(** X6. A restart loses no presence. A tenant watches a channel that no
    other tenant watches, its presence set holding lowercase names without
    repetition, each with one open session and no other name with any.
    After any succession of its ticks that act and see no call fail, with
    the ticks of the other tenants and the drains scheduled between them,
    whatever comes of those, the set that [getOpenSet] rebuilds from the
    store for the channel, as done at boot, holds the names of the presence
    set in memory, each once. *)
Theorem restart_rebuilds_presence
    (o : oracle) (sid ch : string) (h0 h : heap) (e0 e : env)
    (Ss : list (list string)) :
  ticks_applied o sid ch (h0, e0) Ss (h, e) →
  broadcasterLogin (tenant h0 sid) = Some ch →
  NoDup (current (tenant h0 sid)) →
  (∀ x, x ∈ current (tenant h0 sid) → toLowerCase x = x) →
  (∀ u, Store.open_count u (Some ch) (store e0) =
        if bool_decide (u ∈ current (tenant h0 sid)) then 1%nat else 0%nat) →
  Store.getOpenSet (broadcasterLogin (tenant h sid)) (store e)
  ≡ₚ current (tenant h sid).
Proof.
  intros Hticks Hch Hnd Hlow Hcount.
  pose proof (ticks_applied_lowercase o sid ch (h0, e0) Ss (h, e) Hticks Hlow)
    as Hlow'.
  destruct (ticks_keep_agreement o sid ch (h0, e0) Ss (h, e) Hticks Hch Hnd
              Hcount) as (Hch' & Hnd' & Hcount' & _).
  simpl in *. rewrite Hch'.
  apply NoDup_Permutation; [apply NoDup_foldl_add; constructor | done |].
  intros x. rewrite elem_of_getOpenSet. split.
  - intros (r & Hr & Hl & _ & Hc & Hx).
    assert (Store.ss_username r ∈ current (tenant h sid)) as Hin.
    { destruct (decide (Store.ss_username r ∈ current (tenant h sid)))
        as [|Hnot]; [done|].
      specialize (Hcount' (Store.ss_username r)).
      rewrite bool_decide_eq_false_2 in Hcount' by done.
      pose proof (proj1 (open_count_0 _ _ _) Hcount' r Hr) as Hclosed.
      rewrite (proj2 (is_open_for_iff _ _ _)) in Hclosed; done. }
    rewrite <- Hx. by rewrite Hlow'.
  - intros Hx. specialize (Hcount' x).
    rewrite bool_decide_eq_true_2 in Hcount' by done.
    destruct (proj1 (open_count_pos x (Some ch) (store e)))
      as (r & Hr & Hopen); [lia|].
    apply is_open_for_iff in Hopen as (Hu & Hl & Hc).
    exists r. split; [done|]. split; [done|]. split; [by eexists|].
    split; [done|]. rewrite Hu. by apply Hlow'.
Qed.

(** X6 at the two rounds of [tickAll] in which alice and bob arrive and
    bob leaves, over a tenant and a tenant of another channel, and a drain
    between them. *)
Lemma restart_rebuilds_presence_witness :
  let o := neighbours_world in
  let s0 := neighbours in
  let s4 := after_round o ["s"; "t"]
              (after_drain o (after_round o ["s"; "t"] s0)) in
  ticks_applied o "s" "chan" (s0.1, s0.2) [["alice"; "bob"]; ["alice"]]
    (s4.1, s4.2)
  ∧ broadcasterLogin (tenant s0.1 "s") = Some "chan"
  ∧ NoDup (current (tenant s0.1 "s"))
  ∧ (∀ x, x ∈ current (tenant s0.1 "s") → toLowerCase x = x)
  ∧ (∀ u, Store.open_count u (Some "chan") (store s0.2) =
          if bool_decide (u ∈ current (tenant s0.1 "s")) then 1%nat else 0%nat)
  ∧ Store.getOpenSet (broadcasterLogin (tenant s4.1 "s")) (store s4.2)
    ≡ₚ current (tenant s4.1 "s")
  ∧ current (tenant s4.1 "s") = ["alice"].
Proof.
  intros o s0 s4.
  assert (NoDup (current (tenant s0.1 "s"))) as Hnd by constructor.
  assert (∀ x, x ∈ current (tenant s0.1 "s") → toLowerCase x = x) as Hlow.
  { intros x Hx. by apply elem_of_nil in Hx. }
  assert (∀ u, Store.open_count u (Some "chan") (store s0.2) =
               if bool_decide (u ∈ current (tenant s0.1 "s"))
               then 1%nat else 0%nat) as Hcount.
  { intros u. reflexivity. }
  pose proof (restart_rebuilds_presence o "s" "chan" s0.1 s4.1 s0.2 s4.2
                [["alice"; "bob"]; ["alice"]] neighbours_ticks eq_refl Hnd Hlow
                Hcount) as Hperm.
  split; [exact neighbours_ticks|]. split; [reflexivity|]. split; [exact Hnd|].
  split; [exact Hlow|]. split; [exact Hcount|]. split; [exact Hperm|].
  vm_compute. reflexivity.
Defined.

(** ** Boot and logout *)

Lemma run_persistAuth arr o h e :
  run arr o persistAuth h e =
  let out := persisted (sessions h) in
  match io_fail o (length (log e)) with
  | None => (Ok tt, h, add_log (Entry (AuthStoreSave out) (Ok tt))
                        (set_authFile out e))
  | Some x => (Err x, h, add_log (Entry (AuthStoreSave out) (Err x))
                           (cut_file o (length (log e)) out e))
  end.
Proof.
  unfold persistAuth. rewrite run_gets_bind. simpl. unfold io_file.
  by destruct (io_fail o (length (log e))).
Qed.

Lemma authFile_cut_file o n out e :
  authFile (cut_file o n out e)
  = match io_stage o n with
    | O => authFile e
    | S O => None
    | S (S _) => Some out
    end.
Proof. unfold cut_file. by destruct (io_stage o n) as [|[|k]]. Qed.

Lemma truthy_str_or_null x : truthy_str (or_null x) = truthy_str x.
Proof. unfold or_null. by destruct (truthy_str x) eqn:H. Qed.

Lemma tenant_booted c e sid :
  tenant (booted c e) sid
  = match default ∅ (authFile e) !! sid with
    | Some a => restore (store e) a
    | None => newSessionAuth
    end.
Proof.
  unfold tenant, booted, bootAuthFromDisk. simpl.
  rewrite lookup_total_alt, lookup_fmap.
  by destruct (default ∅ (authFile e) !! sid).
Qed.

(** X16. [persistAuth] and [bootAuthFromDisk]. Writing the credential file
    changes neither the memory nor the store. The object that is written
    has one property for each tenant, set by assignment, so that a tenant
    whose session id is [__proto__] is not in it. A write that fails leaves
    the file as the failing step found it: as it was if the file could not
    be opened, emptied and unreadable if opening truncated it, and written
    if the failure came later. A process booted on the file that was
    written, with the same client configuration, has the tenants of the
    memory but the one under [__proto__]: each with its credentials, an
    empty or zero one read as null, no poll time and no error; such a
    tenant is ready for its ticks exactly if it was; and the presence set
    of one that watches a channel is what [getOpenSet] returns for the
    channel. Without a readable file there is no tenant. *)
Theorem boot_after_persist (arr : nat → list jsval) (o : oracle)
    (h : heap) (e : env) :
  let '(r, h', e') := run arr o persistAuth h e in
  h' = h ∧ store e' = store e
  ∧ dom (persisted (sessions h)) = dom (sessions h) ∖ {["__proto__"]}
  ∧ (∀ x, r = Err x →
     authFile e'
     = match io_stage o (length (log e)) with
       | O => authFile e
       | S O => None
       | S (S _) => Some (persisted (sessions h))
       end)
  ∧ (r = Ok tt →
     let hb := booted (cfg h) e' in
     sessions hb
     = (λ a, restore (store e) (credentials a))
       <$> delete "__proto__" (sessions h)
     ∧ sessions hb !! "__proto__" = None
     ∧ (∀ sid, sid ≠ "__proto__" → ready hb sid = ready h sid)
     ∧ (∀ sid, sid ≠ "__proto__" → is_Some (sessions h !! sid) →
          token (tenant hb sid) = or_null (token (tenant h sid))
          ∧ refreshToken (tenant hb sid) = or_null (refreshToken (tenant h sid))
          ∧ tokenExpiresAt (tenant hb sid)
            = or_null_num (tokenExpiresAt (tenant h sid))
          ∧ tokenScopes (tenant hb sid) = tokenScopes (tenant h sid)
          ∧ lastPollAt (tenant hb sid) = None
          ∧ lastError (tenant hb sid) = None)
     ∧ (∀ sid, sid ≠ "__proto__" → is_Some (sessions h !! sid) →
          truthy_str (broadcasterLogin (tenant h sid)) = true →
          broadcasterLogin (tenant hb sid) = broadcasterLogin (tenant h sid)
          ∧ current (tenant hb sid)
            = Store.getOpenSet (broadcasterLogin (tenant h sid)) (store e)))
  ∧ sessions (booted (cfg h) (Env (store e) None (log e))) = ∅.
Proof.
  rewrite run_persistAuth. cbv zeta.
  assert (dom (persisted (sessions h)) = dom (sessions h) ∖ {["__proto__"]})
    as Hdom.
  { unfold persisted. by rewrite dom_fmap_L, dom_delete_L. }
  destruct (io_fail o (length (log e))) as [x|].
  { split; [done|]. split; [simpl; by rewrite store_cut_file|].
    split; [done|].
    split; [intros _ _; simpl; by rewrite authFile_cut_file|].
    split; [done|].
    unfold booted, bootAuthFromDisk. simpl. apply fmap_empty. }
  split; [done|]. split; [done|]. split; [done|]. split; [done|].
  split; [|unfold booted, bootAuthFromDisk; simpl; apply fmap_empty].
  intros _.
  match goal with |- context [booted ?c ?e1] => set (hb := booted c e1) end.
  assert (∀ sid, sid ≠ "__proto__" →
            tenant hb sid
            = match sessions h !! sid with
              | Some a => restore (store e) (credentials a)
              | None => newSessionAuth
              end) as Hten.
  { intros sid Hne. unfold hb. rewrite tenant_booted. simpl.
    rewrite lookup_persisted, decide_False by done.
    by destruct (sessions h !! sid). }
  assert (∀ sid, tenant h sid = default newSessionAuth (sessions h !! sid))
    as Hold.
  { intros sid. unfold tenant. by rewrite lookup_total_alt. }
  split; [|split; [|split; [|split]]].
  - unfold hb, booted, bootAuthFromDisk, persisted. simpl.
    by rewrite <- map_fmap_compose.
  - unfold hb, booted, bootAuthFromDisk, persisted. simpl.
    by rewrite !lookup_fmap, lookup_delete_eq.
  - intros sid Hne. unfold ready. rewrite Hten, Hold by done.
    destruct (sessions h !! sid) as [a|]; simpl; [|done].
    by rewrite !truthy_str_or_null.
  - intros sid Hne [a Ha]. rewrite Hten, Hold, Ha by done. simpl. done.
  - intros sid Hne [a Ha] Hch. rewrite Hten, Hold, Ha in * by done.
    simpl in *.
    rewrite or_null_truthy by done. split; [done|].
    by destruct (broadcasterLogin a).
Qed.

(** X17. Logging out. Whatever comes of writing the credential file, the
    tenant is as [newSessionAuth] makes it, so that its ticks do nothing
    and call nothing from then on; the other tenants and the store are as
    they were: the sessions that were open stay open. If the file is
    written, it holds the tenants of the memory but the one under
    [__proto__], and a process booted on it finds the tenant without a
    token. If writing fails, the failure is thrown, and the file is as the
    failing step found it: as it was, with the token that was logged out,
    if the file could not be opened; unreadable, so that a boot finds no
    tenant at all, if opening truncated it; written if the failure came
    later. *)
Theorem logout_clears (arr : nat → list jsval) (o : oracle) (sid : string)
    (h : heap) (e : env) :
  let '(r, h', e') := run arr o (logout sid) h e in
  tenant h' sid = newSessionAuth
  ∧ (∀ sid', sid' ≠ sid → sessions h' !! sid' = sessions h !! sid')
  ∧ cfg h' = cfg h ∧ queue h' = queue h ∧ running h' = running h
  ∧ store e' = store e
  ∧ (∀ arr' o', run arr' o' (tickOne sid) h' e' = (Ok tt, h', e'))
  ∧ (r = Ok tt →
     authFile e' = Some (persisted (sessions h'))
     ∧ persisted (sessions h') !! "__proto__" = None
     ∧ token (tenant (booted (cfg h) e') sid) = None
     ∧ ready (booted (cfg h) e') sid = false)
  ∧ (∀ x, r = Err x →
     io_fail o (length (log e)) = Some x
     ∧ match io_stage o (length (log e)) with
       | O => authFile e' = authFile e
       | S O => authFile e' = None ∧ sessions (booted (cfg h) e') = ∅
       | S (S _) => authFile e' = Some (persisted (sessions h'))
       end).
Proof.
  unfold logout. rewrite run_bind. simpl run at 1. cbv beta iota.
  rewrite run_persistAuth. cbv zeta.
  set (h1 := set_tenant sid newSessionAuth h).
  assert (tenant h1 sid = newSessionAuth) as Hten
    by apply tenant_set_tenant.
  assert (ready h1 sid = false) as Hready.
  { unfold ready. rewrite Hten. simpl. by rewrite andb_false_r. }
  assert (∀ sid', sid' ≠ sid → sessions h1 !! sid' = sessions h !! sid')
    as Hoth.
  { intros sid' Hne. unfold h1, set_tenant. simpl. by rewrite lookup_insert_ne. }
  destruct (io_fail o (length (log e))) as [x|] eqn:Hio.
  - split; [done|]. split; [done|]. split; [done|]. split; [done|].
    split; [done|]. split; [simpl; by rewrite store_cut_file|].
    split; [intros arr' o'; by apply run_tickOne_skip|].
    split; [done|]. intros ? [= <-]. split; [done|].
    unfold booted, bootAuthFromDisk.
    simpl. rewrite authFile_cut_file.
    destruct (io_stage o (length (log e))) as [|[|k]]; [done| |done].
    split; [done|]. simpl. apply fmap_empty.
  - split; [done|]. split; [done|]. split; [done|]. split; [done|].
    split; [done|]. split; [done|].
    split; [intros arr' o'; by apply run_tickOne_skip|].
    split; [|done]. intros _. split; [done|].
    split; [by rewrite lookup_persisted|].
    assert (tenant (booted (cfg h)
                      (add_log (Entry (AuthStoreSave (persisted (sessions h1)))
                                  (Ok tt))
                         (set_authFile (persisted (sessions h1)) e))) sid
            = newSessionAuth
              ∨ tenant (booted (cfg h)
                      (add_log (Entry (AuthStoreSave (persisted (sessions h1)))
                                  (Ok tt))
                         (set_authFile (persisted (sessions h1)) e))) sid
            = restore (store e) (credentials newSessionAuth)) as Hb.
    { rewrite tenant_booted. simpl. rewrite lookup_persisted.
      destruct (decide (sid = "__proto__")); [by left|right].
      unfold h1, set_tenant. simpl. by rewrite lookup_insert_eq. }
    unfold ready. destruct Hb as [-> | ->]; simpl;
      (split; [done|]); by rewrite ?andb_false_r.
Qed.

(** A tenant logs out while the disk fails. If the failure comes after
    [writeFileSync] emptied the file, the file cannot be read and a process
    booted on it has no tenant; if the file could not be opened, it still
    holds the token that was logged out. *)
Example logout_on_a_failing_disk :
  let h := heap0 {[ "s" := watching "chan" ["alice"];
                    "t" := watching "other" [] ]} in
  let e := Env Store.empty (Some (persisted (sessions h))) [] in
  (let '(r, h', e') :=
     run quiet (scripted [IoFailsAfter 1 read_only_disk]) (logout "s") h e in
   r = Err read_only_disk ∧ token (tenant h' "s") = None
   ∧ authFile e' = None
   ∧ sessions (booted (cfg h) e') = ∅)
  ∧ (let '(r, h', e') :=
       run quiet (scripted [IoFails read_only_disk]) (logout "s") h e in
     r = Err read_only_disk ∧ token (tenant h' "s") = None
     ∧ token (tenant (booted (cfg h) e') "s") = Some "tok").
Proof. vm_compute. done. Qed.

(** A tenant under the key [__proto__] is not written, and is gone after a
    restart. *)
Example persistAuth_leaves_proto_out :
  let h := heap0 {[ "__proto__" := watching "chan" [];
                    "s" := watching "other" [] ]} in
  let '(r, _, e') := run quiet (scripted [IoDone]) persistAuth h env0 in
  r = Ok tt
  ∧ authFile e' = Some {[ "s" := credentials (watching "other" []) ]}
  ∧ sessions (booted (cfg h) e')
    = {[ "s" := restore Store.empty (credentials (watching "other" [])) ]}.
Proof. vm_compute. done. Qed.

(** ** Drains that follow each other *)

Lemma count_in_NoDup (u : string) (l : list string) :
  NoDup l →
  length (filter (λ x, x = u) l)
  = if bool_decide (u ∈ l) then 1%nat else 0%nat.
Proof.
  induction 1 as [|x l Hx Hnd IH]; [done|].
  rewrite filter_cons. destruct (decide (x = u)) as [->|Hne]; simpl.
  - rewrite IH, bool_decide_eq_false_2 by done.
    by rewrite bool_decide_eq_true_2 by left.
  - rewrite IH. rewrite (bool_decide_ext (u ∈ x :: l) (u ∈ l)); [done|].
    rewrite elem_of_cons. split; [intros [?|?]; [congruence | done] | by right].
Qed.

Lemma run_enricher_tick_quiet o h e :
  running h = false → NoDup (queue h) →
  ∃ seg,
    let '(r, h', e') := run quiet o enricher_tick h e in
    r = Ok tt
    ∧ log e' = log e ++ seg
    ∧ h' = set_queue (drop 50 (queue h)) h
    ∧ ∀ u, lookups_for u seg
           = if bool_decide (u ∈ take 50 (queue h)) then 1%nat else 0%nat.
Proof.
  intros Hrun Hnd. unfold enricher_tick. rewrite run_try_catch.
  destruct (decide (queue h = [])) as [Hq|Hq].
  - rewrite run_drain_idle by by right. exists []. rewrite app_nil_r.
    split; [done|]. split; [done|]. rewrite Hq. split; [|done].
    destruct h. simpl in *. by subst.
  - destruct (run_drain_effects quiet o h e Hrun Hq Hnd) as [seg Hseg].
    cbv zeta in Hseg.
    destruct (run quiet o drain h e) as [[r h'] e'].
    destruct Hseg as (Hlog & Hlook & ->).
    eexists (_ :: seg).
    assert (foldl enqueue_into (drop 50 (queue h))
              (quiet (length (log e))
               :: arrivals quiet (S (length (log e))) seg)
            = drop 50 (queue h)) as Hquiet.
    { simpl. apply foldl_enqueue_quiet. }
    rewrite Hquiet.
    assert (∀ u, lookups_for u
                   (Entry (GetUsers (clientId (cfg h)) (enrichToken h)
                             (take 50 (queue h)))
                      (users_reply o (length (log e))) :: seg)
                 = if bool_decide (u ∈ take 50 (queue h))
                   then 1%nat else 0%nat) as Hlookups.
    { intros u. unfold lookups_for in *. simpl. rewrite Hlook.
      unfold entry_logins. simpl.
      rewrite count_in_NoDup by by apply NoDup_take_of. lia. }
    destruct r as [[]|x]; simpl; done.
Qed.

Lemma NoDup_drop_of (k : nat) (l : list string) : NoDup l → NoDup (drop k l).
Proof.
  intros H. rewrite <- (take_drop k l) in H.
  by apply NoDup_app in H as (_ & _ & ?).
Qed.

(** X18. The scheduled drains, when nothing else enqueues meanwhile and no
    drain is running. After [n] of them, whatever the provider answered
    and whatever failed, the first [50 n] pending names have left the
    pending set, in their order, and the others are pending still; each
    name that left was asked for in one request exactly, also when that
    request failed, and no other name was asked for; nothing is thrown to
    the scheduler. Once [50 n] reaches the number of pending names the
    pending set is empty. *)
Theorem scheduled_drains (o : oracle) (n : nat) (h : heap) (e : env) :
  running h = false → NoDup (queue h) →
  let '(r, h', e') := run quiet o (enricher_ticks n) h e in
  r = Ok tt
  ∧ h' = set_queue (drop (50 * n) (queue h)) h
  ∧ (∀ u, lookups_for u (segment e e')
          = if bool_decide (u ∈ take (50 * n) (queue h))
            then 1%nat else 0%nat)
  ∧ ((length (queue h) ≤ 50 * n)%nat → queue h' = []).
Proof.
  revert h e. unfold enricher_ticks.
  induction n as [|n IH]; intros h e Hrun Hnd.
  - simpl. rewrite segment_refl, drop_0, set_queue_same.
    split; [done|]. split; [done|]. split; [done|].
    intros Hlen. destruct (queue h); [done | simpl in Hlen; lia].
  - cbn [replicate]. rewrite run_for_each_cons.
    destruct (run_enricher_tick_quiet o h e Hrun Hnd) as [seg1 Hseg1].
    destruct (run quiet o enricher_tick h e) as [[r1 h1] e1].
    destruct Hseg1 as (-> & Hlog1 & -> & Hlook1).
    specialize (IH (set_queue (drop 50 (queue h)) h) e1 Hrun
                  (NoDup_drop_of 50 _ Hnd)).
    destruct (run_log quiet o
                (for_each (replicate n ()) (λ _, enricher_tick))
                (set_queue (drop 50 (queue h)) h) e1) as [seg2 Hlog2].
    destruct (run quiet o (for_each (replicate n ()) (λ _, enricher_tick))
                (set_queue (drop 50 (queue h)) h) e1) as [[r h'] e'].
    destruct IH as (-> & -> & Hlook2 & Hempty). simpl in Hlog2, Hlook2.
    rewrite (segment_app _ _ _ Hlog2) in Hlook2.
    replace (50 * S n)%nat with (50 + 50 * n)%nat by lia.
    split; [done|]. split.
    { simpl. rewrite drop_drop. by destruct h. }
    split.
    + intros u.
      erewrite segment_app by (rewrite Hlog2, Hlog1, <- app_assoc; reflexivity).
      rewrite lookups_for_app, Hlook1, Hlook2.
      rewrite <- !count_in_NoDup by auto using NoDup_take_of, NoDup_drop_of.
      rewrite <- (take_take_drop (queue h) 50 (50 * n)).
      by rewrite filter_app, length_app.
    + intros Hlen. simpl. rewrite drop_drop. apply drop_ge. lia.
Qed.

(** X18 at three pending names of which the second lookup round is not
    needed: one drain empties the pending set. *)
Lemma scheduled_drains_witness :
  let h := pending ["ann"; "ben"; "cy"] false in
  let s := run quiet enrich_world (enricher_ticks 2) h env0 in
  running h = false
  ∧ NoDup (queue h)
  ∧ s.1.1 = Ok tt
  ∧ queue s.1.2 = []
  ∧ lookups_for "ben" (segment env0 s.2) = 1%nat
  ∧ lookups_for "zed" (segment env0 s.2) = 0%nat.
Proof.
  intros h s.
  assert (NoDup (queue h)) as Hnd
    by (apply (bool_decide_unpack _); vm_compute; exact I).
  pose proof (scheduled_drains enrich_world 2 h env0 eq_refl Hnd) as Hs.
  fold s in Hs. destruct s as [[r h'] e'].
  destruct Hs as (Hr & Hh & Hlook & Hempty).
  split; [reflexivity|]. split; [exact Hnd|]. split; [exact Hr|].
  split; [apply Hempty; vm_compute; lia|].
  split; [exact (Hlook "ben") | exact (Hlook "zed")].
Defined.
